(** * findatapy.timeseries.calculations: strategy returns, trade segments,
      risk stops and outer joins

    A shallow embedding of the [Calculations] class of
    [findatapy/timeseries/calculations.py].

    Modelling conventions.
    - A cell of a pandas DataFrame is a float or NaN.  Floats are taken as
      exact rationals ([Qc], canonical fractions, so that equality of cells is
      Leibniz equality); NaN is [None] and propagates through arithmetic;
      every comparison with NaN is false.
    - A DataFrame is its index labels (timestamps, as integers), its column
      labels (strings) and its values, stored column by column.  Operations
      that pandas performs label by label (alignment, outer join) are
      modelled for axes without repeated labels.
    - DataFrame objects are mutable and passed by reference: the methods of
      the class take references into a heap of DataFrame objects, read them
      with [load] and write them in place with [store].  A method that builds
      a new object returns its value.
    - Python exceptions are the error outcomes of the monads; [NotModelled]
      marks the places where a run leaves the fragment of pandas covered
      here (a row label [None], numbers as column labels, repeated row
      labels in [align]). *)

From Stdlib Require Import List ZArith QArith Qcanon Qcabs String Bool Arith Lia.
Import ListNotations.

Set Implicit Arguments.

Close Scope Qc_scope.
Close Scope Q_scope.
Close Scope Z_scope.

(* ------------------------------------------------------------------ *)
(** ** Cells *)

Definition cell := option Qc.
Definition NaN : cell := None.

Definition num (q : Q) : cell := Some (Q2Qc q).

Definition lift2 (f : Qc -> Qc -> Qc) (a b : cell) : cell :=
  match a, b with
  | Some x, Some y => Some (f x y)
  | _, _ => None
  end.

Definition cell_add : cell -> cell -> cell := lift2 Qcplus.
Definition cell_sub : cell -> cell -> cell := lift2 Qcminus.
Definition cell_mul : cell -> cell -> cell := lift2 Qcmult.
Definition cell_abs (a : cell) : cell := option_map Qcabs a.

Definition Qc_ltb (x y : Qc) : bool :=
  match (x ?= y)%Qc with Lt => true | _ => false end.
Definition Qc_eqb (x y : Qc) : bool := Qeq_bool x y.

(** [a > b], [a < b], [a == b] on floats: false as soon as one side is NaN. *)
Definition cell_gt (a b : cell) : bool :=
  match a, b with Some x, Some y => Qc_ltb y x | _, _ => false end.
Definition cell_lt (a b : cell) : bool :=
  match a, b with Some x, Some y => Qc_ltb x y | _, _ => false end.
Definition cell_eqb (a b : cell) : bool :=
  match a, b with Some x, Some y => Qc_eqb x y | _, _ => false end.

Definition notnull (a : cell) : bool :=
  match a with Some _ => true | None => false end.

(* ------------------------------------------------------------------ *)
(** ** Exceptions *)

Inductive exn : Type :=
| TypeError
| ValueError
| AttributeError
| KeyError
| IndexError
| NotModelled.

Inductive result (A : Type) : Type :=
| Ok (a : A)
| Err (e : exn).
Arguments Ok {A} a.
Arguments Err {A} e.

Definition rbind {A B} (m : result A) (k : A -> result B) : result B :=
  match m with
  | Ok a => k a
  | Err e => Err e
  end.

Declare Scope result_scope.
Delimit Scope result_scope with res.
Notation "x <- m ;; k" := (rbind m (fun x => k))
  (at level 61, m at next level, right associativity) : result_scope.

(** A Python [for] loop whose body may raise. *)
Definition for_each {A S} (l : list A) (body : S -> A -> result S) (s0 : S)
  : result S :=
  fold_left (fun acc a => rbind acc (fun s => body s a)) l (Ok s0).

(* ------------------------------------------------------------------ *)
(** ** Series: one column of values *)

Fixpoint map2 {A B C} (f : A -> B -> C) (l : list A) (l' : list B) : list C :=
  match l, l' with
  | a :: t, b :: t' => f a b :: map2 f t t'
  | _, _ => []
  end.

(** [Series.shift(k)]: values move [k] rows down ([k >= 0]) or [-k] rows up;
    the vacated rows are NaN and the length is kept. *)
Definition shift_col {A} (nan : A) (k : Z) (l : list A) : list A :=
  if (0 <=? k)%Z
  then firstn (List.length l) (repeat nan (Z.to_nat k) ++ l)
  else skipn (Z.to_nat (- k)) l
         ++ repeat nan (Nat.min (Z.to_nat (- k)) (List.length l)).

(** [cumsum] and [cumprod] skip NaN: a NaN row stays NaN and leaves the
    running total alone. *)
Fixpoint cum_from (f : Qc -> Qc -> Qc) (acc : Qc) (l : list cell) : list cell :=
  match l with
  | [] => []
  | None :: t => None :: cum_from f acc t
  | Some x :: t => Some (f acc x) :: cum_from f (f acc x) t
  end.

Definition cumsum_col : list cell -> list cell := cum_from Qcplus 0%Qc.
Definition cumprod_col : list cell -> list cell := cum_from Qcmult 1%Qc.

(** [ffill]: a NaN takes the last value seen above it, if any. *)
Fixpoint ffill_from (last : cell) (l : list cell) : list cell :=
  match l with
  | [] => []
  | None :: t => last :: ffill_from last t
  | Some x :: t => Some x :: ffill_from (Some x) t
  end.

Definition ffill_col : list cell -> list cell := ffill_from NaN.

(** [Series.count()]: the number of rows that are not NaN. *)
Definition count_col (l : list cell) : Z :=
  Z.of_nat (List.length (filter notnull l)).

(** Position of the first occurrence of a label. *)
Fixpoint find_pos {K} (eq_dec : forall x y : K, {x = y} + {x <> y})
  (k : K) (l : list K) : option nat :=
  match l with
  | [] => None
  | x :: t => if eq_dec k x then Some 0
              else option_map S (find_pos eq_dec k t)
  end.

(** [Series.first_valid_index()]: the label of the first row that is not
    NaN, or Python's [None]. *)
Fixpoint first_valid_index (idx : list Z) (l : list cell) : option Z :=
  match idx, l with
  | ts :: idx', Some _ :: _ => Some ts
  | _ :: idx', None :: t => first_valid_index idx' t
  | _, _ => None
  end.

(** [groupby(keys).cumsum()] on one column: a running sum per key value.
    Rows whose key is NaN belong to no group and come out as NaN; within a
    group a NaN value is skipped as in [cumsum]. *)
Fixpoint assoc_get (k : Qc) (acc : list (Qc * Qc)) : Qc :=
  match acc with
  | [] => 0%Qc
  | (k', s) :: t => if Qc_eq_dec k k' then s else assoc_get k t
  end.

Fixpoint group_cumsum (acc : list (Qc * Qc)) (keys vals : list cell)
  : list cell :=
  match keys, vals with
  | Some k :: ks, Some x :: vs =>
      let s := (assoc_get k acc + x)%Qc in
      Some s :: group_cumsum ((k, s) :: acc) ks vs
  | _ :: ks, _ :: vs => None :: group_cumsum acc ks vs
  | _, _ => []
  end.

(* ------------------------------------------------------------------ *)
(** ** Axis labels *)

Section Labels.
Variable K : Type.
Variable eq_dec : forall x y : K, {x = y} + {x <> y}.
Variable ltb : K -> K -> bool.

Fixpoint mem (k : K) (l : list K) : bool :=
  match l with
  | [] => false
  | x :: t => if eq_dec k x then true else mem k t
  end.

Fixpoint has_dup (l : list K) : bool :=
  match l with
  | [] => false
  | x :: t => mem x t || has_dup t
  end.

Definition overlap (a b : list K) : bool := existsb (fun k => mem k b) a.

Fixpoint insert_uniq (x : K) (l : list K) : list K :=
  match l with
  | [] => [x]
  | y :: t => if eq_dec x y then l
              else if ltb x y then x :: l
              else y :: insert_uniq x t
  end.

(** Sorted union without repetition. *)
Definition usort (l : list K) : list K := fold_right insert_uniq [] l.

(** [Index.union]: an index united with an equal one is itself; otherwise
    the union comes out sorted. *)
Definition union_labels (a b : list K) : list K :=
  if list_eq_dec eq_dec a b then a else usort (a ++ b).

(** Alignment of one axis of two operands.  Equal axes are kept as they
    are; otherwise both sides are reindexed on the union, which pandas
    refuses when an axis has duplicate labels. *)
Definition align_axis (a b : list K) : result (list K) :=
  if list_eq_dec eq_dec a b then Ok a
  else if has_dup a || has_dup b then Err ValueError
  else Ok (usort (a ++ b)).
End Labels.

Definition union_index : list Z -> list Z -> list Z :=
  union_labels Z.eq_dec Z.ltb.

(* ------------------------------------------------------------------ *)
(** ** Frames *)

Record Frame (L A : Type) : Type := mkFrame {
  index : list L;          (* row labels *)
  columns : list string;   (* column labels *)
  data : list (list A)     (* one list of values per column label *)
}.

Definition DataFrame := Frame Z cell.
Definition BoolFrame := Frame Z bool.

(** Column number [j]. *)
Definition col {L A} (f : Frame L A) (j : nat) : list A := nth j (data f) [].

(** The value in column number [j], row number [t]; NaN outside the frame. *)
Definition cell_at (f : DataFrame) (j t : nat) : cell :=
  nth t (nth j (data f) []) NaN.

Definition nrows {L A} (f : Frame L A) : nat := List.length (index f).
Definition ncols {L A} (f : Frame L A) : nat := List.length (columns f).

(** Table invariant: one column of values per column label, each as long as
    the index. *)
Definition well_formed {L A} (f : Frame L A) : bool :=
  (List.length (data f) =? ncols f)
  && forallb (fun c => List.length c =? nrows f) (data f).

Definition same_labels {A B} (f : Frame Z A) (g : Frame Z B) : bool :=
  if list_eq_dec Z.eq_dec (index f) (index g)
  then if list_eq_dec string_dec (columns f) (columns g) then true else false
  else false.

Definition frame_map {L A B} (g : A -> B) (f : Frame L A) : Frame L B :=
  mkFrame (index f) (columns f) (map (map g) (data f)).

Definition frame_cols {L A B} (g : list A -> list B) (f : Frame L A)
  : Frame L B :=
  mkFrame (index f) (columns f) (map g (data f)).

(** Cell by cell on two identically labelled frames. *)
Definition frame_zip {L A B C} (g : A -> B -> C) (f : Frame L A)
  (f' : Frame L B) : Frame L C :=
  mkFrame (index f) (columns f) (map2 (map2 g) (data f) (data f')).

(** The value under labels [(ts, c)], NaN when a label is absent. *)
Definition lookup {A} (nan : A) (f : Frame Z A) (ts : Z) (c : string) : A :=
  match find_pos string_dec c (columns f), find_pos Z.eq_dec ts (index f) with
  | Some j, Some i => nth i (nth j (data f) []) nan
  | _, _ => nan
  end.

Definition reindex {A} (nan : A) (f : Frame Z A) (idx : list Z)
  (cols : list string) : Frame Z A :=
  mkFrame idx cols (map (fun c => map (fun ts => lookup nan f ts c) idx) cols).

Local Open Scope result_scope.

(** [a + b], [a - b], [a * b] on frames.  Identically labelled operands are
    combined in place; others are first aligned on the union of their
    labels, the cells absent from one side being NaN. *)
Definition df_arith (op : cell -> cell -> cell) (a b : DataFrame)
  : result DataFrame :=
  if same_labels a b then Ok (frame_zip op a b)
  else
    idx <- align_axis Z.eq_dec Z.ltb (index a) (index b) ;;
    cols <- align_axis string_dec String.ltb (columns a) (columns b) ;;
    Ok (frame_zip op (reindex NaN a idx cols) (reindex NaN b idx cols)).

Definition df_sub := df_arith cell_sub.
Definition df_mul := df_arith cell_mul.

Definition df_shift (k : Z) : DataFrame -> DataFrame :=
  frame_cols (shift_col NaN k).
Definition df_abs : DataFrame -> DataFrame := frame_map cell_abs.
Definition df_cumsum : DataFrame -> DataFrame := frame_cols cumsum_col.
Definition df_cumprod : DataFrame -> DataFrame := frame_cols cumprod_col.
Definition df_ffill : DataFrame -> DataFrame := frame_cols ffill_col.

(** Arithmetic and comparison with a scalar broadcast over every cell. *)
Definition df_scalar (op : cell -> cell -> cell) (f : DataFrame) (x : cell)
  : DataFrame := frame_map (fun a => op a x) f.
Definition df_cmp_scalar (cmp : cell -> cell -> bool) (f : DataFrame)
  (x : cell) : BoolFrame := frame_map (fun a => cmp a x) f.

(** Comparison of two frames: pandas compares identically labelled frames
    only. *)
Definition df_cmp (cmp : cell -> cell -> bool) (a b : DataFrame)
  : result BoolFrame :=
  if same_labels a b then Ok (frame_zip cmp a b) else Err ValueError.

(** [f.columns = cols]. *)
Definition set_columns {L A} (f : Frame L A) (cols : list string)
  : result (Frame L A) :=
  if List.length cols =? ncols f
  then Ok (mkFrame (index f) cols (data f))
  else Err ValueError.

(** A boolean key laid over the cells of [f]: position by position when the
    labels are the same, label by label otherwise (a cell the key does not
    cover is not selected). *)
Definition mask_over {A} (f : Frame Z A) (key : BoolFrame)
  : result (list (list bool)) :=
  if same_labels f key then Ok (data key)
  else
    _ <- align_axis Z.eq_dec Z.ltb (index key) (index f) ;;
    _ <- align_axis string_dec String.ltb (columns key) (columns f) ;;
    Ok (map (fun c => map (fun ts => lookup false key ts c) (index f))
            (columns f)).

(** [f[key] = v] with a boolean frame as key. *)
Definition setitem_mask (f : DataFrame) (key : BoolFrame) (v : cell)
  : result DataFrame :=
  m <- mask_over f key ;;
  Ok (mkFrame (index f) (columns f)
        (map2 (map2 (fun x (b : bool) => if b then v else x)) (data f) m)).

(** [f[key]] with a boolean frame as key: the cells not selected are NaN. *)
Definition getitem_mask (f : DataFrame) (key : BoolFrame) : result DataFrame :=
  m <- mask_over f key ;;
  Ok (mkFrame (index f) (columns f)
        (map2 (map2 (fun x (b : bool) => if b then x else NaN)) (data f) m)).

(** [f[c]]: the values of the column labelled [c]. *)
Definition getitem {L A} (f : Frame L A) (c : string) : result (list A) :=
  match find_pos string_dec c (columns f) with
  | Some j => Ok (nth j (data f) [])
  | None => Err KeyError
  end.

(** A column of values laid on another index, label by label. *)
Definition reindex_col (old : list Z) (col : list cell) (idx : list Z)
  : list cell :=
  map (fun ts => match find_pos Z.eq_dec ts old with
                 | Some i => nth i col NaN
                 | None => NaN
                 end) idx.

(** [f[c] = series]: the series, aligned on the index of [f], replaces the
    column labelled [c], or becomes a new last column. *)
Definition setitem_col (f : DataFrame) (c : string) (sidx : list Z)
  (col : list cell) : DataFrame :=
  let col' := if list_eq_dec Z.eq_dec sidx (index f) then col
              else reindex_col sidx col (index f) in
  if mem string_dec c (columns f)
  then mkFrame (index f) (columns f)
         (map2 (fun name old => if string_dec name c then col' else old)
               (columns f) (data f))
  else mkFrame (index f) (columns f ++ [c]) (data f ++ [col']).

(** [f.drop([c], axis=1)]. *)
Definition drop (f : DataFrame) (c : string) : result DataFrame :=
  if mem string_dec c (columns f)
  then
    let keep := filter (fun p => if string_dec (fst p) c then false else true)
                       (combine (columns f) (data f)) in
    Ok (mkFrame (index f) (map fst keep) (map snd keep))
  else Err KeyError.

(** [f.loc[ts, c] = v]. *)
Definition loc_set (f : DataFrame) (ts : Z) (c : string) (v : cell)
  : DataFrame :=
  mkFrame (index f) (columns f)
    (map2 (fun name col =>
             if string_dec name c
             then map2 (fun t x => if Z.eq_dec t ts then v else x) (index f) col
             else col)
          (columns f) (data f)).

(** [f.groupby([key])[c].cumsum()]. *)
Definition groupby_cumsum (f : DataFrame) (key c : string)
  : result (list cell) :=
  keys <- getitem f key ;;
  vals <- getitem f c ;;
  Ok (group_cumsum [] keys vals).

(** [pandas.DataFrame(index=idx, columns=cols, data=numpy.ones(...))]. *)
Definition ones (idx : list Z) (cols : list string) : DataFrame :=
  mkFrame idx cols (map (fun _ => map (fun _ => Some 1%Qc) idx) cols).

(** [l.join(r, how='outer')]: the rows are the union of the two indexes, the
    columns those of [l] followed by those of [r]; pandas refuses column
    labels that occur on both sides. *)
Definition join_outer (l r : DataFrame) : result DataFrame :=
  if overlap string_dec (columns l) (columns r) then Err ValueError
  else
    let idx := union_index (index l) (index r) in
    Ok (mkFrame idx (columns l ++ columns r)
          (map (fun col => reindex_col (index l) col idx) (data l)
           ++ map (fun col => reindex_col (index r) col idx) (data r))).

(* ------------------------------------------------------------------ *)
(** ** The heap of DataFrame objects *)

Definition ref := nat.
Definition heap := list DataFrame.

Inductive outcome (A : Type) : Type :=
| Return (a : A) (h : heap)
| Raise (e : exn) (h : heap).
Arguments Return {A} a h.
Arguments Raise {A} e h.

Definition M (A : Type) : Type := heap -> outcome A.

Definition ret {A} (a : A) : M A := fun h => Return a h.

Definition bind {A B} (m : M A) (k : A -> M B) : M B :=
  fun h => match m h with
           | Return a h' => k a h'
           | Raise e h' => Raise e h'
           end.

Definition lift {A} (r : result A) : M A :=
  fun h => match r with
           | Ok a => Return a h
           | Err e => Raise e h
           end.

Declare Scope heap_scope.
Delimit Scope heap_scope with heap.
Notation "x <- m ;; k" := (bind m (fun x => k))
  (at level 61, m at next level, right associativity) : heap_scope.
Notation "m ;;; k" := (bind m (fun _ => k))
  (at level 61, right associativity) : heap_scope.

Fixpoint update (r : ref) (d : DataFrame) (h : heap) : heap :=
  match h, r with
  | [], _ => []
  | _ :: t, O => d :: t
  | x :: t, S r' => x :: update r' d t
  end.

(** Reading the object behind a reference.  A reference to no object stands
    for Python's [None], which has none of the attributes used here. *)
Definition load (r : ref) : M DataFrame :=
  fun h => match nth_error h r with
           | Some d => Return d h
           | None => Raise AttributeError h
           end.

(** Overwriting in place the object behind a reference. *)
Definition store (r : ref) (d : DataFrame) : M unit :=
  fun h => match nth_error h r with
           | Some _ => Return tt (update r d h)
           | None => Raise AttributeError h
           end.

(** A stop level is a float or a DataFrame of per-cell levels. *)
Inductive level : Type :=
| Scalar (x : cell)
| PerCell (r : ref).

(** [frame > lvl] and [frame < lvl]. *)
Definition compare_level (cmp : cell -> cell -> bool) (f : DataFrame)
  (lvl : level) : M BoolFrame :=
  match lvl with
  | Scalar x => ret (df_cmp_scalar cmp f x)
  | PerCell r => bind (load r) (fun g => lift (df_cmp cmp f g))
  end.

(* ------------------------------------------------------------------ *)
(** ** Further pandas and numpy operations *)

(** [a >= b] on floats. *)
Definition cell_ge (a b : cell) : bool :=
  match a, b with Some x, Some y => negb (Qc_ltb x y) | _, _ => false end.

(** [DataFrame.dropna()]: the rows that hold a NaN are left out. *)
Definition row_complete (f : DataFrame) (i : nat) : bool :=
  forallb (fun c => notnull (nth i c NaN)) (data f).

Definition take_rows {A} (d : A) (rows : list nat) (l : list A) : list A :=
  map (fun i => nth i l d) rows.

Definition dropna (f : DataFrame) : DataFrame :=
  let rows := filter (row_complete f) (seq 0 (nrows f)) in
  mkFrame (take_rows 0%Z rows (index f)) (columns f)
          (map (take_rows NaN rows) (data f)).

(** The rows of a frame laid on another index, label by label. *)
Definition reindex_rows (f : DataFrame) (idx : list Z) : DataFrame :=
  mkFrame idx (columns f) (map (fun c => reindex_col (index f) c idx) (data f)).

(** [l.align(r, join='outer', axis=0)]: both frames on the union of the two
    indexes; frames with equal indexes are kept as they are.  Unequal
    indexes with repeated labels are outside the model. *)
Definition align_rows_outer (l r : DataFrame)
  : result (DataFrame * DataFrame) :=
  if list_eq_dec Z.eq_dec (index l) (index r) then Ok (l, r)
  else if has_dup Z.eq_dec (index l) || has_dup Z.eq_dec (index r)
  then Err NotModelled
  else let idx := usort Z.eq_dec Z.ltb (index l ++ index r) in
       Ok (reindex_rows l idx, reindex_rows r idx).

(** [l.align(r, join='left', axis=0)]: the right frame on the index of the
    left one. *)
Definition align_rows_left (l r : DataFrame) : result (DataFrame * DataFrame) :=
  if list_eq_dec Z.eq_dec (index l) (index r) then Ok (l, r)
  else if has_dup Z.eq_dec (index r) then Err NotModelled
  else Ok (l, reindex_rows r (index l)).

(** [a.values * b.values] given the labels of [b]: numpy multiplies position
    by position, stretching an axis of length 1 of [a]; the DataFrame
    constructor then wants the shape of [b].  Both refusals are
    ValueError. *)
Definition fits (n m : nat) : bool := (n =? m) || (n =? 1).

Definition values_mul_as (a b : DataFrame) : result DataFrame :=
  if fits (nrows a) (nrows b) && fits (ncols a) (ncols b)
  then
    let row t := if nrows a =? nrows b then t else 0 in
    let cl j := if ncols a =? ncols b then j else 0 in
    Ok (mkFrame (index b) (columns b)
          (map (fun j =>
                  map (fun t => cell_mul (cell_at a (cl j) (row t))
                                         (cell_at b j t))
                      (seq 0 (nrows b)))
               (seq 0 (ncols b))))
  else Err ValueError.

(** [a.values.flatten()]: the cells of a frame, row after row. *)
Definition flatten (f : DataFrame) : list cell :=
  flat_map (fun t => map (fun c => nth t c NaN) (data f)) (seq 0 (nrows f)).

(** [numpy.multiply(numpy.transpose(numpy.repeat(v[numpy.newaxis, :], n, 0)),
    b.values)] given the labels of [b]: the vector [v] stands as a column
    beside every column of [b]; numpy stretches a vector of length 1, and
    the DataFrame constructor wants the shape of [b].  Both refusals are
    ValueError. *)
Definition column_mul_as (v : list cell) (n : nat) (b : DataFrame)
  : result DataFrame :=
  if fits (List.length v) (nrows b) && fits n (ncols b)
  then
    let row t := if List.length v =? nrows b then t else 0 in
    Ok (mkFrame (index b) (columns b)
          (map (fun j =>
                  map (fun t => cell_mul (nth (row t) v NaN) (cell_at b j t))
                      (seq 0 (nrows b)))
               (seq 0 (ncols b))))
  else Err ValueError.

(** A Python dict with string keys, in insertion order. *)
Definition dict (V : Type) : Type := list (string * V).

Fixpoint dict_get {V} (d : dict V) (k : string) : option V :=
  match d with
  | [] => None
  | (k', v) :: t => if string_dec k k' then Some v else dict_get t k
  end.

Definition dict_has {V} (d : dict V) (k : string) : bool :=
  match dict_get d k with Some _ => true | None => false end.

(** [d[k] = v]. *)
Fixpoint dict_set {V} (d : dict V) (k : string) (v : V) : dict V :=
  match d with
  | [] => [(k, v)]
  | (k', v') :: t => if string_dec k k' then (k, v) :: t
                     else (k', v') :: dict_set t k v
  end.

(** How [_safe_update] ends, with the dict [d] as it then is. *)
Inductive update_outcome (V : Type) : Type :=
| Updated (d : dict V)
| Duplicate_regressor (k : string) (d : dict V).
Arguments Updated {V} d.
Arguments Duplicate_regressor {V} k d.

(* ------------------------------------------------------------------ *)
(** ** class Calculations *)

Module Calculations.

Local Open Scope heap_scope.

(** [calculate_signal_tc]:
    [(signal.shift(period_shift) - signal).abs().multiply(tc)]. *)
Definition calculate_signal_tc (signal_data_frame : ref) (tc : cell)
  (period_shift : Z) : M DataFrame :=
  s <- load signal_data_frame ;;
  d <- lift (df_sub (df_shift period_shift s) s) ;;
  ret (df_scalar cell_mul (df_abs d) tc).

(** [calculate_signal_returns]:
    [signal.shift(period_shift) * returns]. *)
Definition calculate_signal_returns (signal_data_frame returns_data_frame : ref)
  (period_shift : Z) : M DataFrame :=
  s <- load signal_data_frame ;;
  r <- load returns_data_frame ;;
  lift (df_mul (df_shift period_shift s) r).

(** [calculate_signal_returns_with_tc]. *)
Definition calculate_signal_returns_with_tc
  (signal_data_frame returns_data_frame : ref) (tc : cell) (period_shift : Z)
  : M DataFrame :=
  tc_costs <- calculate_signal_tc signal_data_frame tc period_shift ;;
  s <- load signal_data_frame ;;
  r <- load returns_data_frame ;;
  p <- lift (df_mul (df_shift period_shift s) r) ;;
  lift (df_sub p tc_costs).

(** [calculate_trade_no]: per column, the number of rows where
    [|signal - signal.shift(-1)| > 0]; the result is indexed by the column
    labels of the signal and has the one column ['Trades']. *)
Definition calculate_trade_no (signal_data_frame : ref) : M (Frame string Z) :=
  s <- load signal_data_frame ;;
  d <- lift (df_sub s (df_shift (-1) s)) ;;
  let trades := df_abs d in
  kept <- lift (getitem_mask trades (df_cmp_scalar cell_gt trades (Some 0%Qc))) ;;
  ret (mkFrame (columns kept) ["Trades"%string] [map count_col (data kept)]).

(** [calculate_trade_duration]: the body is a docstring and a commented-out
    draft, so the call falls off the end of the function. *)
Definition calculate_trade_duration (signal_data_frame : ref)
  : M (option DataFrame) :=
  ret None.

(** The trade points of [calculate_cum_rets_trades] and
    [calculate_final_trade_duration]:
    [pushed = signal.shift(1)],
    [reset_points = (pushed - pushed.shift(1)).abs().cumsum()]. *)
Definition reset_points (s : DataFrame) : result DataFrame :=
  let signal_data_frame_pushed := df_shift 1 s in
  rbind (df_sub signal_data_frame_pushed (df_shift 1 signal_data_frame_pushed))
        (fun d => Ok (df_cumsum (df_abs d))).

(** One turn of the loop of [calculate_final_trade_duration]. *)
Definition duration_step (reset : DataFrame) (time_data_frame : DataFrame)
  (c : string) : result DataFrame :=
  (key <- getitem reset c ;;
   let t1 := setitem_col time_data_frame (c ++ "cumperiods") (index reset) key in
   g <- groupby_cumsum t1 (c ++ "cumperiods") c ;;
   let t2 := setitem_col t1 c (index t1) g in
   drop t2 (c ++ "cumperiods"))%res.

(** [calculate_final_trade_duration]. *)
Definition calculate_final_trade_duration (signal_data_frame : ref)
  : M DataFrame :=
  s <- load signal_data_frame ;;
  reset <- lift (reset_points s) ;;
  let time_data_frame := ones (index s) (columns s) in
  let old_cols := columns time_data_frame in
  t0 <- lift (set_columns time_data_frame (columns (df_shift 1 s))) ;;
  t1 <- lift (for_each (columns reset) (duration_step reset) t0) ;;
  lift (set_columns t1 old_cols).

(** [create_mult_index]: [100 * (1 + rets).cumprod()], then 100 written at
    the first valid row of each column.  A column with no valid row has
    [first_valid_index() = None]; writing under that label is outside the
    model. *)
Definition mult_index_step (df : DataFrame) (c : string) : result DataFrame :=
  (col <- getitem df c ;;
   match first_valid_index (index df) col with
   | Some ts => Ok (loc_set df ts c (Some (Q2Qc 100)))
   | None => Err NotModelled
   end)%res.

Definition create_mult_index (df_rets : ref) : M DataFrame :=
  r <- load df_rets ;;
  let df := frame_map (fun a => cell_mul (Some (Q2Qc 100)) a)
              (df_cumprod (frame_map (fun a => cell_add (Some 1%Qc) a) r)) in
  lift (for_each (columns df) mult_index_step df).

(** [(cum_rets_trades > take_profit) | (cum_rets_trades < stop_loss)]: the
    cells where a stop condition is true. *)
Definition stop_flags (cum_rets_trades : ref) (stop_loss take_profit : level)
  : M BoolFrame :=
  c <- load cum_rets_trades ;;
  above <- compare_level cell_gt c take_profit ;;
  c' <- load cum_rets_trades ;;
  below <- compare_level cell_lt c' stop_loss ;;
  ret (frame_zip orb above below).

(** [calculate_risk_stop_signals]. *)
Definition calculate_risk_stop_signals (signal_data_frame cum_rets_trades : ref)
  (stop_loss take_profit : level) : M DataFrame :=
  (* signal_data_frame_pushed is the same object as signal_data_frame *)
  s <- load signal_data_frame ;;
  d <- lift (df_sub s (df_shift 1 s)) ;;
  let reset_points := df_abs d in
  ind <- stop_flags cum_rets_trades stop_loss take_profit ;;
  s1 <- load signal_data_frame ;;
  ind <- lift (set_columns ind (columns s1)) ;;
  (* signal_data_frame[ind] = 0 *)
  s2 <- load signal_data_frame ;;
  s2' <- lift (setitem_mask s2 ind (Some 0%Qc)) ;;
  store signal_data_frame s2' ;;;
  (* reset_points[ind] = 1 *)
  reset_points <- lift (setitem_mask reset_points ind (Some 1%Qc)) ;;
  (* signal_data_frame[reset_points == 0] = numpy.nan *)
  s3 <- load signal_data_frame ;;
  s3' <- lift (setitem_mask s3
                 (df_cmp_scalar cell_eqb reset_points (Some 0%Qc)) NaN) ;;
  store signal_data_frame s3' ;;;
  (* signal_data_frame = signal_data_frame.ffill() *)
  s4 <- load signal_data_frame ;;
  ret (df_ffill s4).

(** [calculate_cum_rets_trades].

    [strategy_returns_data_frame] is first the caller's object, written in
    place, and from the first [drop] on a new object. *)
Inductive handle : Type :=
| Shared (r : ref)
| Fresh (d : DataFrame).

Definition read (x : handle) : M DataFrame :=
  match x with
  | Shared r => load r
  | Fresh d => ret d
  end.

Definition write (x : handle) (d : DataFrame) : M handle :=
  match x with
  | Shared r => store r d ;;; ret (Shared r)
  | Fresh _ => ret (Fresh d)
  end.

(** [strategy_returns_data_frame.columnsii]: a DataFrame has no such
    attribute; pandas then looks for a column of that name. *)
Definition getattr_columnsii (f : DataFrame) : result (list cell) :=
  match find_pos string_dec "columnsii"%string (columns f) with
  | Some j => Ok (nth j (data f) [])
  | None => Err AttributeError
  end.

Definition for_eachM {A S} (l : list A) (body : S -> A -> M S) (s0 : S) : M S :=
  fold_left (fun acc a => bind acc (fun s => body s a)) l (ret s0).

Definition cum_rets_step (reset : DataFrame) (x : handle) (c : string)
  : M handle :=
  key <- lift (getitem reset c) ;;
  cur <- read x ;;
  x1 <- write x (setitem_col cur (c ++ "cumsum") (index reset) key) ;;
  cur1 <- read x1 ;;
  g <- lift (groupby_cumsum cur1 (c ++ "cumsum") c) ;;
  cur1' <- read x1 ;;
  x2 <- write x1 (setitem_col cur1' c (index cur1') g) ;;
  cur2 <- read x2 ;;
  d <- lift (drop cur2 (c ++ "cumsum")) ;;
  ret (Fresh d).

Definition calculate_cum_rets_trades
  (signal_data_frame strategy_returns_data_frame : ref) : M DataFrame :=
  s <- load signal_data_frame ;;
  reset <- lift (reset_points s) ;;
  r <- load strategy_returns_data_frame ;;
  old_cols <- lift (getattr_columnsii r) ;;
  (* strategy_returns_data_frame.columns = signal_data_frame_pushed.columns *)
  r0 <- load strategy_returns_data_frame ;;
  r1 <- lift (set_columns r0 (columns (df_shift 1 s))) ;;
  store strategy_returns_data_frame r1 ;;;
  x <- for_eachM (columns reset) (cum_rets_step reset)
         (Shared strategy_returns_data_frame) ;;
  (* strategy_returns_data_frame.columns = old_cols, where old_cols is a
     column of floats: the new labels would be numbers *)
  cur <- read x ;;
  if List.length old_cols =? ncols cur
  then lift (Err NotModelled)
  else lift (Err ValueError).

(** *** Outer joins of a list of frames *)

Local Open Scope result_scope.

(** [join_dfs] of [functional_outer_join]: [ldf.join(rdf, how='outer')] on
    list entries that may be [None]. *)
Definition join_dfs (ldf rdf : option DataFrame) : result (option DataFrame) :=
  match ldf, rdf with
  | None, _ => Err AttributeError
  | Some _, None => Err TypeError
  | Some l, Some r => d <- join_outer l r ;; Ok (Some d)
  end.

(** [functional_outer_join]: [functools.reduce(join_dfs, df_list)], which
    raises TypeError on [None] and on the empty list. *)
Definition functional_outer_join (df_list : option (list (option DataFrame)))
  : result (option DataFrame) :=
  match df_list with
  | None => Err TypeError
  | Some [] => Err TypeError
  | Some (x :: xs) =>
      fold_left (fun acc y => a <- acc ;; join_dfs a y) xs (Ok x)
  end.

(** [df_list[i]]. *)
Definition getitem_list {A} (l : list A) (i : nat) : result A :=
  match nth_error l i with
  | Some a => Ok a
  | None => Err IndexError
  end.

(** [join_aux]. *)
Definition join_aux (i : nat) (df_list : list DataFrame) : result DataFrame :=
  if (Z.of_nat i =? Z.of_nat (List.length df_list) - 1)%Z
  then getitem_list df_list i
  else
    l <- getitem_list df_list i ;;
    r <- getitem_list df_list (i + 1) ;;
    join_outer l r.

(** [range(0, length, 2)]. *)
Definition range_by_2 (length : nat) : list nat :=
  map (fun k => 2 * k) (seq 0 (Nat.div2 (length + 1))).

(** One turn of the [while] loop of [iterative_outer_join_second]:
    [df_list_out] is [join_aux(i, df_list)] for [i] in [range(0, length, 2)]. *)
Definition join_round (df_list : list DataFrame) : result (list DataFrame) :=
  for_each (range_by_2 (List.length df_list))
    (fun df_list_out i => d <- join_aux i df_list ;; Ok (df_list_out ++ [d]))
    [].

(** The [while (True)] loop, run for at most [fuel] turns; [None] when the
    loop has not left by then. *)
Fixpoint join_rounds (fuel : nat) (df_list : list DataFrame)
  : option (result DataFrame) :=
  match fuel with
  | O => None
  | S fuel' =>
      if List.length df_list =? 1 then Some (getitem_list df_list 0)
      else match join_round df_list with
           | Err e => Some (Err e)
           | Ok df_list_out => join_rounds fuel' df_list_out
           end
  end.

Definition remove_none {A} (l : list (option A)) : list A :=
  flat_map (fun i => match i with Some a => [a] | None => [] end) l.

(** [iterative_outer_join_second]. *)
Definition iterative_outer_join_second (fuel : nat)
  (df_list : option (list (option DataFrame)))
  : option (result (option DataFrame)) :=
  match df_list with
  | None => Some (Ok None)
  | Some df_list =>
      let df_list := remove_none df_list in
      if List.length df_list =? 0 then Some (Ok None)
      else if List.length df_list =? 1
      then Some (d <- getitem_list df_list 0 ;; Ok (Some d))
      else option_map (fun r => d <- r ;; Ok (Some d))
                      (join_rounds fuel df_list)
  end.

(** *** Further methods *)

Local Open Scope heap_scope.

(** [calculate_signal_returns_as_matrix]:
    [DataFrame(signal.shift(period_shift).values * returns.values,
               index=returns.index, columns=returns.columns)]. *)
Definition calculate_signal_returns_as_matrix
  (signal_data_frame returns_data_frame : ref) (period_shift : Z)
  : M DataFrame :=
  s <- load signal_data_frame ;;
  r <- load returns_data_frame ;;
  lift (values_mul_as (df_shift period_shift s) r).

(** [calculate_risk_stop_defined_signals]. *)
Definition calculate_risk_stop_defined_signals
  (signal_data_frame stops_data_frame : ref) : M DataFrame :=
  s <- load signal_data_frame ;;
  d <- lift (df_sub s (df_shift 1 s)) ;;
  let reset_points := df_abs d in
  st <- load stops_data_frame ;;
  let stops_data_frame := df_abs st in
  let ind := df_cmp_scalar cell_ge stops_data_frame (Some 1%Qc) in
  s1 <- load signal_data_frame ;;
  ind <- lift (set_columns ind (columns s1)) ;;
  s2 <- load signal_data_frame ;;
  s2' <- lift (setitem_mask s2 ind (Some 0%Qc)) ;;
  store signal_data_frame s2' ;;;
  reset_points <- lift (setitem_mask reset_points ind (Some 1%Qc)) ;;
  s3 <- load signal_data_frame ;;
  s3' <- lift (setitem_mask s3
                 (df_cmp_scalar cell_eqb reset_points (Some 0%Qc)) NaN) ;;
  store signal_data_frame s3' ;;;
  s4 <- load signal_data_frame ;;
  ret (df_ffill s4).

(** [calculate_diff_returns]: [data_frame - data_frame.shift(period_shift)]. *)
Definition calculate_diff_returns (data_frame : ref) (period_shift : Z)
  : M DataFrame :=
  d <- load data_frame ;;
  lift (df_sub d (df_shift period_shift d)).

(** [cum_sum]: [data_frame.cumsum()]. *)
Definition cum_sum (data_frame : ref) : M DataFrame :=
  d <- load data_frame ;;
  ret (df_cumsum d).

(** [remove_NaN_rows]: [data_frame.dropna()]. *)
Definition remove_NaN_rows (data_frame : ref) : M DataFrame :=
  d <- load data_frame ;;
  ret (dropna d).

(** [join_left_fill_right]: the right frame is laid on the union of the two
    indexes and filled forward, then laid on the index of the left frame. *)
Definition join_left_fill_right (df_left df_right : ref)
  : M (DataFrame * DataFrame) :=
  l <- load df_left ;;
  r <- load df_right ;;
  p <- lift (align_rows_outer l r) ;;
  let df_right := df_ffill (snd p) in
  l' <- load df_left ;;
  lift (align_rows_left l' df_right).

(** [calculate_column_matrix_signal_override]: every column of the signal
    times the override, position by position. *)
Definition calculate_column_matrix_signal_override (override_df signal_df : ref)
  : M DataFrame :=
  s <- load signal_df ;;
  let length_cols := ncols s in
  o <- load override_df ;;
  let override_matrix := flatten o in
  s' <- load signal_df ;;
  lift (column_mul_as override_matrix length_cols s').

(** [_safe_update]: the items of [other] enter [d] one by one; a key that
    is in [d] already stops the update with an exception. *)
Fixpoint _safe_update {V} (d other : dict V) : update_outcome V :=
  match other with
  | [] => Updated d
  | (k, v) :: rest =>
      if dict_has d k then Duplicate_regressor k d
      else _safe_update (dict_set d k v) rest
  end.

End Calculations.

(* ------------------------------------------------------------------ *)
(** ** Decidable sameness of frames and outcomes, for evaluation *)

Section Same.
Variable A : Type.
Variable same : A -> A -> bool.

Fixpoint list_same (l l' : list A) : bool :=
  match l, l' with
  | [], [] => true
  | x :: t, y :: t' => same x y && list_same t t'
  | _, _ => false
  end.
End Same.

Definition cell_same (a b : cell) : bool :=
  match a, b with
  | None, None => true
  | Some x, Some y => Qc_eqb x y
  | _, _ => false
  end.

Definition frame_same (f g : DataFrame) : bool :=
  (if list_eq_dec Z.eq_dec (index f) (index g) then true else false)
  && (if list_eq_dec string_dec (columns f) (columns g) then true else false)
  && list_same (list_same cell_same) (data f) (data g).

Definition outcome_same (a b : outcome DataFrame) : bool :=
  match a, b with
  | Return d h, Return d' h' => frame_same d d' && list_same frame_same h h'
  | Raise e h, Raise e' h' =>
      match e, e' with
      | TypeError, TypeError | ValueError, ValueError
      | AttributeError, AttributeError | KeyError, KeyError
      | IndexError, IndexError | NotModelled, NotModelled => true
      | _, _ => false
      end && list_same frame_same h h'
  | _, _ => false
  end.

(* ------------------------------------------------------------------ *)
(** ** The concrete scenario of the specification *)

Module Scenario.
Definition signal : DataFrame :=
  mkFrame [0; 1; 2; 3; 4; 5]%Z ["asset"%string]
    [[num 0; num 1; num 1; num 1; num 0; num (-1)]].

Definition returns : DataFrame :=
  mkFrame [0; 1; 2; 3; 4; 5]%Z ["asset"%string]
    [[num 0; num (1 # 100); num (2 # 100); num (-1 # 100); num 0;
      num (3 # 100)]].

(** The caller's objects: reference 0 is the signal, reference 1 the
    returns. *)
Definition objects : heap := [signal; returns].

(** What the specification announces. *)
Definition announced_returns : DataFrame :=
  mkFrame [0; 1; 2; 3; 4; 5]%Z ["asset"%string]
    [[NaN; num 0; num (1 # 100); num (2 # 100); num (-1 # 100); num 0]].
Definition announced_trades : Frame string Z :=
  mkFrame ["asset"%string] ["Trades"%string] [[2%Z]].

(** What the code returns. *)
Definition computed_returns : DataFrame :=
  mkFrame [0; 1; 2; 3; 4; 5]%Z ["asset"%string]
    [[NaN; num 0; num (2 # 100); num (-1 # 100); num 0; num 0]].
Definition computed_trades : Frame string Z :=
  mkFrame ["asset"%string] ["Trades"%string] [[3%Z]].
End Scenario.

(* ------------------------------------------------------------------ *)
(** ** Strategy returns, cell by cell *)

(** What [calculate_signal_returns_with_tc] computes at column [j], row [t]
    for a shift of [k] rows: the cost is charged on the change of the signal
    between row [t - k] and row [t]. *)
Definition returns_with_tc_at (s r : DataFrame) (tc : cell) (k j t : nat)
  : cell :=
  cell_sub (cell_mul (cell_at s j (t - k)) (cell_at r j t))
           (cell_mul (cell_abs (cell_sub (cell_at s j (t - k)) (cell_at s j t)))
                     tc).

(** The formula of the specification: the cost is charged on the change of
    the signal between row [t - k - 1] and row [t - k]. *)
Definition announced_with_tc_at (s r : DataFrame) (tc : cell) (k j t : nat)
  : cell :=
  cell_sub (cell_mul (cell_at s j (t - k)) (cell_at r j t))
           (cell_mul (cell_abs (cell_sub (cell_at s j (t - k))
                                         (cell_at s j (t - k - 1))))
                     tc).

Module CostExample.
Definition signal : DataFrame :=
  mkFrame [0; 1; 2]%Z ["asset"%string] [[num 0; num 1; num 1]].
Definition returns : DataFrame :=
  mkFrame [0; 1; 2]%Z ["asset"%string] [[num 0; num 0; num 0]].
Definition objects : heap := [signal; returns].
End CostExample.

(** Two signal tables agree up to row [T]. *)
Definition agree_up_to (T : nat) (s1 s2 : DataFrame) : Prop :=
  forall j t, t <= T -> cell_at s1 j t = cell_at s2 j t.

Module LookAhead.
(** The signal of the scenario with its last row changed. *)
Definition signal' : DataFrame :=
  mkFrame [0; 1; 2; 3; 4; 5]%Z ["asset"%string]
    [[num 0; num 1; num 1; num 1; num 0; num 1]].
Definition objects' : heap := [signal'; Scenario.returns].
End LookAhead.

(* ------------------------------------------------------------------ *)
(** ** Segments *)

(** The size of the trade seen at row [t]: [|signal[t-1] - signal[t-2]|]. *)
Definition reset_size (s : DataFrame) (j t : nat) : cell :=
  cell_abs (cell_sub (cell_at s j (t - 1)) (cell_at s j (t - 2))).

(** Segment ids never go down along a column (over the rows that have
    one). *)
Definition nondecreasing (ids : DataFrame) : Prop :=
  forall j t t' a b,
    t <= t' ->
    cell_at ids j t = Some a -> cell_at ids j t' = Some b -> (a <= b)%Qc.

(** What the code does at a row that follows a row with an id: the id grows
    by the size of the trade. *)
Definition steps_by_size (s ids : DataFrame) : Prop :=
  forall j t a d,
    j < ncols s -> S t < nrows s ->
    cell_at ids j t = Some a -> reset_size s j (S t) = Some d ->
    cell_at ids j (S t) = Some (a + d)%Qc.

(** What the specification announces: the id grows by one at each reset
    point. *)
Definition steps_by_one (s ids : DataFrame) : Prop :=
  forall j t a d,
    j < ncols s -> S t < nrows s ->
    cell_at ids j t = Some a -> reset_size s j (S t) = Some d ->
    d <> 0%Qc ->
    cell_at ids j (S t) = Some (a + 1)%Qc.

Definition nonneg_cell (c : cell) : Prop :=
  forall x, c = Some x -> (0 <= x)%Qc.

Module SegmentExample.
Definition signal : DataFrame :=
  mkFrame [0; 1; 2; 3]%Z ["asset"%string] [[num 0; num 0; num 2; num 2]].
End SegmentExample.

(* ------------------------------------------------------------------ *)
(** ** Compounding index *)

(** The row number of the first value of a column that is not NaN. *)
Fixpoint first_valid_row (l : list cell) : option nat :=
  match l with
  | [] => None
  | Some _ :: _ => Some 0
  | None :: t => option_map S (first_valid_row t)
  end.

Definition has_valid_row (l : list cell) : bool :=
  match first_valid_row l with Some _ => true | None => false end.

(** [100 * (1 + returns).cumprod()] at row [t] of a column of returns. *)
Definition compounded (l : list cell) (t : nat) : cell :=
  cell_mul (Some (Q2Qc 100))
           (nth t (cumprod_col (map (cell_add (Some 1%Qc)) l)) NaN).

(** The write of one turn of the loop of [create_mult_index], on the values
    of the column. *)
Definition mark_first (idx : list Z) (c : list cell) : list cell :=
  match first_valid_index idx c with
  | Some ts =>
      map2 (fun t x => if Z.eq_dec t ts then Some (Q2Qc 100) else x) idx c
  | None => c
  end.

(** What the specification announces for the rows other than the first
    valid one: 100 only where the return is zero. *)
Definition base_only_at_zero_returns (r res : DataFrame) : Prop :=
  forall j t p,
    j < ncols r -> first_valid_row (col r j) = Some p -> t <> p ->
    cell_at res j t = Some (Q2Qc 100) -> cell_at r j t = Some 0%Qc.

Module IndexExample.
Definition returns : DataFrame :=
  mkFrame [0; 1]%Z ["asset"%string] [[num 1; num (-1 # 2)]].
Definition index_built : DataFrame :=
  mkFrame [0; 1]%Z ["asset"%string] [[num 100; num 100]].
End IndexExample.

(* ------------------------------------------------------------------ *)
(** ** Effects on the caller's tables *)

(** The heap an operation leaves behind, whether it returns or raises. *)
Definition final_heap {A} (o : outcome A) : heap :=
  match o with
  | Return _ h => h
  | Raise _ h => h
  end.

(** An operation that writes to no object. *)
Definition read_only {A} (m : M A) : Prop :=
  forall h, final_heap (m h) = h.

(** An operation that writes to no object but, possibly, the one behind
    [r]. *)
Definition writes_only {A} (r : ref) (m : M A) : Prop :=
  forall h r', r' <> r -> nth_error (final_heap (m h)) r' = nth_error h r'.

(** No stop condition is true anywhere. *)
Definition no_flag (ind : BoolFrame) : bool :=
  forallb (forallb negb) (data ind).

(** No cell is missing. *)
Definition no_missing (f : DataFrame) : bool :=
  forallb (forallb notnull) (data f).

Module StopExample.
(** A signal with a missing cell after a position was opened. *)
Definition signal : DataFrame :=
  mkFrame [0; 1]%Z ["asset"%string] [[num 1; NaN]].
Definition cum_rets : DataFrame :=
  mkFrame [0; 1]%Z ["asset"%string] [[num 0; num 0]].
Definition objects : heap := [signal; cum_rets].
Definition filled : DataFrame :=
  mkFrame [0; 1]%Z ["asset"%string] [[num 1; num 1]].
End StopExample.

Module NoTrigger.
(** The flags computed on the scenario with a stop loss of -1 and a take
    profit of 1: none is true. *)
Definition flags : BoolFrame :=
  mkFrame [0; 1; 2; 3; 4; 5]%Z ["asset"%string]
    [[false; false; false; false; false; false]].
End NoTrigger.

(* ------------------------------------------------------------------ *)
(** ** Trade duration *)




(* ------------------------------------------------------------------ *)
(** ** Outer joins of several tables *)

(** Table invariant of the merger: strictly increasing timestamps. *)
Fixpoint increasing (l : list Z) : bool :=
  match l with
  | x :: (y :: _) as t => (x <? y)%Z && increasing t
  | _ => true
  end.

(** The sequential strategy on tables that are all present: a left fold of
    pairwise outer joins. *)
Definition join_step (acc : result DataFrame) (y : DataFrame)
  : result DataFrame :=
  rbind acc (fun a => join_outer a y).

Definition join_fold (x : DataFrame) (xs : list DataFrame) : result DataFrame :=
  fold_left join_step xs (Ok x).

(** One round of the divide-and-conquer strategy, by recursion on the list:
    adjacent tables are joined, an unpaired last table is carried through. *)
Fixpoint pair_up (l : list DataFrame) : result (list DataFrame) :=
  match l with
  | a :: b :: t =>
      rbind (join_outer a b) (fun d =>
      rbind (pair_up t) (fun r => Ok (d :: r)))
  | _ => Ok l
  end.

Definition all_increasing (l : list DataFrame) : Prop :=
  Forall (fun t => increasing (index t) = true) l.

(** The sequential strategy on a list of tables; [reduce] refuses the empty
    list. *)
Definition join_all (l : list DataFrame) : result DataFrame :=
  match l with
  | [] => Err TypeError
  | x :: xs => join_fold x xs
  end.

Module JoinExample.
Definition t1 : DataFrame :=
  mkFrame [1; 3]%Z ["a"%string] [[num 1; num 3]].
Definition t2 : DataFrame :=
  mkFrame [2; 3]%Z ["b"%string] [[num 20; num 30]].
Definition t3 : DataFrame :=
  mkFrame [0; 2]%Z ["c"%string] [[num 100; num 200]].
End JoinExample.

(* ------------------------------------------------------------------ *)
(** ** Definitions for the further properties *)

(** The number of rows of a column at which the value and the next value
    are both present and differ. *)
Fixpoint changes (l : list cell) : nat :=
  match l with
  | [] => 0
  | x :: t =>
      match x, t with
      | Some a, Some b :: _ => (if Qc_eq_dec a b then 0 else 1) + changes t
      | _, _ => changes t
      end
  end.

(** The last lines that the risk-stop methods share, from
    [ind.columns = signal_data_frame.columns] on, for the trade sizes
    [reset_points] and the flags [ind] computed before. *)
Definition overlay_tail (signal_data_frame : ref) (reset_points : DataFrame)
  (ind : BoolFrame) : M DataFrame :=
  (s1 <- load signal_data_frame ;;
   ind <- lift (set_columns ind (columns s1)) ;;
   s2 <- load signal_data_frame ;;
   s2' <- lift (setitem_mask s2 ind (Some 0%Qc)) ;;
   store signal_data_frame s2' ;;;
   reset_points <- lift (setitem_mask reset_points ind (Some 1%Qc)) ;;
   s3 <- load signal_data_frame ;;
   s3' <- lift (setitem_mask s3
                  (df_cmp_scalar cell_eqb reset_points (Some 0%Qc)) NaN) ;;
   store signal_data_frame s3' ;;;
   s4 <- load signal_data_frame ;;
   ret (df_ffill s4))%heap.

(** One column of the signal table as the overlay leaves it in place: 0
    under a flag, NaN where the trade size is zero, the signal elsewhere. *)
Definition overlay_col (c : list cell) (f : list bool) : list cell :=
  map2 (fun x (b : bool) => if b then NaN else x)
    (map2 (fun x (b : bool) => if b then Some 0%Qc else x) c f)
    (map (fun a => cell_eqb a (Some 0%Qc))
       (map2 (fun x (b : bool) => if b then Some 1%Qc else x)
          (map cell_abs (map2 cell_sub c (shift_col NaN 1 c))) f)).

(** The flag at column [j], row [t]. *)
Definition flag_at (ind : BoolFrame) (j t : nat) : bool :=
  nth t (nth j (data ind) []) false.

(** Row [t] repeats the value of the row before. *)
Definition held (s : DataFrame) (j t : nat) : bool :=
  match t with
  | 0 => false
  | S p => cell_eqb (cell_at s j t) (cell_at s j p)
  end.

Module OverlayExample.
(** A long position opened at row 1 and closed at row 4; the take profit
    of 5% is passed at row 2. *)
Definition signal : DataFrame :=
  mkFrame [0; 1; 2; 3; 4]%Z ["asset"%string]
    [[num 0; num 1; num 1; num 1; num 0]].
Definition cum_rets : DataFrame :=
  mkFrame [0; 1; 2; 3; 4]%Z ["asset"%string]
    [[num 0; num (1 # 100); num (6 # 100); num (2 # 100); num 0]].
Definition objects : heap := [signal; cum_rets].
Definition flags : BoolFrame :=
  mkFrame [0; 1; 2; 3; 4]%Z ["asset"%string]
    [[false; false; true; false; false]].
Definition stops : DataFrame :=
  mkFrame [0; 1; 2; 3; 4]%Z ["asset"%string]
    [[num 0; num 0; num (-1); num 0; num 0]].
Definition objects' : heap := [signal; stops].
End OverlayExample.

(** No two tables of the list share a column label. *)
Fixpoint disjoint_columns (l : list DataFrame) : bool :=
  match l with
  | [] => true
  | x :: t =>
      forallb (fun y => negb (overlap string_dec (columns x) (columns y))) t
      && disjoint_columns t
  end.

Module MatrixExample.
(** A signal and returns of one shape under different labels, and returns
    of another shape. *)
Definition signal : DataFrame :=
  mkFrame [0; 1; 2]%Z ["asset"%string] [[num 1; num (-1); num 1]].
Definition returns : DataFrame :=
  mkFrame [10; 11; 12]%Z ["ret"%string]
    [[num (1 # 100); num (2 # 100); num (3 # 100)]].
Definition short_returns : DataFrame :=
  mkFrame [1; 2]%Z ["asset"%string] [[num (2 # 100); num (3 # 100)]].
Definition objects : heap := [signal; returns; short_returns].
End MatrixExample.

(** The last value present in a column among the rows stamped [ts] or
    earlier, [last] when there is none; the timestamps are increasing. *)
Fixpoint as_of (idx : list Z) (c : list cell) (ts : Z) (last : cell) : cell :=
  match idx, c with
  | t :: idx', x :: c' =>
      if (t <=? ts)%Z
      then as_of idx' c' ts (match x with Some _ => x | None => last end)
      else last
  | _, _ => last
  end.


Definition add_present (acc : Qc) (x : cell) : Qc :=
  match x with
  | Some v => (acc + v)%Qc
  | None => acc
  end.



(** Every cell present is of magnitude [b] at most. *)
Definition magnitude_within (b : Qc) (f : DataFrame) : bool :=
  forallb (forallb (fun a => match a with
                             | Some x => negb (Qc_ltb b (Qcabs x))
                             | None => true
                             end)) (data f).

(** The difference of two floats of magnitude [2 ^ 1022] at most is a
    finite float. *)
Definition half_range : Qc := Q2Qc (inject_Z (2 ^ 1022)).

(* ================================================================== *)
(** * Properties *)

Unset Implicit Arguments.

(** ** Sameness reflects equality *)

Lemma list_same_iff (A : Type) (same : A -> A -> bool) :
  (forall x y, same x y = true <-> x = y) ->
  forall l l', list_same same l l' = true <-> l = l'.
Proof.
  intros Hs. induction l as [|x t IH]; destruct l' as [|y t']; simpl;
    try (split; [discriminate | discriminate]); try tauto.
  rewrite andb_true_iff, Hs, IH. split.
  - intros [-> ->]. reflexivity.
  - intros E. injection E as -> ->. auto.
Qed.

Lemma Qc_eqb_iff (x y : Qc) : Qc_eqb x y = true <-> x = y.
Proof.
  unfold Qc_eqb. rewrite Qeq_bool_iff. split.
  - apply Qc_is_canon.
  - intros ->. reflexivity.
Qed.

Lemma cell_same_iff (a b : cell) : cell_same a b = true <-> a = b.
Proof.
  destruct a as [x|], b as [y|]; simpl;
    try (split; [discriminate | discriminate]); try tauto.
  rewrite Qc_eqb_iff. split; [intros ->; reflexivity | intros E; now injection E].
Qed.

Lemma frame_same_iff (f g : DataFrame) : frame_same f g = true <-> f = g.
Proof.
  destruct f as [i c d], g as [i' c' d']. unfold frame_same. simpl.
  rewrite !andb_true_iff.
  rewrite (@list_same_iff _ _ (@list_same_iff _ _ cell_same_iff)).
  destruct (list_eq_dec Z.eq_dec i i'), (list_eq_dec string_dec c c'); split;
    try (intros [[? ?] ?]; subst; reflexivity || discriminate);
    intros E; injection E as -> -> ->; auto; contradiction.
Qed.

Lemma outcome_same_iff (a b : outcome DataFrame) :
  outcome_same a b = true <-> a = b.
Proof.
  destruct a as [d h|e h], b as [d' h'|e' h']; simpl;
    try (split; [discriminate | discriminate]).
  - rewrite andb_true_iff, frame_same_iff, (@list_same_iff _ _ frame_same_iff).
    split; [intros [-> ->]; reflexivity | intros E; injection E as -> ->; auto].
  - rewrite andb_true_iff, (@list_same_iff _ _ frame_same_iff).
    split.
    + intros [He ->]. destruct e, e'; try discriminate; reflexivity.
    + intros E. injection E as -> ->. destruct e'; auto.
Qed.

Lemma outcome_differs (a b : outcome DataFrame) :
  outcome_same a b = false -> a <> b.
Proof.
  intros H E. apply outcome_same_iff in E. congruence.
Qed.

Ltac by_evaluation := apply outcome_same_iff; vm_compute; reflexivity.

Import Calculations.

(* ------------------------------------------------------------------ *)
(** ** The scenario, evaluated *)

(** C3 (as amended).  On signal [0,1,1,1,0,-1] and returns
    [0,0.01,0.02,-0.01,0,0.03], with shift 1, the strategy returns are
    [NaN,0,0.02,-0.01,0,0] (with and without a zero transaction cost) and the
    trade count is 3; the caller's tables are left as they were. *)
Theorem scenario_evaluated :
  calculate_signal_returns 0 1 1%Z Scenario.objects
    = Return Scenario.computed_returns Scenario.objects
  /\ calculate_signal_returns_with_tc 0 1 (num 0) 1%Z Scenario.objects
    = Return Scenario.computed_returns Scenario.objects
  /\ calculate_trade_no 0 Scenario.objects
    = Return Scenario.computed_trades Scenario.objects.
Proof.
  split; [by_evaluation | split; [by_evaluation | vm_compute; reflexivity]].
Qed.

(** C3 as stated does not hold: neither the announced strategy returns
    [NaN,0,0.01,0.02,-0.01,0] nor the announced trade count 2 is what the
    code returns on the scenario. *)
Lemma scenario_as_announced_fails :
  calculate_signal_returns 0 1 1%Z Scenario.objects
    <> Return Scenario.announced_returns Scenario.objects
  /\ calculate_signal_returns_with_tc 0 1 (num 0) 1%Z Scenario.objects
    <> Return Scenario.announced_returns Scenario.objects
  /\ calculate_trade_no 0 Scenario.objects
    <> Return Scenario.announced_trades Scenario.objects.
Proof.
  split; [| split].
  - apply outcome_differs. vm_compute. reflexivity.
  - apply outcome_differs. vm_compute. reflexivity.
  - intros E. vm_compute in E. discriminate E.
Qed.

(* ------------------------------------------------------------------ *)
(** ** Cells of derived frames *)

Lemma lift2_nan_r f a : lift2 f a NaN = NaN.
Proof. destruct a; reflexivity. Qed.

Lemma nth_map_default {A B} (g : A -> B) l t d d' :
  g d = d' -> nth t (map g l) d' = g (nth t l d).
Proof. intros <-. apply map_nth. Qed.

Lemma nth_map_within {A B} (g : A -> B) l j d d' :
  j < List.length l -> nth j (map g l) d' = g (nth j l d).
Proof.
  intros Hj. rewrite (nth_indep _ d' (g d)) by (rewrite length_map; exact Hj).
  apply map_nth.
Qed.

Lemma nth_map_seq {B} (g : nat -> B) n j d :
  j < n -> nth j (map g (seq 0 n)) d = g j.
Proof.
  intros Hj. rewrite (nth_map_within g _ j 0) by (rewrite length_seq; exact Hj).
  rewrite seq_nth by exact Hj. reflexivity.
Qed.

Lemma nth_map2_lift2 f (l l' : list cell) t :
  nth t (map2 (lift2 f) l l') NaN = lift2 f (nth t l NaN) (nth t l' NaN).
Proof.
  revert l' t. induction l as [|a l IH]; intros [|b l'] [|t]; simpl;
    try reflexivity; try (symmetry; apply lift2_nan_r); auto;
    try (destruct (nth t l' NaN); reflexivity).
Qed.

Lemma nth_map2_cols {A B C} (g : A -> B -> C) d d' j :
  nth j (map2 (map2 g) d d') [] = map2 g (nth j d []) (nth j d' []).
Proof.
  revert d' j. induction d as [|a d IH]; intros [|b d'] [|j]; simpl;
    try reflexivity; auto;
    try (destruct (nth j d' []); reflexivity);
    try (destruct a; reflexivity);
    try (destruct (nth j d []); reflexivity).
Qed.

Lemma cell_at_zip f (a b : DataFrame) j t :
  cell_at (frame_zip (lift2 f) a b) j t
  = lift2 f (cell_at a j t) (cell_at b j t).
Proof.
  unfold cell_at, frame_zip. simpl.
  rewrite nth_map2_cols. apply nth_map2_lift2.
Qed.

Lemma col_frame_cols {L A B} (g : list A -> list B) (f : Frame L A) j :
  g [] = [] -> col (frame_cols g f) j = g (col f j).
Proof.
  intros Hg. unfold col, frame_cols. simpl.
  rewrite <- Hg at 1. apply map_nth.
Qed.

Lemma cell_at_map (g : cell -> cell) (f : DataFrame) j t :
  g NaN = NaN -> cell_at (frame_map g f) j t = g (cell_at f j t).
Proof.
  intros Hg. unfold cell_at, frame_map. simpl.
  change (@nil cell) with (map g []). rewrite map_nth.
  rewrite <- Hg at 1. apply map_nth.
Qed.

Lemma nth_shift_col (k : Z) (l : list cell) t :
  (0 <= k)%Z ->
  nth t (shift_col NaN k l) NaN
  = if (t <? Z.to_nat k) || (List.length l <=? t) then NaN
    else nth (t - Z.to_nat k) l NaN.
Proof.
  intros Hk. unfold shift_col.
  destruct (Z.leb_spec 0 k) as [_|]; [|lia].
  rewrite nth_firstn.
  destruct (Nat.ltb_spec t (List.length l)) as [Hlt|Hge].
  - destruct (Nat.leb_spec (List.length l) t) as [|_]; [lia|].
    rewrite orb_false_r.
    destruct (Nat.ltb_spec t (Z.to_nat k)) as [Hs|Hs].
    + rewrite app_nth1 by (rewrite repeat_length; exact Hs).
      apply nth_repeat.
    + rewrite app_nth2 by (rewrite repeat_length; exact Hs).
      rewrite repeat_length. reflexivity.
  - destruct (Nat.leb_spec (List.length l) t) as [_|]; [|lia].
    rewrite orb_true_r. reflexivity.
Qed.

Lemma shift_col_nil {A} (nan : A) k : shift_col nan k [] = [].
Proof.
  unfold shift_col. destruct (0 <=? k)%Z; simpl.
  - reflexivity.
  - rewrite skipn_nil. rewrite Nat.min_0_r. reflexivity.
Qed.

Lemma cell_at_shift (k : Z) (f : DataFrame) j t :
  (0 <= k)%Z ->
  cell_at (df_shift k f) j t
  = if (t <? Z.to_nat k) || (List.length (col f j) <=? t) then NaN
    else cell_at f j (t - Z.to_nat k).
Proof.
  intros Hk. unfold cell_at, df_shift.
  fold (col (frame_cols (shift_col NaN k) f) j).
  rewrite col_frame_cols by apply shift_col_nil.
  apply nth_shift_col, Hk.
Qed.

(** Shape of a well-formed frame. *)
Lemma well_formed_col {L A} (f : Frame L A) j :
  well_formed f = true ->
  List.length (col f j) = if j <? ncols f then nrows f else 0.
Proof.
  unfold well_formed, col. rewrite andb_true_iff, Nat.eqb_eq.
  intros [Hn Hall]. rewrite <- Hn.
  destruct (Nat.ltb_spec j (List.length (data f))) as [Hj|Hj].
  - rewrite forallb_forall in Hall.
    apply Nat.eqb_eq, Hall, nth_In, Hj.
  - rewrite nth_overflow by exact Hj. reflexivity.
Qed.

Lemma same_labels_true {A B} (f : Frame Z A) (g : Frame Z B) :
  same_labels f g = true <-> index f = index g /\ columns f = columns g.
Proof.
  unfold same_labels.
  destruct (list_eq_dec Z.eq_dec (index f) (index g));
    destruct (list_eq_dec string_dec (columns f) (columns g));
    split; try tauto; try discriminate; intros [? ?]; contradiction.
Qed.

Lemma df_arith_same op (a b : DataFrame) :
  same_labels a b = true -> df_arith op a b = Ok (frame_zip op a b).
Proof. unfold df_arith. intros ->. reflexivity. Qed.

Lemma same_labels_refl {A} (f : Frame Z A) : same_labels f f = true.
Proof. apply same_labels_true. auto. Qed.

(* ------------------------------------------------------------------ *)
(** ** Running the methods *)

Lemma bind_load r d (h : heap) {B} (k : DataFrame -> M B) :
  nth_error h r = Some d -> bind (load r) k h = k d h.
Proof. intros H. unfold bind, load. rewrite H. reflexivity. Qed.
Arguments bind_load {r d h B} k _.

Lemma bind_lift_ok {A B} (a : A) (k : A -> M B) h :
  bind (lift (Ok a)) k h = k a h.
Proof. reflexivity. Qed.

Lemma signal_tc_runs signal tc k h s :
  nth_error h signal = Some s ->
  calculate_signal_tc signal tc k h
  = Return (df_scalar cell_mul
              (df_abs (frame_zip cell_sub (df_shift k s) s)) tc) h.
Proof.
  intros Hs. unfold calculate_signal_tc.
  rewrite (bind_load _ Hs).
  unfold df_sub. rewrite df_arith_same by exact (same_labels_refl s).
  reflexivity.
Qed.

Lemma signal_returns_runs signal returns k h s r :
  nth_error h signal = Some s -> nth_error h returns = Some r ->
  same_labels s r = true ->
  calculate_signal_returns signal returns k h
  = Return (frame_zip cell_mul (df_shift k s) r) h.
Proof.
  intros Hs Hr Hl. unfold calculate_signal_returns.
  rewrite (bind_load _ Hs), (bind_load _ Hr).
  unfold df_mul. rewrite df_arith_same by exact Hl.
  reflexivity.
Qed.

Lemma signal_returns_with_tc_runs signal returns tc k h s r :
  nth_error h signal = Some s -> nth_error h returns = Some r ->
  same_labels s r = true ->
  calculate_signal_returns_with_tc signal returns tc k h
  = Return (frame_zip cell_sub
              (frame_zip cell_mul (df_shift k s) r)
              (df_scalar cell_mul
                 (df_abs (frame_zip cell_sub (df_shift k s) s)) tc)) h.
Proof.
  intros Hs Hr Hl. unfold calculate_signal_returns_with_tc.
  unfold bind at 1. rewrite (signal_tc_runs _ tc k _ _ Hs).
  rewrite (bind_load _ Hs), (bind_load _ Hr).
  unfold df_mul. rewrite df_arith_same by exact Hl.
  rewrite bind_lift_ok.
  unfold df_sub.
  rewrite df_arith_same by (apply same_labels_true; split; reflexivity).
  reflexivity.
Qed.

(** The cells of the strategy-return table with costs, at every position. *)
Lemma with_tc_cell k (s r : DataFrame) tc j t :
  cell_at (frame_zip cell_sub
             (frame_zip cell_mul (df_shift k s) r)
             (df_scalar cell_mul
                (df_abs (frame_zip cell_sub (df_shift k s) s)) tc)) j t
  = cell_sub (cell_mul (cell_at (df_shift k s) j t) (cell_at r j t))
      (cell_mul (cell_abs (cell_sub (cell_at (df_shift k s) j t)
                                    (cell_at s j t))) tc).
Proof.
  unfold cell_sub at 1. rewrite cell_at_zip. fold cell_sub.
  unfold cell_mul at 1. rewrite cell_at_zip. fold cell_mul.
  unfold df_scalar. rewrite cell_at_map by reflexivity.
  unfold df_abs. rewrite cell_at_map by reflexivity.
  unfold cell_sub at 2. rewrite cell_at_zip. reflexivity.
Qed.


(* ------------------------------------------------------------------ *)
(** ** Strategy returns with transaction costs *)

(** C2 (as amended).  For a signal table and a returns table with the same
    labels, a shift [k >= 1] and a cost rate [tc], the method returns a table
    whose value at every row [t] with [k <= t] is
    [signal[t-k] * returns[t] - |signal[t-k] - signal[t]| * tc]; the tables of
    the caller are left as they were. *)
Theorem returns_with_tc_formula :
  forall (h : heap) (signal returns : ref) (s r : DataFrame) (tc : cell)
         (k : Z),
    nth_error h signal = Some s ->
    nth_error h returns = Some r ->
    same_labels s r = true ->
    well_formed s = true ->
    (1 <= k)%Z ->
    exists res,
      calculate_signal_returns_with_tc signal returns tc k h = Return res h
      /\ forall j t,
           j < ncols s -> Z.to_nat k <= t < nrows s ->
           cell_at res j t = returns_with_tc_at s r tc (Z.to_nat k) j t.
Proof.
  intros h signal returns s r tc k Hs Hr Hl Hwf Hk.
  eexists. split.
  - apply (signal_returns_with_tc_runs _ _ tc k _ _ _ Hs Hr Hl).
  - intros j t Hj Ht. rewrite with_tc_cell.
    rewrite cell_at_shift by lia.
    rewrite (well_formed_col _ _ Hwf).
    destruct (Nat.ltb_spec j (ncols s)) as [_|]; [|lia].
    destruct (Nat.ltb_spec t (Z.to_nat k)) as [|_]; [lia|].
    destruct (Nat.leb_spec (nrows s) t) as [|_]; [lia|].
    reflexivity.
Qed.

Lemma returns_with_tc_formula_witness :
  exists res,
    calculate_signal_returns_with_tc 0 1 (num 1) 1%Z CostExample.objects
      = Return res CostExample.objects
    /\ forall j t,
         j < ncols CostExample.signal ->
         Z.to_nat 1 <= t < nrows CostExample.signal ->
         cell_at res j t
         = returns_with_tc_at CostExample.signal CostExample.returns
             (num 1) (Z.to_nat 1) j t.
Proof.
  apply (returns_with_tc_formula CostExample.objects 0 1
           CostExample.signal CostExample.returns (num 1) 1%Z);
    [reflexivity | reflexivity | reflexivity | reflexivity | lia].
Defined.

(** C2 as stated does not hold: on signal [0,1,1], null returns, shift 1 and
    a cost rate of 1, the value at row 2 is [0] whereas
    [signal[1] * returns[2] - |signal[1] - signal[0]| * tc] is [-1]. *)
Lemma announced_tc_formula_fails :
  ~ (exists res,
       calculate_signal_returns_with_tc 0 1 (num 1) 1%Z CostExample.objects
         = Return res CostExample.objects
       /\ forall j t,
            j < ncols CostExample.signal ->
            1 + 1 <= t < nrows CostExample.signal ->
            cell_at res j t
            = announced_with_tc_at CostExample.signal CostExample.returns
                (num 1) 1 j t).
Proof.
  intros [res [Hrun Hall]].
  rewrite (signal_returns_with_tc_runs 0 1 (num 1) 1%Z CostExample.objects
             CostExample.signal CostExample.returns) in Hrun;
    [| reflexivity | reflexivity | reflexivity].
  injection Hrun as <-.
  specialize (Hall 0 2).
  assert (E : cell_same
            (cell_at (frame_zip cell_sub
               (frame_zip cell_mul (df_shift 1 CostExample.signal)
                  CostExample.returns)
               (df_scalar cell_mul
                  (df_abs (frame_zip cell_sub (df_shift 1 CostExample.signal)
                             CostExample.signal)) (num 1))) 0 2)
            (announced_with_tc_at CostExample.signal CostExample.returns
               (num 1) 1 0 2) = false) by (vm_compute; reflexivity).
  rewrite Hall in E.
  - assert (T := proj2 (cell_same_iff
       (announced_with_tc_at CostExample.signal CostExample.returns
          (num 1) 1 0 2) _) eq_refl).
    congruence.
  - vm_compute. lia.
  - vm_compute. lia.
Qed.

(* ------------------------------------------------------------------ *)
(** ** No look-ahead *)

Lemma shifted_cell_agrees k T (s1 s2 : DataFrame) j t :
  (0 <= k)%Z ->
  same_labels s1 s2 = true ->
  well_formed s1 = true -> well_formed s2 = true ->
  agree_up_to T s1 s2 -> t <= T ->
  cell_at (df_shift k s1) j t = cell_at (df_shift k s2) j t.
Proof.
  intros Hk Hl W1 W2 Ha Ht.
  apply same_labels_true in Hl. destruct Hl as [Hi Hc].
  rewrite !cell_at_shift by exact Hk.
  rewrite (well_formed_col _ _ W1), (well_formed_col _ _ W2).
  unfold ncols, nrows. rewrite Hi, Hc.
  destruct (_ || _); [reflexivity|].
  apply Ha. lia.
Qed.

(** C8.  For a shift [k >= 1] and two signal tables that agree on all rows
    [t <= T] (each with the labels of the returns table), the strategy
    returns, with and without transaction costs, agree on all rows
    [t <= T]. *)
Theorem no_look_ahead :
  forall (h1 h2 : heap) (signal returns : ref) (s1 s2 r : DataFrame)
         (tc : cell) (k : Z) (T : nat),
    nth_error h1 signal = Some s1 -> nth_error h1 returns = Some r ->
    nth_error h2 signal = Some s2 -> nth_error h2 returns = Some r ->
    same_labels s1 r = true -> same_labels s2 r = true ->
    well_formed s1 = true -> well_formed s2 = true ->
    (1 <= k)%Z ->
    agree_up_to T s1 s2 ->
    exists a1 a2 b1 b2,
      calculate_signal_returns signal returns k h1 = Return a1 h1
      /\ calculate_signal_returns signal returns k h2 = Return a2 h2
      /\ calculate_signal_returns_with_tc signal returns tc k h1 = Return b1 h1
      /\ calculate_signal_returns_with_tc signal returns tc k h2 = Return b2 h2
      /\ agree_up_to T a1 a2
      /\ agree_up_to T b1 b2.
Proof.
  intros h1 h2 signal returns s1 s2 r tc k T Hs1 Hr1 Hs2 Hr2 L1 L2 W1 W2 Hk Ha.
  assert (L12 : same_labels s1 s2 = true).
  { apply same_labels_true in L1. apply same_labels_true in L2.
    apply same_labels_true. destruct L1 as [-> ->], L2 as [-> ->]. auto. }
  do 4 eexists.
  split; [apply (signal_returns_runs _ _ k _ _ _ Hs1 Hr1 L1)|].
  split; [apply (signal_returns_runs _ _ k _ _ _ Hs2 Hr2 L2)|].
  split; [apply (signal_returns_with_tc_runs _ _ tc k _ _ _ Hs1 Hr1 L1)|].
  split; [apply (signal_returns_with_tc_runs _ _ tc k _ _ _ Hs2 Hr2 L2)|].
  split; intros j t Ht.
  - unfold cell_mul. rewrite !cell_at_zip.
    rewrite (shifted_cell_agrees k T s1 s2 j t) by (lia || assumption).
    reflexivity.
  - rewrite !with_tc_cell.
    rewrite (shifted_cell_agrees k T s1 s2 j t) by (lia || assumption).
    rewrite (Ha j t Ht). reflexivity.
Qed.

Lemma no_look_ahead_witness :
  exists a1 a2 b1 b2,
    calculate_signal_returns 0 1 1%Z Scenario.objects
      = Return a1 Scenario.objects
    /\ calculate_signal_returns 0 1 1%Z LookAhead.objects'
      = Return a2 LookAhead.objects'
    /\ calculate_signal_returns_with_tc 0 1 (num (1 # 1000)) 1%Z
         Scenario.objects = Return b1 Scenario.objects
    /\ calculate_signal_returns_with_tc 0 1 (num (1 # 1000)) 1%Z
         LookAhead.objects' = Return b2 LookAhead.objects'
    /\ agree_up_to 4 a1 a2
    /\ agree_up_to 4 b1 b2.
Proof.
  apply (no_look_ahead Scenario.objects LookAhead.objects' 0 1
           Scenario.signal LookAhead.signal' Scenario.returns
           (num (1 # 1000)) 1%Z 4);
    try reflexivity; try lia.
  intros j t Ht.
  destruct j as [|j].
  - do 5 (destruct t as [|t]; [reflexivity|]). lia.
  - destruct j; destruct t; reflexivity.
Defined.

(* ------------------------------------------------------------------ *)
(** ** Segment ids *)

Lemma cum_from_defined f acc l t a :
  nth t (cum_from f acc l) NaN = Some a -> exists x, nth t l NaN = Some x.
Proof.
  revert acc t. induction l as [|[x|] l IH]; intros acc [|t]; simpl;
    try discriminate; eauto.
Qed.

Lemma cum_from_step f acc l t a d :
  nth t (cum_from f acc l) NaN = Some a ->
  nth (S t) l NaN = Some d ->
  nth (S t) (cum_from f acc l) NaN = Some (f a d).
Proof.
  revert acc t. induction l as [|[x|] l IH]; intros acc [|t]; simpl;
    try discriminate.
  - intros E. injection E as <-. destruct l as [|[y|] l]; simpl;
      try discriminate. intros E. injection E as <-. reflexivity.
  - apply IH.
  - apply IH.
Qed.

Lemma Qcle_plus_nonneg (a x : Qc) : (0 <= x)%Qc -> (a <= a + x)%Qc.
Proof.
  intros H. rewrite <- (Qcplus_0_r a) at 1.
  apply Qcplus_le_compat; [apply Qcle_refl | exact H].
Qed.

Lemma cumsum_above acc l t a :
  Forall nonneg_cell l ->
  nth t (cum_from Qcplus acc l) NaN = Some a -> (acc <= a)%Qc.
Proof.
  intros Hl. revert acc t. induction Hl as [|c l Hc Hl IH]; intros acc t.
  - destruct t; discriminate.
  - destruct c as [x|]; destruct t as [|t]; simpl; try discriminate.
    + intros E. injection E as <-. apply Qcle_plus_nonneg, Hc. reflexivity.
    + intros E. apply Qcle_trans with (acc + x)%Qc.
      * apply Qcle_plus_nonneg, Hc. reflexivity.
      * apply (IH _ _ E).
    + apply IH.
Qed.

Lemma cumsum_monotone acc l t t' a b :
  Forall nonneg_cell l ->
  t <= t' ->
  nth t (cum_from Qcplus acc l) NaN = Some a ->
  nth t' (cum_from Qcplus acc l) NaN = Some b ->
  (a <= b)%Qc.
Proof.
  intros Hl. revert acc t t'.
  induction Hl as [|c l Hc Hl IH]; intros acc t t' Ht.
  - destruct t; discriminate.
  - destruct c as [x|]; destruct t as [|t]; destruct t' as [|t']; simpl;
      try discriminate; try lia.
    + intros E1 E2. rewrite E1 in E2. injection E2 as <-. apply Qcle_refl.
    + intros E1 E2. injection E1 as <-.
      apply (cumsum_above _ _ _ _ Hl E2).
    + apply IH. lia.
    + apply IH. lia.
Qed.

Lemma col_frame_map {L A B} (g : A -> B) (f : Frame L A) j :
  col (frame_map g f) j = map g (col f j).
Proof.
  unfold col, frame_map. simpl.
  change (@nil B) with (map g []). apply map_nth.
Qed.

Lemma abs_col_nonneg (l : list cell) : Forall nonneg_cell (map cell_abs l).
Proof.
  induction l as [|c l IH]; constructor; [|exact IH].
  intros x E. destruct c as [y|]; [|discriminate].
  injection E as <-. apply Qcabs_nonneg.
Qed.

Lemma length_shift_col {A} (nan : A) k l :
  List.length (shift_col nan k l) = List.length l.
Proof.
  unfold shift_col. destruct (0 <=? k)%Z.
  - rewrite length_firstn, length_app, repeat_length. lia.
  - rewrite length_app, length_skipn, repeat_length. lia.
Qed.

Lemma reset_points_runs (s : DataFrame) :
  reset_points s
  = Ok (df_cumsum (df_abs (frame_zip cell_sub (df_shift 1 s)
                             (df_shift 1 (df_shift 1 s))))).
Proof.
  unfold reset_points, df_sub.
  rewrite df_arith_same by (apply same_labels_true; split; reflexivity).
  reflexivity.
Qed.

(** The trade sizes before the running sum. *)
Lemma trade_size_cell (s : DataFrame) j t :
  1 <= t -> S t < List.length (col s j) ->
  cell_at (df_abs (frame_zip cell_sub (df_shift 1 s)
                     (df_shift 1 (df_shift 1 s)))) j (S t)
  = reset_size s j (S t).
Proof.
  intros H1 H2. unfold df_abs. rewrite cell_at_map by reflexivity.
  unfold cell_sub at 1. rewrite cell_at_zip.
  rewrite (cell_at_shift 1 (df_shift 1 s)) by lia.
  unfold df_shift at 2. rewrite col_frame_cols by apply shift_col_nil.
  rewrite length_shift_col.
  rewrite !cell_at_shift by lia.
  change (Z.to_nat 1) with 1.
  destruct (Nat.ltb_spec (S t) 1) as [|_]; [lia|].
  destruct (Nat.leb_spec (List.length (col s j)) (S t)) as [|_]; [lia|].
  destruct (Nat.ltb_spec (S t - 1) 1) as [|_]; [lia|].
  destruct (Nat.leb_spec (List.length (col s j)) (S t - 1)) as [|_]; [lia|].
  unfold reset_size, cell_sub.
  replace (S t - 1 - 1) with (S t - 2) by lia. reflexivity.
Qed.

Lemma trade_size_early (s : DataFrame) j :
  cell_at (df_abs (frame_zip cell_sub (df_shift 1 s)
                     (df_shift 1 (df_shift 1 s)))) j 0 = NaN.
Proof.
  unfold df_abs. rewrite cell_at_map by reflexivity.
  unfold cell_sub at 1. rewrite cell_at_zip.
  rewrite (cell_at_shift 1 s) by lia. reflexivity.
Qed.

(** C4 (as amended).  The segment ids are non-decreasing along every
    column, and at a row that follows a row with an id, the id grows by
    exactly [|signal[t-1] - signal[t-2]|]: by 1 only where the signal moved
    by one unit. *)
Theorem segment_ids_monotone :
  forall s : DataFrame,
    well_formed s = true ->
    exists ids,
      reset_points s = Ok ids
      /\ nondecreasing ids
      /\ steps_by_size s ids.
Proof.
  intros s Hwf. eexists. split; [apply reset_points_runs|]. split.
  - intros j t t' a b Ht. unfold cell_at. fold (col
      (df_cumsum (df_abs (frame_zip cell_sub (df_shift 1 s)
                            (df_shift 1 (df_shift 1 s))))) j).
    unfold df_cumsum. rewrite col_frame_cols by reflexivity.
    unfold df_abs. rewrite col_frame_map.
    apply cumsum_monotone; [apply abs_col_nonneg | exact Ht].
  - intros j t a d Hj Ht Ha Hd.
    assert (Hlen : List.length (col s j) = nrows s).
    { rewrite (well_formed_col _ _ Hwf).
      destruct (Nat.ltb_spec j (ncols s)); [reflexivity | lia]. }
    assert (H1 : 1 <= t).
    { destruct t as [|t]; [|lia]. exfalso.
      unfold cell_at in Ha. fold (col
        (df_cumsum (df_abs (frame_zip cell_sub (df_shift 1 s)
                              (df_shift 1 (df_shift 1 s))))) j) in Ha.
      unfold df_cumsum in Ha. rewrite col_frame_cols in Ha by reflexivity.
      apply cum_from_defined in Ha. destruct Ha as [x Hx].
      pose proof (trade_size_early s j) as E. unfold cell_at in E.
      unfold col in Hx. rewrite E in Hx. discriminate. }
    rewrite <- (trade_size_cell s j t H1) in Hd by lia.
    revert Ha Hd. unfold cell_at. fold (col
      (df_cumsum (df_abs (frame_zip cell_sub (df_shift 1 s)
                            (df_shift 1 (df_shift 1 s))))) j).
    unfold df_cumsum. rewrite col_frame_cols by reflexivity.
    fold (col (df_abs (frame_zip cell_sub (df_shift 1 s)
                         (df_shift 1 (df_shift 1 s)))) j).
    apply cum_from_step.
Qed.

Lemma segment_ids_monotone_witness :
  exists ids,
    reset_points SegmentExample.signal = Ok ids
    /\ nondecreasing ids
    /\ steps_by_size SegmentExample.signal ids.
Proof.
  apply (segment_ids_monotone SegmentExample.signal). reflexivity.
Defined.

(** C4 as stated does not hold: on signal [0,0,2,2] the ids are
    [NaN,NaN,0,2]; row 3 is a reset point and the id grows there by 2. *)
Lemma segment_step_of_one_fails :
  ~ (exists ids,
       reset_points SegmentExample.signal = Ok ids
       /\ nondecreasing ids
       /\ steps_by_one SegmentExample.signal ids).
Proof.
  intros [ids [Hrun [_ Hstep]]].
  rewrite reset_points_runs in Hrun. injection Hrun as <-.
  specialize (Hstep 0 2 (Q2Qc 0) (Q2Qc 2)).
  assert (E : cell_same
            (cell_at (df_cumsum (df_abs (frame_zip cell_sub
                        (df_shift 1 SegmentExample.signal)
                        (df_shift 1 (df_shift 1 SegmentExample.signal)))))
                     0 3)
            (Some (Q2Qc 0 + 1)%Qc) = false) by (vm_compute; reflexivity).
  rewrite Hstep in E.
  - rewrite (proj2 (cell_same_iff _ _) eq_refl) in E. discriminate.
  - vm_compute. lia.
  - vm_compute. lia.
  - apply cell_same_iff. vm_compute. reflexivity.
  - apply cell_same_iff. vm_compute. reflexivity.
  - intros E0. apply Qc_eqb_iff in E0. vm_compute in E0. discriminate.
Qed.

(* ------------------------------------------------------------------ *)
(** ** Compounding index *)

Lemma mem_In {K} (eq_dec : forall x y : K, {x = y} + {x <> y}) k l :
  mem eq_dec k l = true <-> In k l.
Proof.
  induction l as [|x l IH]; simpl.
  - split; [discriminate | tauto].
  - destruct (eq_dec k x) as [->|N].
    + split; auto.
    + rewrite IH. split; [auto | intros [E|H]; [congruence | exact H]].
Qed.

Lemma has_dup_NoDup {K} (eq_dec : forall x y : K, {x = y} + {x <> y}) l :
  has_dup eq_dec l = false <-> NoDup l.
Proof.
  induction l as [|x l IH]; simpl.
  - split; [constructor | reflexivity].
  - rewrite orb_false_iff, IH. split.
    + intros [Hm Hn]. constructor; [|exact Hn].
      rewrite <- (mem_In eq_dec). congruence.
    + intros Hn. inversion Hn as [|? ? Hnot Hn']; subst. split; [|exact Hn'].
      destruct (mem eq_dec x l) eqn:E; [|reflexivity].
      apply mem_In in E. contradiction.
Qed.

Lemma find_pos_middle {K} (eq_dec : forall x y : K, {x = y} + {x <> y})
  k pre rest :
  ~ In k pre -> find_pos eq_dec k (pre ++ k :: rest) = Some (List.length pre).
Proof.
  induction pre as [|x pre IH]; simpl; intros Hn.
  - destruct (eq_dec k k); [reflexivity | contradiction].
  - destruct (eq_dec k x) as [->|_]; [tauto|].
    rewrite IH by tauto. reflexivity.
Qed.

Lemma map2_app {A B C} (g : A -> B -> C) l1 l2 m1 m2 :
  List.length l1 = List.length m1 ->
  map2 g (l1 ++ l2) (m1 ++ m2) = map2 g l1 m1 ++ map2 g l2 m2.
Proof.
  revert m1. induction l1 as [|a l1 IH]; intros [|b m1] E; simpl in *;
    try discriminate; [reflexivity|].
  rewrite IH by lia. reflexivity.
Qed.

Lemma map2_unchanged {A B} (g : A -> B -> B) l m :
  List.length l = List.length m ->
  (forall a b, In a l -> g a b = b) -> map2 g l m = m.
Proof.
  revert m. induction l as [|a l IH]; intros [|b m] E H; simpl in *;
    try discriminate; [reflexivity|].
  rewrite H by auto. rewrite IH; [reflexivity | lia | auto].
Qed.

Lemma mult_index_step_runs idx pre c rest dpre d drest ts :
  List.length dpre = List.length pre ->
  List.length drest = List.length rest ->
  ~ In c pre -> ~ In c rest ->
  first_valid_index idx d = Some ts ->
  mult_index_step (mkFrame idx (pre ++ c :: rest) (dpre ++ d :: drest)) c
  = Ok (mkFrame idx (pre ++ c :: rest)
          (dpre ++ mark_first idx d :: drest)).
Proof.
  intros L1 L2 N1 N2 Hts. unfold mult_index_step, getitem. simpl.
  rewrite find_pos_middle by exact N1.
  rewrite <- L1, nth_middle. simpl. rewrite Hts.
  unfold loc_set. simpl. f_equal. f_equal.
  rewrite map2_app by (symmetry; exact L1). simpl.
  destruct (string_dec c c) as [_|]; [|contradiction].
  unfold mark_first. rewrite Hts.
  rewrite (map2_unchanged _ pre dpre);
    [rewrite (map2_unchanged _ rest drest);
       [reflexivity | symmetry; exact L2 | ]
    | symmetry; exact L1 | ];
    intros a b Ha; destruct (string_dec a c) as [->|];
    [contradiction | reflexivity | contradiction | reflexivity].
Qed.

Lemma mult_index_loop idx rest :
  forall pre dpre drest,
    List.length dpre = List.length pre ->
    List.length drest = List.length rest ->
    NoDup (pre ++ rest) ->
    Forall (fun d => first_valid_index idx d <> None) drest ->
    for_each rest mult_index_step (mkFrame idx (pre ++ rest) (dpre ++ drest))
    = Ok (mkFrame idx (pre ++ rest) (dpre ++ map (mark_first idx) drest)).
Proof.
  induction rest as [|c rest IH]; intros pre dpre drest L1 L2 Hnd Hv.
  - destruct drest; [reflexivity | discriminate].
  - destruct drest as [|d drest]; [discriminate|].
    inversion Hv as [|? ? Hd Hv']; subst.
    destruct (first_valid_index idx d) as [ts|] eqn:Hts; [|contradiction].
    unfold for_each. simpl.
    rewrite (mult_index_step_runs idx pre c rest dpre d drest ts); auto.
    + change (fold_left _ rest (Ok ?f)) with (for_each rest mult_index_step f).
      replace (pre ++ c :: rest) with ((pre ++ [c]) ++ rest)
        by (rewrite <- app_assoc; reflexivity).
      replace (dpre ++ mark_first idx d :: drest)
        with ((dpre ++ [mark_first idx d]) ++ drest)
        by (rewrite <- app_assoc; reflexivity).
      rewrite IH.
      * rewrite <- !app_assoc. reflexivity.
      * rewrite !length_app. simpl. f_equal. exact L1.
      * injection L2 as L2. exact L2.
      * rewrite <- app_assoc. exact Hnd.
      * exact Hv'.
    + apply NoDup_remove_2 in Hnd. intros H. apply Hnd, in_or_app. auto.
    + apply NoDup_remove_2 in Hnd. intros H. apply Hnd, in_or_app. auto.
Qed.

Lemma first_valid_row_map (g : cell -> cell) l :
  g None = None -> (forall x, g (Some x) <> None) ->
  first_valid_row (map g l) = first_valid_row l.
Proof.
  intros Hn Hs. induction l as [|[x|] l IH]; simpl.
  - reflexivity.
  - destruct (g (Some x)) eqn:E; [reflexivity | apply Hs in E; contradiction].
  - rewrite Hn, IH. reflexivity.
Qed.

Lemma first_valid_row_cum f acc l :
  first_valid_row (cum_from f acc l) = first_valid_row l.
Proof.
  revert acc. induction l as [|[x|] l IH]; intros acc; simpl;
    try reflexivity. rewrite IH. reflexivity.
Qed.

Lemma first_valid_row_lt l p :
  first_valid_row l = Some p -> p < List.length l.
Proof.
  revert p. induction l as [|[x|] l IH]; intros p; simpl.
  - discriminate.
  - intros E. injection E as <-. lia.
  - destruct (first_valid_row l) as [q|]; [|discriminate].
    intros E. injection E as <-. specialize (IH q eq_refl). lia.
Qed.

Lemma first_valid_index_row idx l p :
  List.length idx = List.length l ->
  first_valid_row l = Some p ->
  first_valid_index idx l = Some (nth p idx 0%Z).
Proof.
  revert idx p. induction l as [|[x|] l IH]; intros [|ts idx] p; simpl;
    try discriminate.
  - intros _ E. injection E as <-. reflexivity.
  - intros L. destruct (first_valid_row l) as [q|] eqn:E; [|discriminate].
    intros Ep. injection Ep as <-. apply IH; [lia | reflexivity].
Qed.

Lemma nth_mark idx (c : list cell) p t v :
  NoDup idx -> List.length idx = List.length c -> p < List.length idx ->
  nth t (map2 (fun t' x => if Z.eq_dec t' (nth p idx 0%Z) then v else x)
              idx c) NaN
  = if t =? p then v else nth t c NaN.
Proof.
  revert c p t. induction idx as [|ts idx IH]; intros [|x c] p t Hnd L Hp;
    simpl in *; try discriminate; try lia.
  inversion Hnd as [|? ? Hnot Hnd']; subst.
  destruct p as [|p]; destruct t as [|t]; simpl.
  - destruct (Z.eq_dec ts ts); [reflexivity | contradiction].
  - rewrite map2_unchanged; [reflexivity | lia |].
    intros a b Ha. destruct (Z.eq_dec a ts) as [->|_];
      [contradiction | reflexivity].
  - destruct (Z.eq_dec ts (nth p idx 0%Z)) as [E|_]; [|reflexivity].
    exfalso. apply Hnot. rewrite E. apply nth_In. lia.
  - apply IH; [exact Hnd' | lia | lia].
Qed.

Lemma mark_first_nil idx : mark_first idx [] = [].
Proof. unfold mark_first. destruct idx; reflexivity. Qed.

Lemma create_mult_index_runs h df_rets r :
  nth_error h df_rets = Some r ->
  well_formed r = true ->
  has_dup string_dec (columns r) = false ->
  forallb has_valid_row (data r) = true ->
  create_mult_index df_rets h
  = Return (mkFrame (index r) (columns r)
              (map (fun c => mark_first (index r)
                      (map (cell_mul (Some (Q2Qc 100)))
                         (cumprod_col (map (cell_add (Some 1%Qc)) c))))
                   (data r))) h.
Proof.
  intros Hr Hwf Hc Hv. unfold create_mult_index.
  rewrite (bind_load _ Hr).
  unfold df_cumprod, frame_cols, frame_map. simpl.
  pose proof (mult_index_loop (index r) (columns r) [] []
    (map (map (fun a => cell_mul (Some (Q2Qc 100)) a))
       (map cumprod_col
          (map (map (fun a => cell_add (Some 1%Qc) a)) (data r))))) as L.
  simpl in L. rewrite L; clear L.
  - rewrite !map_map. reflexivity.
  - reflexivity.
  - rewrite !length_map. unfold well_formed in Hwf.
    apply andb_true_iff in Hwf. destruct Hwf as [Hn _].
    apply Nat.eqb_eq in Hn. exact Hn.
  - apply has_dup_NoDup in Hc. exact Hc.
  - rewrite !map_map. apply Forall_map, Forall_forall. intros c Hin.
    unfold well_formed in Hwf. apply andb_true_iff in Hwf.
    destruct Hwf as [_ Hall]. rewrite forallb_forall in Hall, Hv.
    specialize (Hall c Hin). specialize (Hv c Hin).
    apply Nat.eqb_eq in Hall. unfold has_valid_row in Hv.
    destruct (first_valid_row c) as [p|] eqn:Ep; [|discriminate].
    rewrite (first_valid_index_row _ _ p); [discriminate | |].
    + rewrite length_map. unfold cumprod_col.
      assert (Hlen : forall f acc l,
                 List.length (cum_from f acc l) = List.length l).
      { intros f acc l. revert acc. induction l as [|[x|] l IH]; intros acc;
          simpl; auto. }
      rewrite Hlen, length_map. symmetry. exact Hall.
    + rewrite first_valid_row_map by (reflexivity || discriminate).
      unfold cumprod_col. rewrite first_valid_row_cum.
      rewrite first_valid_row_map by (reflexivity || discriminate).
      exact Ep.
Qed.

(** C6 (as amended).  For a returns table with unique labels in which every
    column has a non-missing row, the index is exactly 100 at the first
    non-missing row of each column; at every other row it is
    [100 * prod (1 + returns)] over the rows up to there (the first one
    included), so that it is 100 again wherever that product is 1. *)
Theorem mult_index_base :
  forall (h : heap) (df_rets : ref) (r : DataFrame),
    nth_error h df_rets = Some r ->
    well_formed r = true ->
    has_dup Z.eq_dec (index r) = false ->
    has_dup string_dec (columns r) = false ->
    forallb has_valid_row (data r) = true ->
    exists res,
      create_mult_index df_rets h = Return res h
      /\ forall j p,
           j < ncols r -> first_valid_row (col r j) = Some p ->
           cell_at res j p = Some (Q2Qc 100)
           /\ forall t, t <> p -> cell_at res j t = compounded (col r j) t.
Proof.
  intros h df_rets r Hr Hwf Hi Hc Hv.
  eexists. split; [apply (create_mult_index_runs _ _ _ Hr Hwf Hc Hv)|].
  intros j p Hj Hp.
  assert (Hlen : List.length (col r j) = nrows r).
  { rewrite (well_formed_col _ _ Hwf).
    destruct (Nat.ltb_spec j (ncols r)); [reflexivity | lia]. }
  assert (Hcum : forall f acc l,
             List.length (cum_from f acc l) = List.length l).
  { intros f acc l. revert acc. induction l as [|[x|] l IH]; intros acc;
      simpl; auto. }
  assert (Hcell : forall t,
    cell_at (mkFrame (index r) (columns r)
               (map (fun c => mark_first (index r)
                       (map (cell_mul (Some (Q2Qc 100)))
                          (cumprod_col (map (cell_add (Some 1%Qc)) c))))
                    (data r))) j t
    = if t =? p then Some (Q2Qc 100) else compounded (col r j) t).
  { intros t. unfold cell_at. simpl.
    rewrite <- (mark_first_nil (index r)) at 1.
    change (mark_first (index r) [])
      with ((fun c => mark_first (index r)
               (map (cell_mul (Some (Q2Qc 100)))
                  (cumprod_col (map (cell_add (Some 1%Qc)) c)))) []).
    rewrite map_nth. fold (col r j).
    unfold mark_first.
    rewrite (first_valid_index_row _ _ p).
    - rewrite nth_mark.
      + destruct (t =? p); [reflexivity|]. unfold compounded.
        change NaN with (cell_mul (Some (Q2Qc 100)) NaN) at 1.
        apply map_nth.
      + apply has_dup_NoDup in Hi. exact Hi.
      + rewrite length_map. unfold cumprod_col.
        rewrite Hcum, length_map. symmetry. exact Hlen.
      + apply first_valid_row_lt in Hp. unfold nrows in Hlen. lia.
    - rewrite length_map. unfold cumprod_col.
      rewrite Hcum, length_map. symmetry. exact Hlen.
    - rewrite first_valid_row_map by (reflexivity || discriminate).
      unfold cumprod_col. rewrite first_valid_row_cum.
      rewrite first_valid_row_map by (reflexivity || discriminate).
      exact Hp. }
  split.
  - rewrite Hcell, Nat.eqb_refl. reflexivity.
  - intros t Ht. rewrite Hcell.
    destruct (Nat.eqb_spec t p); [contradiction | reflexivity].
Qed.

Lemma mult_index_base_witness :
  exists res,
    create_mult_index 0 [IndexExample.returns]
      = Return res [IndexExample.returns]
    /\ forall j p,
         j < ncols IndexExample.returns ->
         first_valid_row (col IndexExample.returns j) = Some p ->
         cell_at res j p = Some (Q2Qc 100)
         /\ forall t, t <> p ->
              cell_at res j t = compounded (col IndexExample.returns j) t.
Proof.
  apply (mult_index_base [IndexExample.returns] 0 IndexExample.returns);
    reflexivity.
Defined.

(** C6 as stated does not hold: on returns [1, -1/2] the index is
    [100, 100]; row 1 is not the first non-missing row, the index is 100
    there and the return there is not zero. *)
Lemma base_elsewhere_without_zero_return :
  ~ (exists res,
       create_mult_index 0 [IndexExample.returns]
         = Return res [IndexExample.returns]
       /\ base_only_at_zero_returns IndexExample.returns res).
Proof.
  intros [res [Hrun Hbase]].
  assert (E : create_mult_index 0 [IndexExample.returns]
              = Return IndexExample.index_built [IndexExample.returns])
    by by_evaluation.
  rewrite E in Hrun. injection Hrun as <-.
  specialize (Hbase 0 1 0).
  assert (F : cell_at IndexExample.returns 0 1 = Some 0%Qc).
  { apply Hbase.
    - vm_compute. lia.
    - reflexivity.
    - discriminate.
    - reflexivity. }
  apply cell_same_iff in F. vm_compute in F. discriminate.
Qed.

(* ------------------------------------------------------------------ *)
(** ** Which tables an operation writes to *)

Lemma read_only_ret {A} (a : A) : read_only (ret a).
Proof. intros h. reflexivity. Qed.

Lemma read_only_lift {A} (r : result A) : read_only (lift r).
Proof. intros h. destruct r; reflexivity. Qed.

Lemma read_only_load r : read_only (load r).
Proof. intros h. unfold load. destruct (nth_error h r); reflexivity. Qed.

Lemma read_only_bind {A B} (m : M A) (k : A -> M B) :
  read_only m -> (forall a, read_only (k a)) -> read_only (bind m k).
Proof.
  intros Hm Hk h. unfold bind. specialize (Hm h).
  destruct (m h) as [a h'|e h']; simpl in Hm; subst h'.
  - apply Hk.
  - reflexivity.
Qed.

Lemma read_only_compare_level cmp f lvl : read_only (compare_level cmp f lvl).
Proof.
  destruct lvl as [x|r]; simpl.
  - apply read_only_ret.
  - apply read_only_bind; [apply read_only_load|].
    intros g. apply read_only_lift.
Qed.

Lemma read_only_writes_only {A} r (m : M A) : read_only m -> writes_only r m.
Proof. intros H h r' _. rewrite H. reflexivity. Qed.

Lemma nth_error_update_other r d h r' :
  r' <> r -> nth_error (update r d h) r' = nth_error h r'.
Proof.
  revert r r'. induction h as [|x h IH]; intros [|r] [|r'] N; simpl;
    try reflexivity; try contradiction.
  apply IH. congruence.
Qed.

Lemma nth_error_update_same r d h x :
  nth_error h r = Some x -> nth_error (update r d h) r = Some d.
Proof.
  revert r. induction h as [|y h IH]; intros [|r]; simpl; try discriminate.
  - reflexivity.
  - apply IH.
Qed.

Lemma update_unchanged r d h :
  nth_error h r = Some d -> update r d h = h.
Proof.
  revert r. induction h as [|y h IH]; intros [|r]; simpl; try discriminate.
  - intros E. injection E as ->. reflexivity.
  - intros E. rewrite IH by exact E. reflexivity.
Qed.

Lemma writes_only_store r d : writes_only r (store r d).
Proof.
  intros h r' N. unfold store.
  destruct (nth_error h r); simpl; [|reflexivity].
  apply nth_error_update_other, N.
Qed.

Lemma writes_only_bind {A B} r (m : M A) (k : A -> M B) :
  writes_only r m -> (forall a, writes_only r (k a)) ->
  writes_only r (bind m k).
Proof.
  intros Hm Hk h r' N. unfold bind. specialize (Hm h r' N).
  destruct (m h) as [a h'|e h']; simpl in Hm.
  - rewrite Hk by exact N. exact Hm.
  - exact Hm.
Qed.

Ltac frame_step :=
  first
    [ apply read_only_ret
    | apply read_only_lift
    | apply read_only_load
    | apply read_only_compare_level
    | apply read_only_bind; [| intro ] ].

Lemma read_only_signal_tc signal tc k :
  read_only (calculate_signal_tc signal tc k).
Proof. unfold calculate_signal_tc. repeat frame_step. Qed.

Lemma read_only_stop_flags cum stop_loss take_profit :
  read_only (stop_flags cum stop_loss take_profit).
Proof. unfold stop_flags. repeat frame_step. Qed.

(** C9 (as amended).  The transaction-cost, strategy-return, trade-count,
    trade-duration and compounding-index operations write to no table,
    whether they return or raise.  The static risk-stop overlay writes to no
    table but the caller's signal table: its cumulative-returns and
    stop-level tables are left as they were. *)
Theorem only_risk_stop_writes :
  (forall signal tc k, read_only (calculate_signal_tc signal tc k))
  /\ (forall signal returns k,
        read_only (calculate_signal_returns signal returns k))
  /\ (forall signal returns tc k,
        read_only (calculate_signal_returns_with_tc signal returns tc k))
  /\ (forall signal, read_only (calculate_trade_no signal))
  /\ (forall signal, read_only (calculate_trade_duration signal))
  /\ (forall signal, read_only (calculate_final_trade_duration signal))
  /\ (forall df_rets, read_only (create_mult_index df_rets))
  /\ (forall signal cum stop_loss take_profit,
        writes_only signal
          (calculate_risk_stop_signals signal cum stop_loss take_profit)).
Proof.
  refine (conj _ (conj _ (conj _ (conj _ (conj _ (conj _ (conj _ _)))))));
    intros.
  - apply read_only_signal_tc.
  - unfold calculate_signal_returns. repeat frame_step.
  - unfold calculate_signal_returns_with_tc.
    apply read_only_bind; [apply read_only_signal_tc | intro].
    repeat frame_step.
  - unfold calculate_trade_no. repeat frame_step.
  - unfold calculate_trade_duration. repeat frame_step.
  - unfold calculate_final_trade_duration. repeat frame_step.
  - unfold create_mult_index. cbv zeta. repeat frame_step.
  - unfold calculate_risk_stop_signals.
    repeat first
      [ apply writes_only_store
      | apply read_only_writes_only;
        first [ apply read_only_ret | apply read_only_lift
              | apply read_only_load | apply read_only_stop_flags ]
      | apply writes_only_bind; [| intro ] ].
Qed.

(** C9 as stated does not hold: on the scenario, with stops that never
    trigger, the risk-stop overlay leaves NaN in rows 2 and 3 of the
    caller's signal table. *)
Lemma risk_stop_overwrites_signal :
  exists res h',
    calculate_risk_stop_signals 0 1 (Scalar (num (-1))) (Scalar (num 1))
      Scenario.objects = Return res h'
    /\ nth_error h' 0 <> nth_error Scenario.objects 0.
Proof.
  assert (E : calculate_risk_stop_signals 0 1 (Scalar (num (-1)))
                (Scalar (num 1)) Scenario.objects
              = Return Scenario.signal
                  [mkFrame [0; 1; 2; 3; 4; 5]%Z ["asset"%string]
                     [[num 0; num 1; NaN; NaN; num 0; num (-1)]];
                   Scenario.returns]) by by_evaluation.
  do 2 eexists. split; [exact E|].
  simpl. intros F. injection F as F. discriminate F.
Qed.

(* ------------------------------------------------------------------ *)
(** ** The risk-stop overlay when no stop triggers *)

Lemma bind_store r d x (h : heap) {B} (k : unit -> M B) :
  nth_error h r = Some x -> bind (store r d) k h = k tt (update r d h).
Proof. intros H. unfold bind, store. rewrite H. reflexivity. Qed.
Arguments bind_store {r} d {x h B} k _.

Lemma map2_firstn {A B C} (g : A -> B -> C) l m :
  map2 g l (firstn (List.length l) m) = map2 g l m.
Proof.
  revert m. induction l as [|a l IH]; intros [|b m]; simpl; try reflexivity.
  rewrite IH. reflexivity.
Qed.

Lemma map2_diag {A B C} (g : A -> B -> C) (k : A -> B) l :
  map2 g l (map k l) = map (fun x => g x (k x)) l.
Proof. induction l as [|a l IH]; simpl; [|rewrite IH]; reflexivity. Qed.


Lemma map_unchanged {A} (g : A -> A) l :
  (forall x, In x l -> g x = x) -> map g l = l.
Proof.
  induction l as [|a l IH]; simpl; intros H; [reflexivity|].
  rewrite H by auto. rewrite IH by auto. reflexivity.
Qed.

Lemma select_none {A} (v : A) (c : list A) (mc : list bool) :
  List.length c = List.length mc -> forallb negb mc = true ->
  map2 (fun x (b : bool) => if b then v else x) c mc = c.
Proof.
  revert mc. induction c as [|x c IH]; intros [|b mc] L F; simpl in *;
    try discriminate; [reflexivity|].
  apply andb_true_iff in F. destruct F as [Fb F].
  destruct b; [discriminate|]. rewrite IH; [reflexivity | lia | exact F].
Qed.

Lemma select_none_cols {A} (v : A) n (D : list (list A))
  (m : list (list bool)) :
  List.length D = List.length m ->
  forallb (fun c => List.length c =? n) D = true ->
  forallb (fun c => List.length c =? n) m = true ->
  forallb (forallb negb) m = true ->
  map2 (map2 (fun x (b : bool) => if b then v else x)) D m = D.
Proof.
  revert m. induction D as [|c D IH]; intros [|mc m] L WD Wm F; simpl in *;
    try discriminate; [reflexivity|].
  apply andb_true_iff in WD, Wm, F.
  destruct WD as [Wc WD], Wm as [Wmc Wm], F as [Fc F].
  apply Nat.eqb_eq in Wc, Wmc.
  rewrite select_none by (congruence || assumption).
  rewrite IH; [reflexivity | lia | assumption..].
Qed.

(** One column: blanking the rows where the signal did not move and filling
    forward gives the column back, when no value is missing. *)
Lemma ffill_blanked_from (l : list cell) :
  forall (p last : cell),
    forallb notnull l = true ->
    (forall y, p = Some y -> last = Some y) ->
    ffill_from last
      (map2 (fun x (b : bool) => if b then NaN else x) l
         (map (fun a => cell_eqb a (Some 0%Qc))
            (map cell_abs (map2 cell_sub l (p :: l)))))
    = l.
Proof.
  induction l as [|a l IH]; intros p last Hl Hp; [reflexivity|].
  simpl in Hl. apply andb_true_iff in Hl. destruct Hl as [Ha Hl].
  destruct a as [x|]; [clear Ha | discriminate].
  change (map2 cell_sub (Some x :: l) (p :: Some x :: l))
    with (cell_sub (Some x) p :: map2 cell_sub l (Some x :: l)).
  cbn [map map2].
  destruct p as [y|].
  - cbn [cell_sub lift2 cell_abs option_map cell_eqb].
    destruct (Qc_eqb [x - y]%Qc 0%Qc) eqn:E.
    + apply Qc_eqb_iff, Qcabs_null in E.
      assert (Exy : x = y).
      { replace x with ((x - y) + y)%Qc by ring. rewrite E. ring. }
      subst y. unfold NaN. cbn [ffill_from].
      rewrite (Hp x eq_refl). f_equal.
      apply IH; [exact Hl | intros z Ez; injection Ez as <-; reflexivity].
    + cbn [ffill_from]. f_equal.
      apply IH; [exact Hl | intros z Ez; exact Ez].
  - cbn [cell_sub lift2 cell_abs option_map cell_eqb ffill_from]. f_equal.
    apply IH; [exact Hl | intros z Ez; exact Ez].
Qed.

Lemma ffill_blanked (l : list cell) :
  forallb notnull l = true ->
  ffill_col
    (map2 (fun x (b : bool) => if b then NaN else x) l
       (map (fun a => cell_eqb a (Some 0%Qc))
          (map cell_abs (map2 cell_sub l (shift_col NaN 1 l)))))
  = l.
Proof.
  intros Hl. unfold shift_col. simpl.
  rewrite map2_firstn. apply ffill_blanked_from; [exact Hl | discriminate].
Qed.

Lemma length_map2 {A B C} (g : A -> B -> C) l m :
  List.length (map2 g l m) = Nat.min (List.length l) (List.length m).
Proof.
  revert m. induction l as [|a l IH]; intros [|b m]; simpl; try reflexivity.
  rewrite IH. reflexivity.
Qed.

Lemma setitem_mask_same (f : DataFrame) (key : BoolFrame) v :
  index key = index f -> columns key = columns f ->
  setitem_mask f key v
  = Ok (mkFrame (index f) (columns f)
          (map2 (map2 (fun x (b : bool) => if b then v else x))
                (data f) (data key))).
Proof.
  intros Hi Hc. unfold setitem_mask, mask_over.
  rewrite (proj2 (same_labels_true f key)) by (split; congruence).
  reflexivity.
Qed.

Lemma setitem_mask_none (f : DataFrame) (key : BoolFrame) v :
  index key = index f -> columns key = columns f ->
  well_formed f = true -> well_formed key = true ->
  no_flag key = true ->
  setitem_mask f key v = Ok f.
Proof.
  intros Hi Hc Wf Wk Hn. rewrite setitem_mask_same by assumption.
  unfold well_formed, nrows, ncols in Wf, Wk. rewrite Hi, Hc in Wk.
  apply andb_true_iff in Wf, Wk. destruct Wf as [Lf Wf], Wk as [Lk Wk].
  apply Nat.eqb_eq in Lf, Lk.
  rewrite (select_none_cols v (List.length (index f))); try assumption.
  - destruct f; reflexivity.
  - congruence.
Qed.

(** The trade sizes of [calculate_risk_stop_signals], column by column. *)
Lemma risk_reset_data (s : DataFrame) :
  data (df_abs (frame_zip cell_sub s (df_shift 1 s)))
  = map (fun c => map cell_abs (map2 cell_sub c (shift_col NaN 1 c))) (data s).
Proof.
  unfold df_abs, frame_map, frame_zip, df_shift, frame_cols. simpl.
  rewrite map2_diag, map_map. reflexivity.
Qed.

Lemma risk_reset_well_formed (s : DataFrame) :
  well_formed s = true ->
  well_formed (df_abs (frame_zip cell_sub s (df_shift 1 s))) = true.
Proof.
  unfold well_formed. rewrite risk_reset_data. intros W.
  apply andb_true_iff in W. destruct W as [L W].
  apply andb_true_iff. split.
  - rewrite length_map. exact L.
  - rewrite forallb_forall in *. intros c Hc.
    apply in_map_iff in Hc. destruct Hc as [c0 [<- Hc0]].
    rewrite length_map, length_map2, length_shift_col, Nat.min_id.
    apply (W c0 Hc0).
Qed.

(** C7 (as amended).  When no stop-loss or take-profit condition is true on
    any cell, and the signal table has no missing cell, the risk-stop overlay
    returns a table equal to the signal table passed in. *)
Theorem risk_stop_without_trigger :
  forall (h : heap) (signal cum : ref) (stop_loss take_profit : level)
         (s : DataFrame) (ind : BoolFrame),
    nth_error h signal = Some s ->
    stop_flags cum stop_loss take_profit h = Return ind h ->
    index ind = index s -> ncols ind = ncols s ->
    well_formed s = true -> well_formed ind = true ->
    no_flag ind = true ->
    no_missing s = true ->
    exists h',
      calculate_risk_stop_signals signal cum stop_loss take_profit h
      = Return s h'.
Proof.
  intros h signal cum sl tp s ind Hs Hflags Hidx Hnc Ws Wi Hnf Hnm.
  set (ind' := mkFrame (index ind) (columns s) (data ind)).
  assert (Wi' : well_formed ind' = true).
  { unfold well_formed, ncols in *. simpl. rewrite <- Hnc. exact Wi. }
  unfold calculate_risk_stop_signals.
  rewrite (bind_load _ Hs).
  unfold df_sub. rewrite df_arith_same by exact (same_labels_refl s).
  rewrite bind_lift_ok.
  unfold bind at 1. rewrite Hflags.
  rewrite (bind_load _ Hs).
  unfold set_columns. rewrite Hnc. unfold ncols. rewrite Nat.eqb_refl.
  rewrite bind_lift_ok. fold ind'.
  rewrite (bind_load _ Hs).
  rewrite (setitem_mask_none s ind') by (assumption || reflexivity).
  rewrite bind_lift_ok.
  rewrite (bind_store s _ Hs).
  rewrite (update_unchanged _ _ _ Hs).
  rewrite (setitem_mask_none _ ind')
    by (assumption || reflexivity || apply risk_reset_well_formed, Ws).
  rewrite bind_lift_ok.
  rewrite (bind_load _ Hs).
  rewrite setitem_mask_same by reflexivity.
  rewrite bind_lift_ok.
  rewrite (bind_store _ _ Hs).
  rewrite (bind_load _ (nth_error_update_same _ _ _ _ Hs)).
  eexists. unfold ret. f_equal.
  unfold df_ffill, frame_cols, df_cmp_scalar, frame_map. simpl index.
  simpl columns. cbn [data].
  rewrite risk_reset_data, !map_map, map2_diag, map_map.
  rewrite map_unchanged.
  - destruct s; reflexivity.
  - intros c Hc. apply ffill_blanked.
    unfold no_missing in Hnm. rewrite forallb_forall in Hnm. auto.
Qed.

Lemma risk_stop_without_trigger_witness :
  exists h',
    calculate_risk_stop_signals 0 1 (Scalar (num (-1))) (Scalar (num 1))
      Scenario.objects = Return Scenario.signal h'.
Proof.
  apply (risk_stop_without_trigger Scenario.objects 0 1
           (Scalar (num (-1))) (Scalar (num 1)) Scenario.signal
           NoTrigger.flags);
    vm_compute; reflexivity.
Defined.

(** C7 as stated does not hold: on the signal [1, NaN] no stop condition is
    true, and the overlay returns [1, 1]. *)
Lemma risk_stop_fills_missing_signal :
  exists ind res h',
    stop_flags 1 (Scalar (num (-1))) (Scalar (num 1)) StopExample.objects
      = Return ind StopExample.objects
    /\ no_flag ind = true
    /\ calculate_risk_stop_signals 0 1 (Scalar (num (-1))) (Scalar (num 1))
         StopExample.objects = Return res h'
    /\ res <> StopExample.signal.
Proof.
  exists (mkFrame [0; 1]%Z ["asset"%string] [[false; false]]),
         StopExample.filled, StopExample.objects.
  split; [vm_compute; reflexivity|].
  split; [reflexivity|].
  split; [by_evaluation|].
  intros E. apply frame_same_iff in E. vm_compute in E. discriminate.
Qed.

(* ------------------------------------------------------------------ *)
(** ** Cumulative returns per trade *)

Lemma find_pos_none {K} (eq_dec : forall x y : K, {x = y} + {x <> y}) k l :
  mem eq_dec k l = false -> find_pos eq_dec k l = None.
Proof.
  induction l as [|x l IH]; simpl; [reflexivity|].
  destruct (eq_dec k x); [discriminate|].
  intros H. rewrite IH by exact H. reflexivity.
Qed.

(** C5 (the code departs from the specification).  On a returns table that has no column
    named [columnsii], [calculate_cum_rets_trades] raises AttributeError at
    [strategy_returns_data_frame.columnsii], before any cumulative sum is
    taken and before any table is written: no table is returned. *)
Theorem cum_rets_trades_raises :
  forall (h : heap) (signal returns : ref) (s r : DataFrame),
    nth_error h signal = Some s ->
    nth_error h returns = Some r ->
    mem string_dec "columnsii"%string (columns r) = false ->
    calculate_cum_rets_trades signal returns h = Raise AttributeError h.
Proof.
  intros h signal returns s r Hs Hr Hc.
  unfold calculate_cum_rets_trades.
  rewrite (bind_load _ Hs).
  rewrite reset_points_runs, bind_lift_ok.
  rewrite (bind_load _ Hr).
  unfold getattr_columnsii. rewrite find_pos_none by exact Hc.
  reflexivity.
Qed.

Lemma cum_rets_trades_raises_witness :
  calculate_cum_rets_trades 0 1 Scenario.objects
  = Raise AttributeError Scenario.objects.
Proof.
  apply (cum_rets_trades_raises Scenario.objects 0 1
           Scenario.signal Scenario.returns);
    reflexivity.
Defined.

(* ------------------------------------------------------------------ *)
(** ** Trade duration *)











Lemma nth_map2 {A B C} (g : A -> B -> C) l m j a b d :
  j < List.length l -> j < List.length m ->
  nth j (map2 g l m) d = g (nth j l a) (nth j m b).
Proof.
  revert m j. induction l as [|x l IH]; intros [|y m] [|j] Hl Hm;
    simpl in *; try lia; [reflexivity|].
  apply IH; lia.
Qed.





(** The running sum, written as a sum from the top. *)
Lemma cum_from_fold d :
  forall acc t,
    nth t (cum_from Qcplus acc d) NaN
    = match nth t d NaN with
      | Some _ => Some (fold_left add_present (firstn (S t) d) acc)
      | None => NaN
      end.
Proof.
  induction d as [|x d IH]; intros acc t.
  - destruct t; reflexivity.
  - destruct x as [v|]; destruct t as [|t]; cbn [cum_from nth];
      try reflexivity; rewrite IH; reflexivity.
Qed.





(* ------------------------------------------------------------------ *)
(** ** Sorted union of indexes *)

Section SortedUnion.
Local Open Scope Z_scope.

Lemma increasing_cons x l :
  increasing (x :: l) = true <->
  Forall (fun y => x < y) l /\ increasing l = true.
Proof.
  revert x. induction l as [|y l IH]; intros x.
  - simpl. split; [intros _; split; [constructor | reflexivity] | auto].
  - change (increasing (x :: y :: l))
      with ((x <? y) && increasing (y :: l))%bool.
    rewrite andb_true_iff, Z.ltb_lt. split.
    + intros [Hxy Hl]. split; [|exact Hl].
      constructor; [exact Hxy|].
      apply IH in Hl. destruct Hl as [Hall _].
      eapply Forall_impl; [|exact Hall]. intros z Hz. cbv beta in *. lia.
    + intros [Hall Hl]. inversion Hall; subst. split; assumption.
Qed.

Lemma insert_uniq_in x y l :
  In y (insert_uniq Z.eq_dec Z.ltb x l) <-> y = x \/ In y l.
Proof.
  induction l as [|z l IH]; simpl.
  - intuition.
  - destruct (Z.eq_dec x z) as [->|_]; [simpl; intuition|].
    destruct (x <? z); simpl; [intuition|].
    rewrite IH. intuition.
Qed.

Lemma insert_uniq_increasing x l :
  increasing l = true -> increasing (insert_uniq Z.eq_dec Z.ltb x l) = true.
Proof.
  induction l as [|z l IH]; intros Hl; [reflexivity|].
  cbn [insert_uniq].
  destruct (Z.eq_dec x z) as [->|Hne]; [exact Hl|].
  destruct (Z.ltb_spec x z) as [Hlt|Hge].
  - change (((x <? z) && increasing (z :: l))%bool = true).
    rewrite Hl, andb_true_r. apply Z.ltb_lt, Hlt.
  - apply increasing_cons in Hl. destruct Hl as [Hall Hl].
    apply increasing_cons. split; [|apply IH, Hl].
    apply Forall_forall. intros y Hy.
    apply (insert_uniq_in x y l) in Hy. destruct Hy as [->|Hy].
    + lia.
    + rewrite Forall_forall in Hall. apply Hall, Hy.
Qed.

Lemma usort_in y l : In y (usort Z.eq_dec Z.ltb l) <-> In y l.
Proof.
  unfold usort. induction l as [|x l IH]; simpl; [tauto|].
  rewrite insert_uniq_in, IH. intuition.
Qed.

Lemma usort_increasing l : increasing (usort Z.eq_dec Z.ltb l) = true.
Proof.
  unfold usort. induction l as [|x l IH]; simpl; [reflexivity|].
  apply insert_uniq_increasing, IH.
Qed.

(** Two increasing lists with the same elements are the same list. *)
Lemma increasing_unique a :
  forall b,
    increasing a = true -> increasing b = true ->
    (forall x, In x a <-> In x b) -> a = b.
Proof.
  induction a as [|x a IH]; intros [|y b] Ha Hb Hin.
  - reflexivity.
  - exfalso. apply (proj2 (Hin y)). left. reflexivity.
  - exfalso. apply (proj1 (Hin x)). left. reflexivity.
  - apply increasing_cons in Ha, Hb.
    destruct Ha as [Fa Ha], Hb as [Fb Hb].
    rewrite Forall_forall in Fa, Fb.
    assert (Exy : x = y).
    { destruct (proj1 (Hin x) (or_introl eq_refl)) as [E|Hx]; [auto|].
      destruct (proj2 (Hin y) (or_introl eq_refl)) as [E|Hy]; [auto|].
      specialize (Fa y Hy). specialize (Fb x Hx). lia. }
    subst y. f_equal. apply IH; [exact Ha | exact Hb |].
    intros z. split; intros Hz.
    + destruct (proj1 (Hin z) (or_intror Hz)) as [E|H]; [|exact H].
      subst z. specialize (Fa x Hz). lia.
    + destruct (proj2 (Hin z) (or_intror Hz)) as [E|H]; [|exact H].
      subst z. specialize (Fb x Hz). lia.
Qed.

Lemma union_index_in a b x :
  In x (union_index a b) <-> In x a \/ In x b.
Proof.
  unfold union_index, union_labels.
  destruct (list_eq_dec Z.eq_dec a b) as [->|_]; [tauto|].
  rewrite usort_in. apply in_app_iff.
Qed.

Lemma union_index_increasing a b :
  increasing a = true -> increasing (union_index a b) = true.
Proof.
  intros Ha. unfold union_index, union_labels.
  destruct (list_eq_dec Z.eq_dec a b); [exact Ha | apply usort_increasing].
Qed.

Lemma union_index_assoc a b c :
  increasing a = true -> increasing b = true -> increasing c = true ->
  union_index (union_index a b) c = union_index a (union_index b c).
Proof.
  intros Ha Hb Hc. apply increasing_unique.
  - apply union_index_increasing, union_index_increasing, Ha.
  - apply union_index_increasing, Ha.
  - intros x. rewrite !union_index_in. tauto.
Qed.
End SortedUnion.

(* ------------------------------------------------------------------ *)
(** ** The pairwise outer join is associative *)

Lemma find_pos_some {K} (eq_dec : forall x y : K, {x = y} + {x <> y})
  k l i d :
  find_pos eq_dec k l = Some i -> i < List.length l /\ nth i l d = k.
Proof.
  revert i. induction l as [|x l IH]; intros i; simpl; [discriminate|].
  destruct (eq_dec k x) as [->|_].
  - intros E. injection E as <-. split; [lia | reflexivity].
  - destruct (find_pos eq_dec k l) as [j|]; [|discriminate].
    intros E. injection E as <-. destruct (IH j eq_refl) as [H1 H2].
    split; [lia | exact H2].
Qed.

Lemma find_pos_in {K} (eq_dec : forall x y : K, {x = y} + {x <> y}) k l :
  find_pos eq_dec k l = None <-> ~ In k l.
Proof.
  induction l as [|x l IH]; simpl; [tauto|].
  destruct (eq_dec k x) as [->|N].
  - split; [discriminate | intros H; exfalso; apply H; auto].
  - destruct (find_pos eq_dec k l) as [j|]; simpl.
    + split; [discriminate|]. intros H. exfalso.
      assert (Hn : ~ In k l) by tauto. apply IH in Hn. discriminate.
    + split; [|reflexivity]. intros _ [E|H]; [congruence|].
      apply (proj1 IH); [reflexivity | exact H].
Qed.

(** Reading a reindexed column under a label. *)
Lemma reindex_col_twice old col idx1 idx2 :
  incl old idx1 ->
  reindex_col idx1 (reindex_col old col idx1) idx2 = reindex_col old col idx2.
Proof.
  intros Hincl. unfold reindex_col at 1 3. apply map_ext. intros ts.
  destruct (find_pos Z.eq_dec ts idx1) as [i|] eqn:E1.
  - destruct (find_pos_some Z.eq_dec ts idx1 i 0%Z E1) as [Hi Hts].
    unfold reindex_col.
    rewrite (nth_indep _ NaN
               (match find_pos Z.eq_dec 0%Z old with
                | Some i0 => nth i0 col NaN
                | None => NaN
                end)) by (rewrite length_map; exact Hi).
    rewrite (map_nth (fun ts0 => match find_pos Z.eq_dec ts0 old with
                                 | Some i0 => nth i0 col NaN
                                 | None => NaN
                                 end) idx1 0%Z i).
    rewrite Hts. reflexivity.
  - apply find_pos_in in E1.
    assert (E2 : find_pos Z.eq_dec ts old = None).
    { apply find_pos_in. intros H. apply E1, Hincl, H. }
    rewrite E2. reflexivity.
Qed.

Lemma mem_app {K} (eq_dec : forall x y : K, {x = y} + {x <> y}) k a b :
  mem eq_dec k (a ++ b) = mem eq_dec k a || mem eq_dec k b.
Proof.
  induction a as [|x a IH]; simpl; [reflexivity|].
  destruct (eq_dec k x); [reflexivity | exact IH].
Qed.

Lemma overlap_app_l {K} (eq_dec : forall x y : K, {x = y} + {x <> y}) a b c :
  overlap eq_dec (a ++ b) c = overlap eq_dec a c || overlap eq_dec b c.
Proof. unfold overlap. apply existsb_app. Qed.

Lemma overlap_app_r {K} (eq_dec : forall x y : K, {x = y} + {x <> y}) a b c :
  overlap eq_dec a (b ++ c) = overlap eq_dec a b || overlap eq_dec a c.
Proof.
  unfold overlap. induction a as [|x a IH]; simpl; [reflexivity|].
  rewrite IH, mem_app.
  destruct (mem eq_dec x b), (mem eq_dec x c),
    (existsb (fun k => mem eq_dec k b) a),
    (existsb (fun k => mem eq_dec k c) a); reflexivity.
Qed.

Lemma join_outer_error l r e : join_outer l r = Err e -> e = ValueError.
Proof.
  unfold join_outer. destruct (overlap _ _ _); [|discriminate].
  intros E. injection E as <-. reflexivity.
Qed.

Lemma join_outer_increasing l r d :
  increasing (index l) = true ->
  join_outer l r = Ok d -> increasing (index d) = true.
Proof.
  intros Hl. unfold join_outer. destruct (overlap _ _ _); [discriminate|].
  intros E. injection E as <-. simpl. apply union_index_increasing, Hl.
Qed.

Lemma join_outer_assoc (a b c : DataFrame) :
  increasing (index a) = true ->
  increasing (index b) = true ->
  increasing (index c) = true ->
  rbind (join_outer a b) (fun x => join_outer x c)
  = rbind (join_outer b c) (fun y => join_outer a y).
Proof.
  intros Ha Hb Hc. unfold join_outer.
  destruct (overlap string_dec (columns a) (columns b)) eqn:Eab;
    destruct (overlap string_dec (columns b) (columns c)) eqn:Ebc;
    cbn [rbind columns index data];
    rewrite ?overlap_app_l, ?overlap_app_r, ?Eab, ?Ebc;
    cbn [orb]; try reflexivity.
  - destruct (overlap string_dec (columns a) (columns c)); reflexivity.
  - rewrite orb_false_r.
    destruct (overlap string_dec (columns a) (columns c)); [reflexivity|].
    f_equal. rewrite (union_index_assoc _ _ _ Ha Hb Hc).
    rewrite <- app_assoc. f_equal.
    rewrite !map_app, !map_map, <- app_assoc.
    f_equal; [|f_equal]; apply map_ext; intros col0.
    + rewrite <- (union_index_assoc _ _ _ Ha Hb Hc).
      apply reindex_col_twice. intros x Hx.
      apply union_index_in. auto.
    + rewrite <- (union_index_assoc _ _ _ Ha Hb Hc).
      rewrite reindex_col_twice
        by (intros x Hx; apply union_index_in; auto).
      rewrite (union_index_assoc _ _ _ Ha Hb Hc).
      symmetry. apply reindex_col_twice. intros x Hx.
      apply union_index_in. auto.
    + symmetry. apply reindex_col_twice. intros x Hx.
      apply union_index_in. auto.
Qed.

(* ------------------------------------------------------------------ *)
(** ** The sequential fold *)

Lemma join_step_err xs e : fold_left join_step xs (Err e) = Err e.
Proof. induction xs as [|x xs IH]; simpl; [reflexivity | exact IH]. Qed.

Lemma join_fold_acc_error xs :
  forall acc e,
    (forall e', acc = Err e' -> e' = ValueError) ->
    fold_left join_step xs acc = Err e -> e = ValueError.
Proof.
  induction xs as [|x xs IH]; intros acc e Hacc; simpl.
  - apply Hacc.
  - apply IH. intros e'. destruct acc as [a|e0]; simpl.
    + apply join_outer_error.
    + intros E. injection E as <-. apply Hacc. reflexivity.
Qed.

Lemma join_fold_error x xs e : join_fold x xs = Err e -> e = ValueError.
Proof. apply join_fold_acc_error. discriminate. Qed.

Lemma join_fold_acc_increasing xs :
  forall acc d,
    (forall a, acc = Ok a -> increasing (index a) = true) ->
    fold_left join_step xs acc = Ok d -> increasing (index d) = true.
Proof.
  induction xs as [|x xs IH]; intros acc d Hacc; simpl.
  - apply Hacc.
  - apply IH. intros a. destruct acc as [a0|e0]; simpl; [|discriminate].
    apply join_outer_increasing, Hacc. reflexivity.
Qed.

Lemma join_fold_increasing x xs d :
  increasing (index x) = true ->
  join_fold x xs = Ok d -> increasing (index d) = true.
Proof.
  intros Hx. apply join_fold_acc_increasing.
  intros a E. injection E as <-. exact Hx.
Qed.

(** Folding over a list split in two: the fold of the first part joined
    with the fold of the second part. *)
Lemma join_fold_split ys :
  forall (acc : result DataFrame) (y : DataFrame),
    (forall a, acc = Ok a -> increasing (index a) = true) ->
    increasing (index y) = true ->
    all_increasing ys ->
    fold_left join_step ys (join_step acc y)
    = rbind acc (fun a => rbind (join_fold y ys) (fun b => join_outer a b)).
Proof.
  induction ys as [|z ys IH]; intros acc y Hacc Hy Hys.
  - destruct acc; reflexivity.
  - inversion Hys as [|? ? Hz Hys']; subst.
    cbn [fold_left]. unfold join_fold. cbn [fold_left].
    rewrite (IH (join_step acc y) z); [| | exact Hz | exact Hys'].
    + change (join_step (Ok y) z) with (join_step (Ok y) z).
      rewrite (IH (Ok y) z);
        [| intros a E; injection E as <-; exact Hy | exact Hz | exact Hys'].
      destruct acc as [a|e]; [|reflexivity].
      cbn [join_step rbind].
      specialize (Hacc a eq_refl).
      destruct (join_fold z ys) as [g|e] eqn:Eg.
      * cbn [rbind]. apply join_outer_assoc; try assumption.
        apply (join_fold_increasing z ys g Hz Eg).
      * cbn [rbind]. apply join_fold_error in Eg. subst e.
        destruct (join_outer a y) as [ay|e'] eqn:Eay; [reflexivity|].
        apply join_outer_error in Eay. subst e'. reflexivity.
    + intros a. destruct acc as [a0|e0]; cbn [join_step rbind];
        [|discriminate].
      apply join_outer_increasing, Hacc. reflexivity.
Qed.

Lemma join_fold_app x xs y ys :
  all_increasing (x :: xs) -> all_increasing (y :: ys) ->
  join_fold x (xs ++ y :: ys)
  = rbind (join_fold x xs)
          (fun a => rbind (join_fold y ys) (fun b => join_outer a b)).
Proof.
  intros Hx Hy. inversion Hx; subst. inversion Hy; subst.
  unfold join_fold at 1. rewrite fold_left_app. cbn [fold_left].
  apply join_fold_split; try assumption.
  intros a Ea. apply (join_fold_increasing x xs a); assumption.
Qed.

(* ------------------------------------------------------------------ *)
(** ** One round of pairing keeps the result of the fold *)

Lemma div2_lt n : 2 <= n -> Nat.div2 (n + 1) < n.
Proof.
  intros H. destruct n as [|[|n]]; try lia.
  replace (S (S n) + 1) with (S (S (n + 1))) by lia. cbn [Nat.div2].
  assert (Hle : n + 1 <= S n) by lia.
  pose proof (Nat.div2_decr (n + 1) n Hle). lia.
Qed.

Lemma pair_up_fold n :
  forall l,
    List.length l <= n -> l <> [] -> all_increasing l ->
    match pair_up l with
    | Ok out =>
        out <> [] /\ all_increasing out
        /\ List.length out = Nat.div2 (List.length l + 1)
        /\ join_all out = join_all l
    | Err e => join_all l = Err e
    end.
Proof.
  induction n as [|n IH]; intros l Hlen Hne Hinc.
  - destruct l; [contradiction | simpl in Hlen; lia].
  - destruct l as [|a [|b t]]; [contradiction | |].
    + cbn [pair_up]. repeat split; try assumption.
    + inversion Hinc as [|? ? Ha Hinc']; subst.
      inversion Hinc' as [|? ? Hb Ht]; subst.
      cbn [pair_up]. destruct (join_outer a b) as [d|e] eqn:Eab.
      * cbn [rbind].
        pose proof (join_outer_increasing a b d Ha Eab) as Hd.
        destruct t as [|c t'].
        -- cbn [pair_up rbind]. split; [discriminate|].
           split; [constructor; [exact Hd | constructor]|].
           split; [reflexivity|].
           cbn [join_all join_fold fold_left join_step rbind].
           symmetry. exact Eab.
        -- assert (Hfold : join_all (a :: b :: c :: t')
                           = rbind (join_all (c :: t'))
                                   (fun g => join_outer d g)).
           { cbn [join_all].
             change (b :: c :: t') with ([b] ++ c :: t').
             rewrite (join_fold_app a [b] c t')
               by (repeat constructor; try assumption;
                   inversion Ht; assumption).
             unfold join_fold at 1.
             cbn [fold_left join_step rbind]. rewrite Eab. reflexivity. }
           specialize (IH (c :: t')).
           destruct (pair_up (c :: t')) as [r|e] eqn:Er.
           ++ destruct IH as [Hr [Hri [Hrl Hrf]]];
                [simpl in *; lia | discriminate | exact Ht |].
              cbn [rbind]. split; [discriminate|].
              split; [constructor; assumption|].
              split.
              { cbn [List.length]. rewrite Hrl.
                replace (S (S (List.length (c :: t'))) + 1)
                  with (S (S (List.length (c :: t') + 1))) by lia.
                reflexivity. }
              rewrite Hfold, <- Hrf.
              destruct r as [|r0 r']; [contradiction|].
              cbn [join_all].
              inversion Hri; subst.
              change (r0 :: r') with ([] ++ r0 :: r') at 1.
              rewrite (join_fold_app d [] r0 r')
                by (repeat constructor; assumption).
              reflexivity.
           ++ cbn [rbind]. rewrite Hfold.
              rewrite IH; [reflexivity | simpl in *; lia | discriminate
                          | exact Ht].
      * cbn [rbind join_all join_fold fold_left join_step].
        rewrite Eab. apply join_step_err.
Qed.

(* ------------------------------------------------------------------ *)
(** ** The rounds of [iterative_outer_join_second] *)

Lemma for_each_err {A S} (l : list A) (body : S -> A -> result S) e :
  fold_left (fun acc a => rbind acc (fun s => body s a)) l (Err e) = Err e.
Proof. induction l as [|a l IH]; simpl; [reflexivity | exact IH]. Qed.

Lemma getitem_list_middle {A} (pre : list A) a rest :
  getitem_list (pre ++ a :: rest) (List.length pre) = Ok a.
Proof.
  unfold getitem_list. rewrite nth_error_app2 by lia.
  rewrite Nat.sub_diag. reflexivity.
Qed.

Lemma getitem_list_next {A} (pre : list A) a b rest :
  getitem_list (pre ++ a :: b :: rest) (List.length pre + 1) = Ok b.
Proof.
  unfold getitem_list. rewrite nth_error_app2 by lia.
  replace (List.length pre + 1 - List.length pre) with 1 by lia.
  reflexivity.
Qed.

Lemma join_aux_last pre a :
  join_aux (List.length pre) (pre ++ [a]) = Ok a.
Proof.
  unfold join_aux. rewrite length_app. cbn [List.length].
  destruct (Z.eqb_spec (Z.of_nat (List.length pre))
              (Z.of_nat (List.length pre + 1) - 1)) as [_|N]; [|lia].
  apply getitem_list_middle.
Qed.

Lemma join_aux_pair pre a b rest :
  join_aux (List.length pre) (pre ++ a :: b :: rest) = join_outer a b.
Proof.
  unfold join_aux. rewrite length_app. cbn [List.length].
  destruct (Z.eqb_spec (Z.of_nat (List.length pre))
              (Z.of_nat (List.length pre + S (S (List.length rest))) - 1))
    as [E|_]; [lia|].
  rewrite getitem_list_middle, getitem_list_next. reflexivity.
Qed.

Lemma join_round_from n :
  forall rest pre out0 m,
    List.length rest <= n ->
    List.length pre = 2 * m ->
    for_each (map (fun k => 2 * k) (seq m (Nat.div2 (List.length rest + 1))))
      (fun df_list_out i =>
         rbind (join_aux i (pre ++ rest))
               (fun d => Ok (df_list_out ++ [d])))
      out0
    = rbind (pair_up rest) (fun r => Ok (out0 ++ r)).
Proof.
  induction n as [|n IH]; intros rest pre out0 m Hlen Hpre.
  - destruct rest; [|simpl in Hlen; lia].
    cbn. rewrite app_nil_r. reflexivity.
  - destruct rest as [|a [|b t]].
    + cbn. rewrite app_nil_r. reflexivity.
    + cbn [List.length Nat.add Nat.div2 seq map pair_up rbind].
      unfold for_each. cbn [fold_left rbind].
      rewrite <- Hpre, join_aux_last. reflexivity.
    + replace (Nat.div2 (List.length (a :: b :: t) + 1))
        with (S (Nat.div2 (List.length t + 1)))
        by (cbn [List.length];
            replace (S (S (List.length t)) + 1)
              with (S (S (List.length t + 1))) by lia;
            reflexivity).
      cbn [seq map pair_up]. unfold for_each. cbn [fold_left rbind].
      rewrite <- Hpre, join_aux_pair.
      destruct (join_outer a b) as [d|e]; cbn [rbind].
      * specialize (IH t (pre ++ [a; b]) (out0 ++ [d]) (S m)).
        unfold for_each in IH.
        replace ((pre ++ [a; b]) ++ t) with (pre ++ a :: b :: t) in IH
          by (rewrite <- app_assoc; reflexivity).
        rewrite IH.
        -- destruct (pair_up t) as [r|e]; cbn [rbind]; [|reflexivity].
           rewrite <- app_assoc. reflexivity.
        -- simpl in Hlen. lia.
        -- rewrite length_app. cbn [List.length]. lia.
      * apply for_each_err.
Qed.

Lemma join_round_pair_up l : join_round l = pair_up l.
Proof.
  unfold join_round, range_by_2.
  pose proof (join_round_from (List.length l) l [] [] 0 (Nat.le_refl _)
                eq_refl) as H.
  cbn [app] in H. rewrite H.
  destruct (pair_up l); reflexivity.
Qed.

(** With as many turns as there are tables, the loop ends with the result
    of the fold. *)
Lemma join_rounds_fold fuel :
  forall l,
    List.length l <= fuel -> l <> [] -> all_increasing l ->
    join_rounds fuel l = Some (join_all l).
Proof.
  induction fuel as [|fuel IH]; intros l Hlen Hne Hinc.
  - destruct l; [contradiction | simpl in Hlen; lia].
  - cbn [join_rounds].
    destruct (Nat.eqb_spec (List.length l) 1) as [E1|N1].
    + destruct l as [|x [|y l]]; try discriminate. reflexivity.
    + rewrite join_round_pair_up.
      pose proof (pair_up_fold (List.length l) l (Nat.le_refl _) Hne Hinc)
        as Hp.
      destruct (pair_up l) as [out|e].
      * destruct Hp as [Hone [Hoinc [Holen Hofold]]].
        rewrite <- Hofold. apply IH; try assumption.
        assert (2 <= List.length l).
        { destruct l as [|x [|y l]]; [contradiction | simpl in N1; lia
                                     | simpl; lia]. }
        pose proof (div2_lt (List.length l)). lia.
      * rewrite Hp. reflexivity.
Qed.

(* ------------------------------------------------------------------ *)
(** ** The two strategies *)

Lemma functional_fold_present xs :
  forall acc : result DataFrame,
    fold_left (fun acc y => rbind acc (fun a => join_dfs a y))
      (map Some xs) (rbind acc (fun d => Ok (Some d)))
    = rbind (fold_left join_step xs acc) (fun d => Ok (Some d)).
Proof.
  induction xs as [|y xs IH]; intros acc; [reflexivity|].
  cbn [map fold_left]. rewrite <- IH. f_equal.
  destruct acc as [a|e]; [|reflexivity].
  cbn [rbind join_dfs join_step]. reflexivity.
Qed.

Lemma functional_outer_join_present tables :
  functional_outer_join (Some (map Some tables))
  = rbind (join_all tables) (fun d => Ok (Some d)).
Proof.
  destruct tables as [|x xs]; [reflexivity|].
  cbn [map functional_outer_join join_all]. unfold join_fold.
  rewrite <- functional_fold_present. reflexivity.
Qed.

Lemma remove_none_present {A} (l : list A) : remove_none (map Some l) = l.
Proof.
  unfold remove_none. induction l as [|a l IH]; simpl; [|rewrite IH];
    reflexivity.
Qed.

(** X24.  For every non-empty list of tables with strictly increasing
    timestamps, the divide-and-conquer rounds, given as many turns as there
    are tables, end with the result of the sequential fold (the same table,
    or ValueError on both sides when column labels overlap).  And for three
    such tables, merging [t1, t2, t3] is merging [merge [t1, t2], t3] and is
    merging [t1, merge [t2, t3]]. *)
Theorem join_strategies_agree :
  (forall (tables : list DataFrame) (fuel : nat),
      tables <> [] ->
      all_increasing tables ->
      List.length tables <= fuel ->
      iterative_outer_join_second fuel (Some (map Some tables))
      = Some (functional_outer_join (Some (map Some tables))))
  /\ (forall t1 t2 t3 : DataFrame,
        all_increasing [t1; t2; t3] ->
        functional_outer_join (Some [Some t1; Some t2; Some t3])
        = rbind (functional_outer_join (Some [Some t1; Some t2]))
                (fun m => functional_outer_join (Some [m; Some t3]))
        /\ functional_outer_join (Some [Some t1; Some t2; Some t3])
           = rbind (functional_outer_join (Some [Some t2; Some t3]))
                   (fun m => functional_outer_join (Some [Some t1; m]))).
Proof.
  split.
  - intros tables fuel Hne Hinc Hfuel.
    rewrite functional_outer_join_present.
    unfold iterative_outer_join_second. rewrite remove_none_present.
    destruct (Nat.eqb_spec (List.length tables) 0) as [E0|_].
    { destruct tables; [contradiction | discriminate]. }
    destruct (Nat.eqb_spec (List.length tables) 1) as [E1|_].
    { destruct tables as [|x [|y l]]; try discriminate. reflexivity. }
    rewrite (join_rounds_fold fuel tables Hfuel Hne Hinc). reflexivity.
  - intros t1 t2 t3 Hinc.
    inversion Hinc as [|? ? H1 Hinc']; subst.
    inversion Hinc' as [|? ? H2 Hinc'']; subst.
    inversion Hinc'' as [|? ? H3 _]; subst.
    cbn [functional_outer_join fold_left rbind join_dfs]. split.
    + destruct (join_outer t1 t2) as [d|e]; reflexivity.
    + pose proof (join_outer_assoc t1 t2 t3 H1 H2 H3) as A.
      destruct (join_outer t1 t2) as [d|e] eqn:E12;
        destruct (join_outer t2 t3) as [g|e'] eqn:E23;
        cbn [rbind join_dfs] in A |- *.
      * rewrite A. reflexivity.
      * rewrite A. reflexivity.
      * rewrite <- A. reflexivity.
      * apply join_outer_error in E12, E23. subst. reflexivity.
Qed.

Lemma join_strategies_agree_witness :
  iterative_outer_join_second 3
    (Some (map Some [JoinExample.t1; JoinExample.t2; JoinExample.t3]))
  = Some (functional_outer_join
            (Some (map Some [JoinExample.t1; JoinExample.t2;
                             JoinExample.t3])))
  /\ (functional_outer_join
        (Some [Some JoinExample.t1; Some JoinExample.t2; Some JoinExample.t3])
      = rbind (functional_outer_join
                 (Some [Some JoinExample.t1; Some JoinExample.t2]))
              (fun m => functional_outer_join (Some [m; Some JoinExample.t3]))
      /\ functional_outer_join
           (Some [Some JoinExample.t1; Some JoinExample.t2;
                  Some JoinExample.t3])
         = rbind (functional_outer_join
                    (Some [Some JoinExample.t2; Some JoinExample.t3]))
                 (fun m => functional_outer_join
                             (Some [Some JoinExample.t1; m]))).
Proof.
  split.
  - apply (proj1 join_strategies_agree
             [JoinExample.t1; JoinExample.t2; JoinExample.t3] 3).
    + discriminate.
    + repeat constructor.
    + simpl. lia.
  - apply (proj2 join_strategies_agree
             JoinExample.t1 JoinExample.t2 JoinExample.t3).
    repeat constructor.
Defined.

(** C1 (the code departs from the specification).  On the empty list the
    sequential fold [functional_outer_join] raises TypeError ([reduce] of an
    empty sequence without an initial value), where the divide-and-conquer
    [iterative_outer_join_second] tests for the empty list first and returns
    [None], whatever the number of turns allowed: there the two strategies do
    not end alike. *)
Theorem functional_outer_join_empty_raises :
  functional_outer_join (Some []) = Err TypeError
  /\ (forall fuel,
        iterative_outer_join_second fuel (Some []) = Some (Ok None))
  /\ ~ (exists fuel,
          iterative_outer_join_second fuel (Some [])
          = Some (functional_outer_join (Some []))).
Proof.
  split; [reflexivity|]. split; [intros fuel; reflexivity|].
  intros [fuel E]. cbn in E. discriminate E.
Qed.

(* ================================================================== *)
(** * Further properties of the code *)

(* ------------------------------------------------------------------ *)
(** ** Strategy returns and costs, row by row *)

(** X1.  The strategy returns keep the labels of the signal table; their
    first [period_shift] rows are missing and every later row [t] holds
    [signal[t - period_shift] * returns[t]]. *)
Theorem signal_returns_rows :
  forall (h : heap) (signal returns : ref) (s r : DataFrame) (k : Z),
    nth_error h signal = Some s ->
    nth_error h returns = Some r ->
    same_labels s r = true ->
    well_formed s = true ->
    (0 <= k)%Z ->
    exists res,
      calculate_signal_returns signal returns k h = Return res h
      /\ index res = index s /\ columns res = columns s
      /\ forall j t,
           j < ncols s -> t < nrows s ->
           cell_at res j t
           = if t <? Z.to_nat k then NaN
             else cell_mul (cell_at s j (t - Z.to_nat k)) (cell_at r j t).
Proof.
  intros h signal returns s r k Hs Hr Hl Hwf Hk.
  eexists. split; [apply (signal_returns_runs _ _ k _ _ _ Hs Hr Hl)|].
  split; [reflexivity|]. split; [reflexivity|].
  intros j t Hj Ht. unfold cell_mul at 1. rewrite cell_at_zip.
  rewrite cell_at_shift by exact Hk.
  rewrite (well_formed_col _ _ Hwf).
  destruct (Nat.ltb_spec j (ncols s)) as [_|]; [|lia].
  destruct (Nat.leb_spec (nrows s) t) as [|_]; [lia|].
  rewrite orb_false_r.
  destruct (t <? Z.to_nat k); reflexivity.
Qed.

Lemma signal_returns_rows_witness :
  exists res,
    calculate_signal_returns 0 1 2%Z Scenario.objects
      = Return res Scenario.objects
    /\ index res = index Scenario.signal
    /\ columns res = columns Scenario.signal
    /\ forall j t,
         j < ncols Scenario.signal -> t < nrows Scenario.signal ->
         cell_at res j t
         = if t <? Z.to_nat 2 then NaN
           else cell_mul (cell_at Scenario.signal j (t - Z.to_nat 2))
                         (cell_at Scenario.returns j t).
Proof.
  apply (signal_returns_rows Scenario.objects 0 1 Scenario.signal
           Scenario.returns 2%Z); try reflexivity. lia.
Defined.

(** X2.  With a cost rate of zero, and signals of magnitude [2 ^ 1022] at
    most (so that the change of the signal is a finite number also as a
    float, and its product with zero is zero), the costed returns are the
    plain returns wherever the current signal is present, and are missing
    wherever the current signal is missing. *)
Theorem zero_cost_returns :
  forall (h : heap) (signal returns : ref) (s r : DataFrame) (k : Z),
    nth_error h signal = Some s ->
    nth_error h returns = Some r ->
    same_labels s r = true ->
    magnitude_within half_range s = true ->
    exists plain costed,
      calculate_signal_returns signal returns k h = Return plain h
      /\ calculate_signal_returns_with_tc signal returns (Some 0%Qc) k h
         = Return costed h
      /\ forall j t,
           (cell_at s j t <> NaN -> cell_at costed j t = cell_at plain j t)
           /\ (cell_at s j t = NaN -> cell_at costed j t = NaN).
Proof.
  intros h signal returns s r k Hs Hr Hl _.
  do 2 eexists.
  split; [apply (signal_returns_runs _ _ k _ _ _ Hs Hr Hl)|].
  split; [apply (signal_returns_with_tc_runs _ _ _ k _ _ _ Hs Hr Hl)|].
  intros j t. rewrite with_tc_cell.
  unfold cell_mul at 3. rewrite cell_at_zip. fold cell_mul.
  destruct (cell_at s j t) as [c|]; split; intros H;
    try discriminate H; try (exfalso; apply H; reflexivity).
  - destruct (cell_at (df_shift k s) j t) as [a|]; [|reflexivity].
    destruct (cell_at r j t) as [b|]; [|reflexivity].
    cbn. f_equal. ring.
  - destruct (cell_at (df_shift k s) j t) as [a|]; [|reflexivity].
    destruct (cell_at r j t) as [b|]; reflexivity.
Qed.

Lemma zero_cost_returns_witness :
  exists plain costed,
    calculate_signal_returns 0 1 1%Z Scenario.objects
      = Return plain Scenario.objects
    /\ calculate_signal_returns_with_tc 0 1 (Some 0%Qc) 1%Z Scenario.objects
       = Return costed Scenario.objects
    /\ forall j t,
         (cell_at Scenario.signal j t <> NaN ->
          cell_at costed j t = cell_at plain j t)
         /\ (cell_at Scenario.signal j t = NaN -> cell_at costed j t = NaN).
Proof.
  apply (zero_cost_returns Scenario.objects 0 1 Scenario.signal
           Scenario.returns 1%Z); reflexivity.
Defined.

Lemma Qcmult_nonneg (a b : Qc) : (0 <= a)%Qc -> (0 <= b)%Qc -> (0 <= a * b)%Qc.
Proof.
  intros Ha Hb. rewrite <- (Qcmult_0_l b).
  apply Qcmult_le_compat_r; assumption.
Qed.

(** X3.  For a cost rate that is not negative, the transaction costs are
    nowhere negative, and they are zero at every row [t >= period_shift]
    where [signal[t - period_shift]] and [signal[t]] are the same value. *)
Theorem signal_tc_nonnegative :
  forall (h : heap) (signal : ref) (s : DataFrame) (c : Qc) (k : Z),
    nth_error h signal = Some s ->
    well_formed s = true ->
    (0 <= c)%Qc ->
    (0 <= k)%Z ->
    exists res,
      calculate_signal_tc signal (Some c) k h = Return res h
      /\ (forall j t x, cell_at res j t = Some x -> (0 <= x)%Qc)
      /\ (forall j t a,
            j < ncols s -> Z.to_nat k <= t < nrows s ->
            cell_at s j (t - Z.to_nat k) = Some a ->
            cell_at s j t = Some a ->
            cell_at res j t = Some 0%Qc).
Proof.
  intros h signal s c k Hs Hwf Hc Hk.
  eexists. split; [apply (signal_tc_runs _ _ k _ _ Hs)|].
  assert (Hcell : forall j t,
    cell_at (df_scalar cell_mul
               (df_abs (frame_zip cell_sub (df_shift k s) s)) (Some c)) j t
    = cell_mul (cell_abs (cell_sub (cell_at (df_shift k s) j t)
                                   (cell_at s j t))) (Some c)).
  { intros j t. unfold df_scalar. rewrite cell_at_map by reflexivity.
    unfold df_abs. rewrite cell_at_map by reflexivity.
    unfold cell_sub at 1. rewrite cell_at_zip. reflexivity. }
  split.
  - intros j t x. rewrite Hcell.
    destruct (cell_at (df_shift k s) j t) as [a|]; [|discriminate].
    destruct (cell_at s j t) as [b|]; [|discriminate].
    cbn. intros E. injection E as <-.
    apply Qcmult_nonneg; [apply Qcabs_nonneg | exact Hc].
  - intros j t a Hj Ht Ha Hb. rewrite Hcell.
    rewrite cell_at_shift by exact Hk.
    rewrite (well_formed_col _ _ Hwf).
    destruct (Nat.ltb_spec j (ncols s)) as [_|]; [|lia].
    destruct (Nat.ltb_spec t (Z.to_nat k)) as [|_]; [lia|].
    destruct (Nat.leb_spec (nrows s) t) as [|_]; [lia|].
    cbn [orb]. rewrite Ha, Hb. cbn. f_equal.
    replace (a - a)%Qc with 0%Qc by ring.
    rewrite Qcabs_pos by apply Qcle_refl. ring.
Qed.

Lemma signal_tc_nonnegative_witness :
  exists res,
    calculate_signal_tc 0 (Some (Q2Qc (1 # 1000))) 1%Z Scenario.objects
      = Return res Scenario.objects
    /\ (forall j t x, cell_at res j t = Some x -> (0 <= x)%Qc)
    /\ (forall j t a,
          j < ncols Scenario.signal ->
          Z.to_nat 1 <= t < nrows Scenario.signal ->
          cell_at Scenario.signal j (t - Z.to_nat 1) = Some a ->
          cell_at Scenario.signal j t = Some a ->
          cell_at res j t = Some 0%Qc).
Proof.
  apply (signal_tc_nonnegative Scenario.objects 0 Scenario.signal
           (Q2Qc (1 # 1000)) 1%Z); try reflexivity.
  - discriminate.
  - lia.
Defined.

(* ------------------------------------------------------------------ *)
(** ** Counting trades *)

Lemma Qc_ltb_lt (x y : Qc) : Qc_ltb x y = true <-> (x < y)%Qc.
Proof.
  unfold Qc_ltb. rewrite Qclt_alt.
  destruct (x ?= y)%Qc; split; congruence.
Qed.

Lemma abs_diff_positive (a b : Qc) :
  Qc_ltb 0%Qc (Qcabs (a - b)) = if Qc_eq_dec a b then false else true.
Proof.
  destruct (Qc_eq_dec a b) as [->|N].
  - replace (b - b)%Qc with 0%Qc by ring.
    rewrite Qcabs_pos by apply Qcle_refl. reflexivity.
  - apply Qc_ltb_lt.
    destruct (Qcle_lt_or_eq _ _ (Qcabs_nonneg (a - b))) as [H|H];
      [exact H|].
    exfalso. apply N. symmetry in H. apply Qcabs_null in H.
    replace a with ((a - b) + b)%Qc by ring. rewrite H. ring.
Qed.

Lemma shift_up_one (l : list cell) :
  shift_col NaN (-1) l = tl l ++ match l with [] => [] | _ => [NaN] end.
Proof. destruct l; reflexivity. Qed.

Lemma changes_cons x y l :
  changes (x :: y :: l)
  = match x, y with
    | Some a, Some b => (if Qc_eq_dec a b then 0 else 1) + changes (y :: l)
    | _, _ => changes (y :: l)
    end.
Proof. destruct x, y; reflexivity. Qed.

Lemma count_changes_from (l : list cell) :
  List.length
    (filter notnull
       (map (fun x => if cell_gt x (Some 0%Qc) then x else NaN)
          (map cell_abs (map2 cell_sub l (tl l ++ [NaN])))))
  = changes l.
Proof.
  induction l as [|x l IH]; [reflexivity|].
  destruct l as [|y l].
  - destruct x; reflexivity.
  - change (tl (x :: y :: l) ++ [NaN]) with (y :: (tl (y :: l) ++ [NaN])).
    cbn [map2 map]. rewrite changes_cons.
    destruct x as [a|]; destruct y as [b|];
      cbn [cell_sub lift2 cell_abs option_map cell_gt filter notnull];
      try (rewrite <- IH; reflexivity).
    rewrite abs_diff_positive.
    destruct (Qc_eq_dec a b); cbn [filter notnull List.length];
      rewrite <- IH; reflexivity.
Qed.

Lemma count_changes (l : list cell) :
  count_col
    (map (fun x => if cell_gt x (Some 0%Qc) then x else NaN)
       (map cell_abs (map2 cell_sub l (shift_col NaN (-1) l))))
  = Z.of_nat (changes l).
Proof.
  unfold count_col. f_equal. rewrite shift_up_one.
  destruct l as [|x l]; [reflexivity|]. apply count_changes_from.
Qed.

Lemma changes_bound (l : list cell) : changes l <= Nat.pred (List.length l).
Proof.
  induction l as [|x l IH]; [reflexivity|].
  destruct l as [|y l]; [destruct x; reflexivity|].
  rewrite changes_cons. cbn [List.length Nat.pred] in IH |- *.
  destruct x as [a|]; destruct y as [b|]; try lia.
  destruct (Qc_eq_dec a b); lia.
Qed.

(** X4.  The trade count of a column is the number of rows at which the
    signal and the next signal are both present and differ; it is at most
    the number of rows less one.  The result is indexed by the column labels
    of the signal and has the single column [Trades]. *)
Theorem trade_count_is_changes :
  forall (h : heap) (signal : ref) (s : DataFrame),
    nth_error h signal = Some s ->
    calculate_trade_no signal h
    = Return (mkFrame (columns s) ["Trades"%string]
                [map (fun c => Z.of_nat (changes c)) (data s)]) h
    /\ forall c, In c (data s) -> changes c <= Nat.pred (List.length c).
Proof.
  intros h signal s Hs. split; [|intros c _; apply changes_bound].
  unfold calculate_trade_no. rewrite (bind_load _ Hs).
  unfold df_sub. rewrite df_arith_same by exact (same_labels_refl s).
  rewrite bind_lift_ok. cbv zeta.
  unfold getitem_mask, mask_over.
  rewrite (proj2 (same_labels_true _ _)) by (split; reflexivity).
  cbn [rbind]. rewrite bind_lift_ok. unfold ret. f_equal. f_equal.
  cbn [columns data index df_abs frame_map frame_zip df_cmp_scalar df_shift
       frame_cols].
  rewrite map2_diag, !map_map, map2_diag, map_map. f_equal.
  apply map_ext. intros c.
  rewrite map2_diag. apply count_changes.
Qed.

Lemma trade_count_is_changes_witness :
  calculate_trade_no 0 Scenario.objects
  = Return (mkFrame (columns Scenario.signal) ["Trades"%string]
              [map (fun c => Z.of_nat (changes c)) (data Scenario.signal)])
      Scenario.objects
  /\ forall c, In c (data Scenario.signal) ->
               changes c <= Nat.pred (List.length c).
Proof.
  apply (trade_count_is_changes Scenario.objects 0 Scenario.signal).
  reflexivity.
Defined.

(* ------------------------------------------------------------------ *)
(** ** The risk-stop overlay, row by row *)

Lemma map2_fuse {A B C D E} (g : C -> D -> E) (a : A -> B -> C)
  (k : A -> B -> D) l m :
  map2 g (map2 a l m) (map2 k l m) = map2 (fun x y => g (a x y) (k x y)) l m.
Proof.
  revert m. induction l as [|x l IH]; intros [|y m]; simpl; try reflexivity.
  rewrite IH. reflexivity.
Qed.

Lemma map2_map_l {A A' B C} (g : A' -> B -> C) (k : A -> A') l m :
  map2 g (map k l) m = map2 (fun x y => g (k x) y) l m.
Proof.
  revert m. induction l as [|x l IH]; intros [|y m]; simpl; try reflexivity.
  rewrite IH. reflexivity.
Qed.

Lemma map_map2 {A B C D} (k : C -> D) (g : A -> B -> C) l m :
  map k (map2 g l m) = map2 (fun x y => k (g x y)) l m.
Proof.
  revert m. induction l as [|x l IH]; intros [|y m]; simpl; try reflexivity.
  rewrite IH. reflexivity.
Qed.

Lemma well_formed_parts {L A} (f : Frame L A) :
  well_formed f = true ->
  List.length (data f) = List.length (columns f)
  /\ forallb (fun c => List.length c =? List.length (index f)) (data f)
     = true.
Proof.
  unfold well_formed, ncols, nrows. rewrite andb_true_iff, Nat.eqb_eq. tauto.
Qed.

(** What the shared last lines do. *)
Lemma overlay_tail_runs (h : heap) (signal : ref) (s : DataFrame)
  (ind : BoolFrame) :
  nth_error h signal = Some s ->
  index ind = index s -> ncols ind = ncols s ->
  overlay_tail signal (df_abs (frame_zip cell_sub s (df_shift 1 s))) ind h
  = Return
      (df_ffill (mkFrame (index s) (columns s)
                   (map2 overlay_col (data s) (data ind))))
      (update signal
         (mkFrame (index s) (columns s)
            (map2 overlay_col (data s) (data ind))) h).
Proof.
  intros Hs Hidx Hnc.
  set (ind' := mkFrame (index ind) (columns s) (data ind)).
  unfold overlay_tail.
  rewrite (bind_load _ Hs).
  unfold set_columns. rewrite Hnc. unfold ncols. rewrite Nat.eqb_refl.
  rewrite bind_lift_ok. fold ind'.
  rewrite (bind_load _ Hs).
  rewrite (setitem_mask_same s ind') by (assumption || reflexivity).
  rewrite bind_lift_ok.
  rewrite (bind_store _ _ Hs).
  rewrite (setitem_mask_same _ ind') by (assumption || reflexivity).
  rewrite bind_lift_ok.
  rewrite (bind_load _ (nth_error_update_same _ _ _ _ Hs)).
  rewrite setitem_mask_same by reflexivity.
  rewrite bind_lift_ok.
  rewrite (bind_store _ _ (nth_error_update_same _ _ _ _ Hs)).
  assert (Hupd : forall d1 d2 r (g : heap),
             update r d2 (update r d1 g) = update r d2 g).
  { intros d1 d2 r g. revert r.
    induction g as [|x g IH]; intros [|r]; simpl; try reflexivity.
    rewrite IH. reflexivity. }
  rewrite Hupd.
  rewrite (bind_load _ (nth_error_update_same _ _ _ _ Hs)).
  cbn [index columns data df_cmp_scalar frame_map].
  rewrite risk_reset_data.
  assert (Hdata :
    map2 (map2 (fun (x : cell) (b : bool) => if b then NaN else x))
      (map2 (map2 (fun (x : cell) (b : bool) => if b then Some 0%Qc else x))
         (data s) (data ind'))
      (map (map (fun a : cell => cell_eqb a (Some 0%Qc)))
         (map2 (map2 (fun (x : cell) (b : bool) =>
                        if b then Some 1%Qc else x))
            (map (fun c => map cell_abs
                             (map2 cell_sub c (shift_col NaN 1 c)))
               (data s))
            (data ind')))
    = map2 overlay_col (data s) (data ind)).
  { cbn [ind' data]. rewrite map2_map_l, map_map2, map2_fuse. reflexivity. }
  rewrite <- Hdata. reflexivity.
Qed.

Lemma risk_stop_is_tail signal cum stop_loss take_profit h s ind :
  nth_error h signal = Some s ->
  stop_flags cum stop_loss take_profit h = Return ind h ->
  calculate_risk_stop_signals signal cum stop_loss take_profit h
  = overlay_tail signal (df_abs (frame_zip cell_sub s (df_shift 1 s))) ind h.
Proof.
  intros Hs Hflags. unfold calculate_risk_stop_signals.
  rewrite (bind_load _ Hs).
  unfold df_sub. rewrite df_arith_same by exact (same_labels_refl s).
  rewrite bind_lift_ok.
  unfold bind at 1. rewrite Hflags. reflexivity.
Qed.

Lemma abs_diff_zero (a b : Qc) : Qc_eqb (Qcabs (a - b)) 0%Qc = Qc_eqb a b.
Proof.
  destruct (Qc_eqb a b) eqn:E.
  - apply Qc_eqb_iff in E. subst b. apply Qc_eqb_iff.
    replace (a - a)%Qc with 0%Qc by ring. apply Qcabs_pos, Qcle_refl.
  - destruct (Qc_eqb (Qcabs (a - b)) 0%Qc) eqn:F; [|reflexivity].
    apply Qc_eqb_iff, Qcabs_null in F.
    assert (Eab : a = b).
    { replace a with ((a - b) + b)%Qc by ring. rewrite F. ring. }
    apply Qc_eqb_iff in Eab. congruence.
Qed.

Lemma nth_overlay_col (c : list cell) (f : list bool) t :
  t < List.length c -> List.length f = List.length c ->
  nth t (overlay_col c f) NaN
  = if nth t f false then Some 0%Qc
    else if match t with
            | 0 => false
            | S p => cell_eqb (nth t c NaN) (nth p c NaN)
            end
         then NaN
         else nth t c NaN.
Proof.
  intros Ht Hf. unfold overlay_col.
  assert (Lsub : List.length (map2 cell_sub c (shift_col NaN 1 c))
                 = List.length c).
  { rewrite length_map2, length_shift_col. apply Nat.min_id. }
  assert (Htf : t < List.length f) by (rewrite Hf; exact Ht).
  rewrite (nth_map2 _ _ _ _ NaN false);
    [| rewrite length_map2, Hf, Nat.min_id; exact Ht
     | rewrite length_map, length_map2, length_map, Lsub, Hf, Nat.min_id;
       exact Ht].
  rewrite (nth_map2 _ _ _ _ NaN false) by assumption.
  rewrite (nth_map_default (fun a => cell_eqb a (Some 0%Qc)) _ t NaN false)
    by reflexivity.
  rewrite (nth_map2 _ _ _ _ NaN false)
    by (rewrite ?length_map, ?Lsub; assumption).
  rewrite (nth_map_default cell_abs _ t NaN NaN) by reflexivity.
  unfold cell_sub at 1. rewrite nth_map2_lift2.
  rewrite nth_shift_col by lia. change (Z.to_nat 1) with 1.
  destruct (nth t f false); [reflexivity|].
  destruct (Nat.leb_spec (List.length c) t) as [|_]; [lia|].
  rewrite orb_false_r.
  destruct t as [|p].
  - cbn [Nat.ltb Nat.leb]. rewrite lift2_nan_r. reflexivity.
  - destruct (Nat.ltb_spec (S p) 1) as [|_]; [lia|].
    replace (S p - 1) with p by lia.
    destruct (nth (S p) c NaN) as [a|]; [|reflexivity].
    destruct (nth p c NaN) as [b|]; [|reflexivity].
    cbn [lift2 cell_abs option_map cell_eqb].
    rewrite abs_diff_zero. reflexivity.
Qed.

Lemma length_overlay_col (c : list cell) (f : list bool) :
  List.length f = List.length c ->
  List.length (overlay_col c f) = List.length c.
Proof.
  intros Hf. unfold overlay_col.
  rewrite length_map2, length_map2, length_map, length_map2, length_map,
    length_map2, length_shift_col, Hf, !Nat.min_id. reflexivity.
Qed.

Lemma nth_ffill_from (l : list cell) :
  forall last t,
    t < List.length l ->
    nth t (ffill_from last l) NaN
    = match nth t l NaN with
      | Some x => Some x
      | None => match t with
                | 0 => last
                | S p => nth p (ffill_from last l) NaN
                end
      end.
Proof.
  induction l as [|x l IH]; intros last t Ht; [simpl in Ht; lia|].
  destruct t as [|t].
  - destruct x; reflexivity.
  - simpl in Ht.
    destruct x as [v|]; cbn [ffill_from nth].
    + rewrite IH by lia. destruct (nth t l NaN); [reflexivity|].
      destruct t as [|q]; [|reflexivity].
      destruct l as [|y l]; [simpl in Ht; lia|]. reflexivity.
    + rewrite IH by lia. destruct (nth t l NaN); [reflexivity|].
      destruct t as [|q]; [|reflexivity].
      destruct l as [|y l]; [simpl in Ht; lia|]. reflexivity.
Qed.

Lemma overlay_cells (s : DataFrame) (ind : BoolFrame) j t :
  well_formed s = true -> well_formed ind = true ->
  index ind = index s -> ncols ind = ncols s ->
  j < ncols s -> t < nrows s ->
  let left := mkFrame (index s) (columns s)
                (map2 overlay_col (data s) (data ind)) in
  cell_at left j t
  = (if flag_at ind j t then Some 0%Qc
     else if held s j t then NaN else cell_at s j t)
  /\ cell_at (df_ffill left) j t
     = match cell_at left j t with
       | Some x => Some x
       | None => match t with
                 | 0 => NaN
                 | S p => cell_at (df_ffill left) j p
                 end
       end.
Proof.
  intros Ws Wi Hidx Hnc Hj Ht left.
  destruct (well_formed_parts _ Ws) as [Ls _].
  destruct (well_formed_parts _ Wi) as [Li _].
  assert (Lc : List.length (col s j) = nrows s).
  { rewrite (well_formed_col _ _ Ws).
    destruct (Nat.ltb_spec j (ncols s)); [reflexivity | lia]. }
  assert (Lf : List.length (col ind j) = nrows s).
  { rewrite (well_formed_col _ _ Wi). rewrite Hnc.
    destruct (Nat.ltb_spec j (ncols s)); [|lia].
    unfold nrows. rewrite Hidx. reflexivity. }
  assert (Hcol : col left j = overlay_col (col s j) (col ind j)).
  { unfold col, left. cbn [data].
    apply nth_map2; [rewrite Ls | rewrite Li]; unfold ncols in *; lia. }
  assert (Hleft : forall u, cell_at left j u = nth u (col left j) NaN)
    by reflexivity.
  split.
  - rewrite Hleft, Hcol. rewrite nth_overlay_col by lia.
    unfold flag_at, held, cell_at. fold (col ind j). fold (col s j).
    reflexivity.
  - assert (Hfill : forall u,
              cell_at (df_ffill left) j u = nth u (ffill_col (col left j)) NaN).
    { intros u. unfold cell_at. fold (col (df_ffill left) j).
      unfold df_ffill. rewrite col_frame_cols by reflexivity. reflexivity. }
    rewrite !Hfill, Hleft. unfold ffill_col.
    rewrite nth_ffill_from.
    + destruct (nth t (col left j) NaN); [reflexivity|].
      destruct t; [reflexivity|]. rewrite Hfill. reflexivity.
    + rewrite Hcol, length_overlay_col by (rewrite Lf, Lc; reflexivity).
      rewrite Lc. exact Ht.
Qed.

(** X5.  The table returned by the static risk-stop overlay, row by row: 0
    where a stop condition is true; the value of the row above where the
    signal repeats its previous value (so a forced 0 is held until the signal
    next moves) or is missing; the signal itself where it moved. *)
Theorem risk_stop_holds_flat :
  forall (h : heap) (signal cum : ref) (stop_loss take_profit : level)
         (s : DataFrame) (ind : BoolFrame),
    nth_error h signal = Some s ->
    stop_flags cum stop_loss take_profit h = Return ind h ->
    index ind = index s -> ncols ind = ncols s ->
    well_formed s = true -> well_formed ind = true ->
    exists out h',
      calculate_risk_stop_signals signal cum stop_loss take_profit h
      = Return out h'
      /\ forall j t,
           j < ncols s -> t < nrows s ->
           cell_at out j t
           = if flag_at ind j t then Some 0%Qc
             else
               let above := match t with
                            | 0 => NaN
                            | S p => cell_at out j p
                            end in
               if held s j t then above
               else match cell_at s j t with
                    | Some x => Some x
                    | None => above
                    end.
Proof.
  intros h signal cum sl tp s ind Hs Hflags Hidx Hnc Ws Wi.
  do 2 eexists. split.
  - rewrite (risk_stop_is_tail _ _ _ _ _ _ _ Hs Hflags).
    apply (overlay_tail_runs _ _ _ _ Hs Hidx Hnc).
  - intros j t Hj Ht.
    destruct (overlay_cells s ind j t Ws Wi Hidx Hnc Hj Ht) as [Hl Ho].
    cbv zeta in Hl, Ho |- *. rewrite Ho, Hl.
    destruct (flag_at ind j t); [reflexivity|].
    destruct (held s j t); [reflexivity|].
    destruct (cell_at s j t); reflexivity.
Qed.

Lemma risk_stop_holds_flat_witness :
  exists out h',
    calculate_risk_stop_signals 0 1 (Scalar (num (-1)))
      (Scalar (num (5 # 100))) OverlayExample.objects = Return out h'
    /\ forall j t,
         j < ncols OverlayExample.signal -> t < nrows OverlayExample.signal ->
         cell_at out j t
         = if flag_at OverlayExample.flags j t then Some 0%Qc
           else
             let above := match t with
                          | 0 => NaN
                          | S p => cell_at out j p
                          end in
             if held OverlayExample.signal j t then above
             else match cell_at OverlayExample.signal j t with
                  | Some x => Some x
                  | None => above
                  end.
Proof.
  apply (risk_stop_holds_flat OverlayExample.objects 0 1
           (Scalar (num (-1))) (Scalar (num (5 # 100)))
           OverlayExample.signal OverlayExample.flags);
    vm_compute; reflexivity.
Defined.

(** X6.  After the static risk-stop overlay has returned, the caller's
    signal table holds 0 where a stop condition was true, NaN where the
    signal repeated its previous value, and the old value elsewhere; every
    other table is as it was. *)
Theorem risk_stop_leaves_blanked_signal :
  forall (h : heap) (signal cum : ref) (stop_loss take_profit : level)
         (s : DataFrame) (ind : BoolFrame),
    nth_error h signal = Some s ->
    stop_flags cum stop_loss take_profit h = Return ind h ->
    index ind = index s -> ncols ind = ncols s ->
    well_formed s = true -> well_formed ind = true ->
    exists out h' left,
      calculate_risk_stop_signals signal cum stop_loss take_profit h
      = Return out h'
      /\ nth_error h' signal = Some left
      /\ index left = index s /\ columns left = columns s
      /\ (forall r, r <> signal -> nth_error h' r = nth_error h r)
      /\ forall j t,
           j < ncols s -> t < nrows s ->
           cell_at left j t
           = if flag_at ind j t then Some 0%Qc
             else if held s j t then NaN else cell_at s j t.
Proof.
  intros h signal cum sl tp s ind Hs Hflags Hidx Hnc Ws Wi.
  do 3 eexists. split.
  - rewrite (risk_stop_is_tail _ _ _ _ _ _ _ Hs Hflags).
    apply (overlay_tail_runs _ _ _ _ Hs Hidx Hnc).
  - split; [apply (nth_error_update_same _ _ _ _ Hs)|].
    split; [reflexivity|]. split; [reflexivity|].
    split; [intros r Hr; apply nth_error_update_other, Hr|].
    intros j t Hj Ht.
    apply (overlay_cells s ind j t Ws Wi Hidx Hnc Hj Ht).
Qed.

Lemma risk_stop_leaves_blanked_signal_witness :
  exists out h' left,
    calculate_risk_stop_signals 0 1 (Scalar (num (-1)))
      (Scalar (num (5 # 100))) OverlayExample.objects = Return out h'
    /\ nth_error h' 0 = Some left
    /\ index left = index OverlayExample.signal
    /\ columns left = columns OverlayExample.signal
    /\ (forall r, r <> 0 -> nth_error h' r = nth_error OverlayExample.objects r)
    /\ forall j t,
         j < ncols OverlayExample.signal -> t < nrows OverlayExample.signal ->
         cell_at left j t
         = if flag_at OverlayExample.flags j t then Some 0%Qc
           else if held OverlayExample.signal j t then NaN
                else cell_at OverlayExample.signal j t.
Proof.
  apply (risk_stop_leaves_blanked_signal OverlayExample.objects 0 1
           (Scalar (num (-1))) (Scalar (num (5 # 100)))
           OverlayExample.signal OverlayExample.flags);
    vm_compute; reflexivity.
Defined.

(** X7.  The overlay with externally defined stops does the same with the
    flags [|stop| >= 1]: 0 at a flagged row, held until the signal next
    moves. *)
Theorem defined_stops_hold_flat :
  forall (h : heap) (signal stops : ref) (s st : DataFrame),
    nth_error h signal = Some s ->
    nth_error h stops = Some st ->
    index st = index s -> ncols st = ncols s ->
    well_formed s = true -> well_formed st = true ->
    exists out h',
      calculate_risk_stop_defined_signals signal stops h = Return out h'
      /\ forall j t,
           j < ncols s -> t < nrows s ->
           cell_at out j t
           = if cell_ge (cell_abs (cell_at st j t)) (Some 1%Qc) then Some 0%Qc
             else
               let above := match t with
                            | 0 => NaN
                            | S p => cell_at out j p
                            end in
               if held s j t then above
               else match cell_at s j t with
                    | Some x => Some x
                    | None => above
                    end.
Proof.
  intros h signal stops s st Hs Hst Hidx Hnc Ws Wst.
  set (ind := df_cmp_scalar cell_ge (df_abs st) (Some 1%Qc)).
  assert (Wi : well_formed ind = true).
  { unfold well_formed, ind, df_cmp_scalar, df_abs, frame_map, ncols, nrows.
    cbn [data columns index]. destruct (well_formed_parts _ Wst) as [L W].
    rewrite !length_map, L, Nat.eqb_refl. cbn [andb].
    rewrite forallb_forall in *. intros c Hc.
    rewrite map_map in Hc. apply in_map_iff in Hc.
    destruct Hc as [c0 [<- Hc0]]. rewrite !length_map. apply (W c0 Hc0). }
  do 2 eexists. split.
  - unfold calculate_risk_stop_defined_signals.
    rewrite (bind_load _ Hs).
    unfold df_sub. rewrite df_arith_same by exact (same_labels_refl s).
    rewrite bind_lift_ok. rewrite (bind_load _ Hst). cbv zeta.
    apply (overlay_tail_runs h signal s ind Hs Hidx Hnc).
  - intros j t Hj Ht.
    destruct (overlay_cells s ind j t Ws Wi Hidx Hnc Hj Ht) as [Hl Ho].
    cbv zeta in Hl, Ho |- *. rewrite Ho, Hl.
    assert (Hflag : flag_at ind j t
                    = cell_ge (cell_abs (cell_at st j t)) (Some 1%Qc)).
    { unfold flag_at, ind, df_cmp_scalar, df_abs, frame_map, cell_at.
      cbn [data]. rewrite map_map.
      rewrite (nth_map_default
                 (fun c => map (fun a => cell_ge a (Some 1%Qc))
                             (map cell_abs c)) _ j [] []) by reflexivity.
      rewrite map_map.
      apply (nth_map_default
               (fun a => cell_ge (cell_abs a) (Some 1%Qc)) _ t NaN false).
      reflexivity. }
    rewrite Hflag.
    destruct (cell_ge _ _); [reflexivity|].
    destruct (held s j t); [reflexivity|].
    destruct (cell_at s j t); reflexivity.
Qed.

Lemma defined_stops_hold_flat_witness :
  exists out h',
    calculate_risk_stop_defined_signals 0 1 OverlayExample.objects'
      = Return out h'
    /\ forall j t,
         j < ncols OverlayExample.signal -> t < nrows OverlayExample.signal ->
         cell_at out j t
         = if cell_ge (cell_abs (cell_at OverlayExample.stops j t))
                      (Some 1%Qc)
           then Some 0%Qc
           else
             let above := match t with
                          | 0 => NaN
                          | S p => cell_at out j p
                          end in
             if held OverlayExample.signal j t then above
             else match cell_at OverlayExample.signal j t with
                  | Some x => Some x
                  | None => above
                  end.
Proof.
  apply (defined_stops_hold_flat OverlayExample.objects' 0 1
           OverlayExample.signal OverlayExample.stops); reflexivity.
Defined.

(** *** Differences and running sums *)

Lemma difference_cell (c : list cell) t :
  1 <= t -> t < List.length c ->
  nth t (map2 cell_sub c (shift_col NaN 1 c)) NaN
  = cell_sub (nth t c NaN) (nth (t - 1) c NaN).
Proof.
  intros H1 Ht. unfold cell_sub at 1. rewrite nth_map2_lift2.
  rewrite nth_shift_col by discriminate. change (Z.to_nat 1) with 1.
  assert (E1 : (t <? 1) = false) by (apply Nat.ltb_ge; exact H1).
  assert (E2 : (List.length c <=? t) = false) by (apply Nat.leb_gt; exact Ht).
  rewrite E1, E2. reflexivity.
Qed.

Lemma present_cell (c : list cell) t :
  forallb notnull c = true -> t < List.length c ->
  exists v, nth t c NaN = Some v.
Proof.
  intros Hc Ht. rewrite forallb_forall in Hc.
  pose proof (Hc _ (nth_In c NaN Ht)) as Hn.
  destruct (nth t c NaN) as [v|]; [exists v; reflexivity | discriminate Hn].
Qed.

Lemma running_sum_of_differences (c : list cell) :
  forallb notnull c = true ->
  nth 0 (cumsum_col (map2 cell_sub c (shift_col NaN 1 c))) NaN = NaN
  /\ (1 < List.length c ->
      nth 1 (cumsum_col (map2 cell_sub c (shift_col NaN 1 c))) NaN
      = cell_sub (nth 1 c NaN) (nth 0 c NaN))
  /\ forall t,
       1 <= t -> S t < List.length c ->
       nth (S t) (cumsum_col (map2 cell_sub c (shift_col NaN 1 c))) NaN
       = cell_add (nth t (cumsum_col (map2 cell_sub c (shift_col NaN 1 c)))
                     NaN)
                  (cell_sub (nth (S t) c NaN) (nth t c NaN)).
Proof.
  intros Hc. split; [|split].
  - unfold cumsum_col. rewrite cum_from_fold.
    unfold cell_sub. rewrite nth_map2_lift2.
    rewrite nth_shift_col by discriminate. change (Z.to_nat 1) with 1.
    change (0 <? 1) with true. cbn [orb]. rewrite lift2_nan_r. reflexivity.
  - intros H1.
    destruct c as [|a [|b c]]; try (cbn in H1; lia).
    cbn [forallb] in Hc. apply andb_true_iff in Hc. destruct Hc as [Ha Hc].
    apply andb_true_iff in Hc. destruct Hc as [Hb _].
    destruct a as [x|]; [|discriminate Ha].
    destruct b as [y|]; [|discriminate Hb].
    unfold cumsum_col, shift_col.
    change (0 <=? 1)%Z with true. cbv iota. change (Z.to_nat 1) with 1.
    cbn [repeat app List.length firstn map2 cell_sub lift2 cum_from nth].
    rewrite Qcplus_0_l. reflexivity.
  - intros t H1 Ht.
    assert (Ht' : t < List.length c) by (apply Nat.lt_succ_l; exact Ht).
    pose proof (difference_cell c t H1 Ht') as Dt.
    pose proof (difference_cell c (S t) (le_S _ _ H1) Ht) as Dst.
    replace (S t - 1) with t in Dst by lia.
    destruct (present_cell c (S t) Hc Ht) as [v Ev].
    destruct (present_cell c t Hc Ht') as [u Eu].
    assert (Hp : t - 1 < List.length c) by lia.
    destruct (present_cell c (t - 1) Hc Hp) as [w Ew].
    rewrite Ev, Eu in Dst. rewrite Eu, Ew in Dt.
    cbn [cell_sub lift2] in Dst, Dt.
    assert (Ey : exists a,
               nth t (cumsum_col (map2 cell_sub c (shift_col NaN 1 c))) NaN
               = Some a).
    { unfold cumsum_col. rewrite cum_from_fold, Dt. eexists. reflexivity. }
    destruct Ey as [a Ea]. rewrite Ea, Ev, Eu.
    unfold cumsum_col in *.
    apply (cum_from_step Qcplus 0%Qc _ t a _ Ea Dst).
Qed.

(** X8.  [cum_sum] of the one-period differences of a table without missing
    cells accumulates them from the top, under the labels of the table: the
    first row is NaN, the second is [data[1] - data[0]], and every later
    row is the row above plus [data[t] - data[t-1]]. *)
Theorem cum_sum_of_differences :
  forall (h : heap) (data_frame : ref) (d : DataFrame),
    nth_error h data_frame = Some d ->
    well_formed d = true -> no_missing d = true ->
    exists x,
      calculate_diff_returns data_frame 1 h = Return x h
      /\ forall (h' : heap) (r : ref),
           nth_error h' r = Some x ->
           exists y,
             cum_sum r h' = Return y h'
             /\ index y = index d /\ columns y = columns d
             /\ forall j,
                  j < ncols d ->
                  cell_at y j 0 = NaN
                  /\ (1 < nrows d ->
                      cell_at y j 1
                      = cell_sub (cell_at d j 1) (cell_at d j 0))
                  /\ forall t,
                       1 <= t -> S t < nrows d ->
                       cell_at y j (S t)
                       = cell_add (cell_at y j t)
                                  (cell_sub (cell_at d j (S t))
                                            (cell_at d j t)).
Proof.
  intros h data_frame d Hd Wd Nd.
  eexists. split.
  - unfold calculate_diff_returns. rewrite (bind_load _ Hd).
    unfold df_sub. rewrite df_arith_same by exact (same_labels_refl d).
    reflexivity.
  - intros h' r Hr. eexists. split.
    + unfold cum_sum. rewrite (bind_load _ Hr). reflexivity.
    + split; [reflexivity|]. split; [reflexivity|].
      intros j Hj.
      assert (Lc : List.length (nth j (data d) []) = nrows d).
      { pose proof (well_formed_col d j Wd) as L. unfold col in L.
        rewrite L. apply Nat.ltb_lt in Hj. rewrite Hj. reflexivity. }
      assert (Nc : forallb notnull (nth j (data d) []) = true).
      { unfold no_missing in Nd. rewrite forallb_forall in Nd.
        apply Nd. apply nth_In.
        destruct (well_formed_parts d Wd) as [L _]. rewrite L. exact Hj. }
      assert (Hcol : forall t,
                 cell_at (df_cumsum
                            (frame_zip cell_sub d (df_shift 1 d))) j t
                 = nth t (cumsum_col
                            (map2 cell_sub (nth j (data d) [])
                               (shift_col NaN 1 (nth j (data d) [])))) NaN).
      { intros t. unfold cell_at, df_cumsum, df_shift, frame_zip, frame_cols.
        cbn [data].
        rewrite (nth_map_default cumsum_col _ j [] []) by reflexivity.
        rewrite nth_map2_cols.
        rewrite (nth_map_default (shift_col NaN 1) _ j [] []) by reflexivity.
        reflexivity. }
      destruct (running_sum_of_differences _ Nc) as [H0 [H1 Hstep]].
      rewrite <- Lc. split; [|split].
      * rewrite Hcol. exact H0.
      * intros Hn. rewrite Hcol. exact (H1 Hn).
      * intros t Ht1 Ht. rewrite !Hcol. exact (Hstep t Ht1 Ht).
Qed.

Lemma cum_sum_of_differences_witness :
  exists x,
    calculate_diff_returns 0 1 OverlayExample.objects
    = Return x OverlayExample.objects
    /\ forall (h' : heap) (r : ref),
         nth_error h' r = Some x ->
         exists y,
           cum_sum r h' = Return y h'
           /\ index y = index OverlayExample.signal
           /\ columns y = columns OverlayExample.signal
           /\ forall j,
                j < ncols OverlayExample.signal ->
                cell_at y j 0 = NaN
                /\ (1 < nrows OverlayExample.signal ->
                    cell_at y j 1
                    = cell_sub (cell_at OverlayExample.signal j 1)
                               (cell_at OverlayExample.signal j 0))
                /\ forall t,
                     1 <= t -> S t < nrows OverlayExample.signal ->
                     cell_at y j (S t)
                     = cell_add (cell_at y j t)
                                (cell_sub (cell_at OverlayExample.signal j (S t))
                                          (cell_at OverlayExample.signal j t)).
Proof.
  apply (cum_sum_of_differences OverlayExample.objects 0
           OverlayExample.signal); reflexivity.
Defined.

(** *** Rows without missing cells *)

Lemma nth_take_rows {A} (d : A) rows l i' :
  i' < List.length rows ->
  nth i' (take_rows d rows l) d = nth (nth i' rows 0) l d.
Proof.
  intros Hi. unfold take_rows.
  rewrite (nth_indep _ d (nth 0 l d)) by (rewrite length_map; exact Hi).
  apply (map_nth (fun i => nth i l d)).
Qed.

Lemma take_all_rows {A} (d : A) l :
  take_rows d (seq 0 (List.length l)) l = l.
Proof.
  apply (nth_ext _ _ d d).
  - unfold take_rows. rewrite length_map, length_seq. reflexivity.
  - intros n Hn. unfold take_rows in Hn.
    rewrite length_map, length_seq in Hn.
    rewrite nth_take_rows by (rewrite length_seq; exact Hn).
    rewrite seq_nth by exact Hn. reflexivity.
Qed.

Lemma filter_all {A} (p : A -> bool) l :
  (forall x, In x l -> p x = true) -> filter p l = l.
Proof.
  induction l as [|a l IH]; intros H; [reflexivity|].
  cbn [filter]. rewrite (H a (or_introl eq_refl)).
  rewrite IH; [reflexivity|]. intros x Hx. apply H. right. exact Hx.
Qed.

Lemma complete_rows (d : DataFrame) :
  well_formed d = true -> no_missing d = true ->
  filter (row_complete d) (seq 0 (nrows d)) = seq 0 (nrows d).
Proof.
  intros Wd Nd. apply filter_all. intros i Hi.
  apply in_seq in Hi. destruct Hi as [_ Hi]. cbn in Hi.
  unfold row_complete. apply forallb_forall. intros c Hc.
  destruct (well_formed_parts d Wd) as [_ W].
  rewrite forallb_forall in W. pose proof (W c Hc) as Lc.
  apply Nat.eqb_eq in Lc.
  unfold no_missing in Nd. rewrite forallb_forall in Nd.
  pose proof (Nd c Hc) as Nc. rewrite forallb_forall in Nc.
  apply Nc. apply nth_In. rewrite Lc. exact Hi.
Qed.

Lemma dropna_complete (d : DataFrame) :
  well_formed d = true -> no_missing d = true -> dropna d = d.
Proof.
  intros Wd Nd. unfold dropna. cbv zeta.
  rewrite (complete_rows d Wd Nd).
  destruct (well_formed_parts d Wd) as [_ W].
  rewrite forallb_forall in W.
  destruct d as [idx cols dat]. unfold nrows in *. cbn [index columns data] in *.
  f_equal.
  - apply take_all_rows.
  - rewrite <- (map_id dat) at 2. apply map_ext_in. intros c Hc.
    pose proof (W c Hc) as Lc. apply Nat.eqb_eq in Lc.
    rewrite <- Lc. apply take_all_rows.
Qed.

Lemma dropna_well_formed (d : DataFrame) :
  well_formed d = true -> well_formed (dropna d) = true.
Proof.
  intros Wd. destruct (well_formed_parts d Wd) as [L _].
  unfold well_formed, dropna, ncols, nrows, take_rows. cbv zeta.
  cbn [index columns data]. rewrite !length_map, L, Nat.eqb_refl.
  cbn [andb]. apply forallb_forall. intros c Hc.
  apply in_map_iff in Hc. destruct Hc as [c0 [<- _]].
  rewrite length_map. apply Nat.eqb_refl.
Qed.

Lemma dropna_no_missing (d : DataFrame) : no_missing (dropna d) = true.
Proof.
  unfold no_missing, dropna. cbv zeta. cbn [data].
  apply forallb_forall. intros c Hc.
  apply in_map_iff in Hc. destruct Hc as [c0 [<- Hc0]].
  unfold take_rows. apply forallb_forall. intros x Hx.
  apply in_map_iff in Hx. destruct Hx as [i [<- Hi]].
  apply filter_In in Hi. destruct Hi as [_ Hi].
  unfold row_complete in Hi. rewrite forallb_forall in Hi.
  apply (Hi c0 Hc0).
Qed.

(** X9.  [remove_NaN_rows] returns a table without missing cells under the
    same column labels; each of its rows is a row of the argument that had no
    missing cell, with its label and its values; a table without missing
    cells comes back as it is, and so does the result when it is cleaned a
    second time. *)
Theorem remove_NaN_rows_keeps_complete_rows :
  forall (h : heap) (data_frame : ref) (d : DataFrame),
    nth_error h data_frame = Some d ->
    well_formed d = true ->
    exists out,
      remove_NaN_rows data_frame h = Return out h
      /\ columns out = columns d
      /\ well_formed out = true
      /\ no_missing out = true
      /\ (forall i', i' < nrows out ->
            exists i, i < nrows d
                      /\ row_complete d i = true
                      /\ nth i' (index out) 0%Z = nth i (index d) 0%Z
                      /\ forall j, j < ncols d ->
                                   cell_at out j i' = cell_at d j i)
      /\ (no_missing d = true -> out = d)
      /\ dropna out = out.
Proof.
  intros h data_frame d Hd Wd.
  exists (dropna d). split.
  { unfold remove_NaN_rows. rewrite (bind_load _ Hd). reflexivity. }
  split; [reflexivity|].
  split; [exact (dropna_well_formed d Wd)|].
  split; [exact (dropna_no_missing d)|].
  split.
  - intros i' Hi'.
    set (rows := filter (row_complete d) (seq 0 (nrows d))).
    assert (Hlen : i' < List.length rows).
    { unfold nrows, dropna, take_rows in Hi'. cbv zeta in Hi'.
      cbn [index] in Hi'. rewrite length_map in Hi'. exact Hi'. }
    assert (Hin : In (nth i' rows 0) rows) by (apply nth_In; exact Hlen).
    apply filter_In in Hin. destruct Hin as [Hseq Hrow].
    apply in_seq in Hseq. destruct Hseq as [_ Hseq]. cbn in Hseq.
    exists (nth i' rows 0).
    split; [exact Hseq|]. split; [exact Hrow|]. split.
    + unfold dropna. cbv zeta. cbn [index].
      apply (nth_take_rows 0%Z). exact Hlen.
    + intros j Hj. unfold cell_at, dropna. cbv zeta. cbn [data].
      destruct (well_formed_parts d Wd) as [L _].
      rewrite (nth_indep _ [] (take_rows NaN rows []))
        by (rewrite length_map, L; exact Hj).
      rewrite (map_nth (take_rows NaN rows)).
      apply (nth_take_rows NaN). exact Hlen.
  - split.
    + intros Nd. apply (dropna_complete d Wd Nd).
    + apply dropna_complete;
        [exact (dropna_well_formed d Wd) | exact (dropna_no_missing d)].
Qed.

Lemma remove_NaN_rows_keeps_complete_rows_witness :
  exists out,
    remove_NaN_rows 0 StopExample.objects = Return out StopExample.objects
    /\ columns out = columns StopExample.signal
    /\ well_formed out = true
    /\ no_missing out = true
    /\ (forall i', i' < nrows out ->
          exists i, i < nrows StopExample.signal
                    /\ row_complete StopExample.signal i = true
                    /\ nth i' (index out) 0%Z
                       = nth i (index StopExample.signal) 0%Z
                    /\ forall j, j < ncols StopExample.signal ->
                                 cell_at out j i'
                                 = cell_at StopExample.signal j i)
    /\ (no_missing StopExample.signal = true -> out = StopExample.signal)
    /\ dropna out = out.
Proof.
  apply (remove_NaN_rows_keeps_complete_rows StopExample.objects 0
           StopExample.signal); reflexivity.
Defined.

(** *** One pairwise outer join *)

Lemma find_pos_app_l {K} (eq_dec : forall x y : K, {x = y} + {x <> y}) k a b :
  In k a -> find_pos eq_dec k (a ++ b) = find_pos eq_dec k a.
Proof.
  induction a as [|x a IH]; intros Hin; [destruct Hin|].
  cbn [app find_pos]. destruct (eq_dec k x) as [_|N]; [reflexivity|].
  rewrite IH; [reflexivity|]. destruct Hin as [E|Hin]; [|exact Hin].
  exfalso. apply N. symmetry. exact E.
Qed.

Lemma find_pos_app_r {K} (eq_dec : forall x y : K, {x = y} + {x <> y}) k a b :
  ~ In k a ->
  find_pos eq_dec k (a ++ b)
  = option_map (Nat.add (List.length a)) (find_pos eq_dec k b).
Proof.
  induction a as [|x a IH]; intros Hn.
  - cbn [app List.length]. destruct (find_pos eq_dec k b); reflexivity.
  - cbn [app find_pos List.length].
    destruct (eq_dec k x) as [E|_]; [exfalso; apply Hn; left; auto|].
    rewrite IH by (intros H; apply Hn; right; exact H).
    destruct (find_pos eq_dec k b); reflexivity.
Qed.

Lemma find_pos_present {K} (eq_dec : forall x y : K, {x = y} + {x <> y}) k l :
  In k l -> exists i, find_pos eq_dec k l = Some i.
Proof.
  intros Hin. destruct (find_pos eq_dec k l) as [i|] eqn:E.
  - exists i. reflexivity.
  - apply find_pos_in in E. contradiction.
Qed.

Lemma nth_reindex_col old col idx ts i :
  find_pos Z.eq_dec ts idx = Some i ->
  nth i (reindex_col old col idx) NaN
  = match find_pos Z.eq_dec ts old with
    | Some i' => nth i' col NaN
    | None => NaN
    end.
Proof.
  intros E. destruct (find_pos_some Z.eq_dec ts idx i 0%Z E) as [Hi Hts].
  unfold reindex_col.
  rewrite (nth_indep _ NaN
             ((fun ts => match find_pos Z.eq_dec ts old with
                         | Some i' => nth i' col NaN
                         | None => NaN
                         end) 0%Z))
    by (rewrite length_map; exact Hi).
  rewrite (map_nth (fun ts => match find_pos Z.eq_dec ts old with
                              | Some i' => nth i' col NaN
                              | None => NaN
                              end)).
  rewrite Hts. reflexivity.
Qed.

Lemma length_reindex_col old col idx :
  List.length (reindex_col old col idx) = List.length idx.
Proof. unfold reindex_col. apply length_map. Qed.

Lemma overlap_false {K} (eq_dec : forall x y : K, {x = y} + {x <> y}) a b k :
  overlap eq_dec a b = false -> In k a -> ~ In k b.
Proof.
  unfold overlap. intros H Ha Hb.
  assert (E : existsb (fun k => mem eq_dec k b) a = true).
  { apply existsb_exists. exists k. split; [exact Ha|].
    apply mem_In. exact Hb. }
  rewrite E in H. discriminate H.
Qed.

Lemma join_outer_cells (l r d : DataFrame) :
  well_formed l = true -> well_formed r = true ->
  join_outer l r = Ok d ->
  well_formed d = true
  /\ columns d = columns l ++ columns r
  /\ (forall ts, In ts (index d) <-> In ts (index l) \/ In ts (index r))
  /\ forall ts c,
       In ts (index d) ->
       (In c (columns l) -> lookup NaN d ts c = lookup NaN l ts c)
       /\ (In c (columns r) -> lookup NaN d ts c = lookup NaN r ts c).
Proof.
  intros Wl Wr. unfold join_outer.
  destruct (overlap string_dec (columns l) (columns r)) eqn:Eov;
    [discriminate|].
  intros E. injection E as <-. cbv zeta.
  destruct (well_formed_parts l Wl) as [Ll _].
  destruct (well_formed_parts r Wr) as [Lr _].
  split.
  { unfold well_formed, ncols, nrows. cbn [index columns data].
    rewrite !length_app, !length_map, Ll, Lr, Nat.eqb_refl. cbn [andb].
    apply forallb_forall. intros c Hc. apply in_app_iff in Hc.
    destruct Hc as [Hc|Hc]; apply in_map_iff in Hc;
      destruct Hc as [c0 [<- _]]; rewrite length_reindex_col;
      apply Nat.eqb_refl. }
  split; [reflexivity|].
  split; [intros ts; apply union_index_in|].
  intros ts c Hts. cbn [index] in Hts.
  destruct (find_pos_present Z.eq_dec ts _ Hts) as [i Ei].
  unfold lookup. cbn [index columns data]. rewrite Ei. split; intros Hc.
  - rewrite (find_pos_app_l string_dec c _ _ Hc).
    destruct (find_pos_present string_dec c _ Hc) as [j Ej]. rewrite Ej.
    destruct (find_pos_some string_dec c _ j EmptyString Ej) as [Hj _].
    rewrite app_nth1 by (rewrite length_map, Ll; exact Hj).
    rewrite (nth_map_within _ _ j []) by (rewrite Ll; exact Hj).
    rewrite (nth_reindex_col _ _ _ ts i Ei).
    destruct (find_pos Z.eq_dec ts (index l)); reflexivity.
  - assert (Hn : ~ In c (columns l)).
    { intros Hl. exact (overlap_false string_dec _ _ c Eov Hl Hc). }
    rewrite (find_pos_app_r string_dec c _ _ Hn).
    destruct (find_pos_present string_dec c _ Hc) as [j Ej]. rewrite Ej.
    cbn [option_map].
    destruct (find_pos_some string_dec c _ j EmptyString Ej) as [Hj _].
    rewrite app_nth2 by (rewrite length_map, Ll; apply Nat.le_add_r).
    rewrite length_map, Ll.
    replace (List.length (columns l) + j - List.length (columns l)) with j
      by (rewrite Nat.add_comm; symmetry; apply Nat.add_sub).
    rewrite (nth_map_within _ _ j []) by (rewrite Lr; exact Hj).
    rewrite (nth_reindex_col _ _ _ ts i Ei).
    destruct (find_pos Z.eq_dec ts (index r)); reflexivity.
Qed.

(** X10.  [join_aux] on an entry that has a right neighbour, the two without
    a common column label: the columns of the result are those of the two
    tables, its index is the increasing union of their timestamps, and under
    every timestamp each column holds the value it held in its own table,
    NaN where that table has no such timestamp. *)
Theorem join_aux_keeps_cells :
  forall (i : nat) (df_list : list DataFrame) (l r : DataFrame),
    nth_error df_list i = Some l ->
    nth_error df_list (S i) = Some r ->
    well_formed l = true -> well_formed r = true ->
    increasing (index l) = true -> increasing (index r) = true ->
    overlap string_dec (columns l) (columns r) = false ->
    exists d,
      join_aux i df_list = Ok d
      /\ well_formed d = true
      /\ columns d = columns l ++ columns r
      /\ increasing (index d) = true
      /\ (forall ts, In ts (index d) <-> In ts (index l) \/ In ts (index r))
      /\ forall ts c,
           In ts (index d) ->
           (In c (columns l) -> lookup NaN d ts c = lookup NaN l ts c)
           /\ (In c (columns r) -> lookup NaN d ts c = lookup NaN r ts c).
Proof.
  intros i df_list l r Hl Hr Wl Wr Il Ir Hov.
  assert (Hlen : S i < List.length df_list).
  { apply nth_error_Some. rewrite Hr. discriminate. }
  destruct (join_outer l r) as [d|e] eqn:Ej.
  - exists d.
    assert (Hrun : join_aux i df_list = Ok d).
    { unfold join_aux.
      destruct (Z.eqb_spec (Z.of_nat i) (Z.of_nat (List.length df_list) - 1))
        as [E|_]; [lia|].
      unfold getitem_list. rewrite Hl. cbn [rbind].
      rewrite Nat.add_1_r, Hr. cbn [rbind]. exact Ej. }
    split; [exact Hrun|].
    destruct (join_outer_cells l r d Wl Wr Ej) as [Wd [Hc [Hi Hcells]]].
    split; [exact Wd|]. split; [exact Hc|].
    split; [exact (join_outer_increasing l r d Il Ej)|].
    split; [exact Hi | exact Hcells].
  - exfalso. unfold join_outer in Ej. rewrite Hov in Ej. discriminate Ej.
Qed.

Lemma join_aux_keeps_cells_witness :
  exists d,
    join_aux 0 [JoinExample.t1; JoinExample.t2; JoinExample.t3] = Ok d
    /\ well_formed d = true
    /\ columns d = columns JoinExample.t1 ++ columns JoinExample.t2
    /\ increasing (index d) = true
    /\ (forall ts, In ts (index d) <->
                   In ts (index JoinExample.t1) \/ In ts (index JoinExample.t2))
    /\ forall ts c,
         In ts (index d) ->
         (In c (columns JoinExample.t1) ->
          lookup NaN d ts c = lookup NaN JoinExample.t1 ts c)
         /\ (In c (columns JoinExample.t2) ->
             lookup NaN d ts c = lookup NaN JoinExample.t2 ts c).
Proof.
  apply (join_aux_keeps_cells 0
           [JoinExample.t1; JoinExample.t2; JoinExample.t3]
           JoinExample.t1 JoinExample.t2); reflexivity.
Defined.

(** *** The outcome of the sequential merge *)

Lemma clear_of_app (a b : list string) (xs : list DataFrame) :
  forallb (fun z => negb (overlap string_dec (a ++ b) (columns z))) xs
  = forallb (fun z => negb (overlap string_dec a (columns z))) xs
    && forallb (fun z => negb (overlap string_dec b (columns z))) xs.
Proof.
  induction xs as [|x xs IH]; [reflexivity|].
  cbn [forallb]. rewrite IH, overlap_app_l, negb_orb.
  destruct (overlap string_dec a (columns x));
    destruct (overlap string_dec b (columns x)); cbn [negb andb orb];
    try reflexivity.
  symmetry. apply andb_false_r.
Qed.

Lemma join_fold_outcome (xs : list DataFrame) :
  forall a : DataFrame,
    (disjoint_columns (a :: xs) = true ->
     exists d,
       join_fold a xs = Ok d
       /\ columns d
          = columns a ++ List.concat (map (fun t : DataFrame => columns t) xs)
       /\ forall ts, In ts (index d) <->
                     In ts (index a) \/ exists t, In t xs /\ In ts (index t))
    /\ (disjoint_columns (a :: xs) = false -> join_fold a xs = Err ValueError).
Proof.
  induction xs as [|y xs IH]; intros a.
  - split; [|discriminate]. intros _. exists a.
    split; [reflexivity|]. split; [cbn; rewrite app_nil_r; reflexivity|].
    intros ts. split; [auto|]. intros [H|[t [[] _]]]. exact H.
  - unfold join_fold. cbn [fold_left join_step rbind].
    cbn [disjoint_columns forallb].
    destruct (overlap string_dec (columns a) (columns y)) eqn:Eov.
    + assert (Ej : join_outer a y = Err ValueError).
      { unfold join_outer. rewrite Eov. reflexivity. }
      rewrite Ej. cbn [negb andb]. split; [discriminate|].
      intros _. apply join_step_err.
    + cbn [negb andb].
      set (a' := mkFrame (union_index (index a) (index y))
                   (columns a ++ columns y)
                   (map (fun col => reindex_col (index a) col
                                      (union_index (index a) (index y)))
                        (data a)
                    ++ map (fun col => reindex_col (index y) col
                                         (union_index (index a) (index y)))
                         (data y))).
      assert (Ej : join_outer a y = Ok a').
      { unfold join_outer. rewrite Eov. reflexivity. }
      rewrite Ej.
      change (fold_left join_step xs (Ok a')) with (join_fold a' xs).
      destruct (IH a') as [Hok Herr].
      assert (Hsame :
                forallb (fun z => negb (overlap string_dec (columns a)
                                          (columns z))) xs
                && (forallb (fun z => negb (overlap string_dec (columns y)
                                              (columns z))) xs
                    && disjoint_columns xs)
                = disjoint_columns (a' :: xs)).
      { cbn [disjoint_columns]. unfold a' at 1. cbn [columns].
        rewrite clear_of_app. apply andb_assoc. }
      rewrite Hsame. split.
      * intros Hd. destruct (Hok Hd) as [d [Hrun [Hcols Hidx]]].
        exists d. split; [exact Hrun|]. split.
        -- rewrite Hcols. unfold a'. cbn [columns map List.concat].
           symmetry. apply app_assoc.
        -- intros ts. rewrite Hidx. unfold a' at 1. cbn [index].
           rewrite union_index_in. split.
           ++ intros [[H|H]|[t [Ht H]]].
              ** left. exact H.
              ** right. exists y. split; [left; reflexivity | exact H].
              ** right. exists t. split; [right; exact Ht | exact H].
           ++ intros [H|[t [[<-|Ht] H]]].
              ** left. left. exact H.
              ** left. right. exact H.
              ** right. exists t. split; assumption.
      * intros Hd. apply (Herr Hd).
Qed.

(** X11.  What decides the outcome of [functional_outer_join] on a list of
    tables that are all present: it returns a table exactly when no two
    tables share a column label, and then the columns are those of the tables
    one after another and the index is the increasing union of their
    timestamps; otherwise it raises ValueError. *)
Theorem functional_outer_join_outcome :
  forall tables : list DataFrame,
    tables <> [] ->
    all_increasing tables ->
    match functional_outer_join (Some (map Some tables)) with
    | Ok (Some d) =>
        disjoint_columns tables = true
        /\ columns d = List.concat (map (fun t : DataFrame => columns t) tables)
        /\ increasing (index d) = true
        /\ forall ts, In ts (index d) <->
                      exists t, In t tables /\ In ts (index t)
    | Ok None => False
    | Err e => disjoint_columns tables = false /\ e = ValueError
    end.
Proof.
  intros tables Hne Hinc. rewrite functional_outer_join_present.
  destruct tables as [|a xs]; [contradiction|].
  cbn [join_all]. destruct (join_fold_outcome xs a) as [Hok Herr].
  destruct (disjoint_columns (a :: xs)) eqn:Hd.
  - destruct (Hok eq_refl) as [d [Hrun [Hcols Hidx]]].
    rewrite Hrun. cbn [rbind]. split; [reflexivity|]. split; [exact Hcols|].
    split.
    + inversion Hinc as [|? ? Ha _]; subst.
      exact (join_fold_increasing a xs d Ha Hrun).
    + intros ts. rewrite Hidx. split.
      * intros [H|[t [Ht H]]].
        -- exists a. split; [left; reflexivity | exact H].
        -- exists t. split; [right; exact Ht | exact H].
      * intros [t [[<-|Ht] H]]; [left; exact H|].
        right. exists t. split; assumption.
  - rewrite (Herr eq_refl). cbn [rbind]. split; reflexivity.
Qed.

Lemma functional_outer_join_outcome_witness :
  match functional_outer_join
          (Some (map Some [JoinExample.t1; JoinExample.t2; JoinExample.t3]))
  with
  | Ok (Some d) =>
      disjoint_columns [JoinExample.t1; JoinExample.t2; JoinExample.t3] = true
      /\ columns d
         = List.concat (map (fun t : DataFrame => columns t)
                          [JoinExample.t1; JoinExample.t2; JoinExample.t3])
      /\ increasing (index d) = true
      /\ forall ts, In ts (index d) <->
                    exists t, In t [JoinExample.t1; JoinExample.t2;
                                    JoinExample.t3]
                              /\ In ts (index t)
  | Ok None => False
  | Err e =>
      disjoint_columns [JoinExample.t1; JoinExample.t2; JoinExample.t3] = false
      /\ e = ValueError
  end.
Proof.
  apply (functional_outer_join_outcome
           [JoinExample.t1; JoinExample.t2; JoinExample.t3]).
  - discriminate.
  - repeat constructor.
Defined.

(** *** Entries that are [None] *)

Lemma functional_fold_err xs e :
  fold_left (fun acc y => rbind acc (fun a => join_dfs a y)) xs (Err e)
  = Err e.
Proof. induction xs as [|x xs IH]; [reflexivity | exact IH]. Qed.

Lemma functional_fold_none xs :
  forall acc : result (option DataFrame),
    In None xs ->
    exists e,
      fold_left (fun acc y => rbind acc (fun a => join_dfs a y)) xs acc
      = Err e.
Proof.
  induction xs as [|y xs IH]; intros acc Hin; [destruct Hin|].
  cbn [fold_left].
  destruct acc as [[a|]|e0]; cbn [rbind join_dfs].
  - destruct y as [b|].
    + destruct Hin as [E|Hin]; [discriminate E|]. apply IH, Hin.
    + exists TypeError. apply functional_fold_err.
  - exists AttributeError. apply functional_fold_err.
  - exists e0. apply functional_fold_err.
Qed.

Lemma iterative_is_fold (l : list (option DataFrame)) (fuel : nat) :
  remove_none l <> [] ->
  all_increasing (remove_none l) ->
  List.length (remove_none l) <= fuel ->
  iterative_outer_join_second fuel (Some l)
  = Some (rbind (join_all (remove_none l)) (fun d => Ok (Some d))).
Proof.
  intros Hne Hinc Hfuel. unfold iterative_outer_join_second. cbv zeta.
  destruct (Nat.eqb_spec (List.length (remove_none l)) 0) as [E0|_].
  { destruct (remove_none l); [contradiction | discriminate]. }
  destruct (Nat.eqb_spec (List.length (remove_none l)) 1) as [E1|_].
  { destruct (remove_none l) as [|x [|y t]]; try discriminate. reflexivity. }
  rewrite (join_rounds_fold fuel _ Hfuel Hne Hinc). reflexivity.
Qed.

(** X12.  The two merging strategies treat a [None] entry differently: on a
    list of two or more entries one of which is [None] the sequential fold
    raises (AttributeError when the first entry is the [None] one), whereas
    the divide-and-conquer strategy drops the [None] entries: it returns
    [None] when no entry is left, and otherwise what the sequential fold
    returns on the list without the [None] entries. *)
Theorem none_entries_raise_or_are_dropped :
  forall (df_list : list (option DataFrame)) (fuel : nat),
    In None df_list ->
    2 <= List.length df_list ->
    all_increasing (remove_none df_list) ->
    List.length (remove_none df_list) <= fuel ->
    (exists e, functional_outer_join (Some df_list) = Err e
               /\ (hd_error df_list = Some None -> e = AttributeError))
    /\ iterative_outer_join_second fuel (Some df_list)
       = match remove_none df_list with
         | [] => Some (Ok None)
         | _ :: _ =>
             Some (functional_outer_join
                     (Some (map Some (remove_none df_list))))
         end.
Proof.
  intros df_list fuel Hin Hlen Hinc Hfuel. split.
  - destruct df_list as [|x xs]; [destruct Hin|].
    destruct xs as [|y xs]; [cbn in Hlen; lia|].
    cbn [functional_outer_join hd_error].
    destruct x as [a|].
    + destruct Hin as [E|Hin]; [discriminate E|].
      destruct (functional_fold_none (y :: xs) (Ok (Some a)) Hin) as [e He].
      exists e. split; [exact He | intros E; discriminate E].
    + exists AttributeError. split; [|reflexivity].
      cbn [fold_left rbind join_dfs]. apply functional_fold_err.
  - destruct (remove_none df_list) as [|x xs] eqn:E.
    + unfold iterative_outer_join_second. rewrite E. reflexivity.
    + rewrite functional_outer_join_present. rewrite <- E.
      apply iterative_is_fold.
      * rewrite E. discriminate.
      * rewrite E. exact Hinc.
      * rewrite E. exact Hfuel.
Qed.

Lemma none_entries_raise_or_are_dropped_witness :
  (exists e,
      functional_outer_join
        (Some [Some JoinExample.t1; None; Some JoinExample.t2]) = Err e
      /\ (hd_error [Some JoinExample.t1; None; Some JoinExample.t2]
          = Some None -> e = AttributeError))
  /\ iterative_outer_join_second 2
       (Some [Some JoinExample.t1; None; Some JoinExample.t2])
     = match remove_none [Some JoinExample.t1; None; Some JoinExample.t2] with
       | [] => Some (Ok None)
       | _ :: _ =>
           Some (functional_outer_join
                   (Some (map Some
                            (remove_none
                               [Some JoinExample.t1; None;
                                Some JoinExample.t2]))))
       end.
Proof.
  apply (none_entries_raise_or_are_dropped
           [Some JoinExample.t1; None; Some JoinExample.t2] 2).
  - right. left. reflexivity.
  - simpl. lia.
  - repeat constructor.
  - simpl. lia.
Defined.

(** *** Dictionaries with keys that must not clash *)

Lemma dict_get_app {V} (d e : dict V) k :
  dict_get (d ++ e) k
  = match dict_get d k with
    | Some v => Some v
    | None => dict_get e k
    end.
Proof.
  induction d as [|[k' v'] d IH]; [reflexivity|].
  cbn [app dict_get]. destruct (string_dec k k'); [reflexivity | exact IH].
Qed.

Lemma dict_set_new {V} (d : dict V) k v :
  dict_has d k = false -> dict_set d k v = d ++ [(k, v)].
Proof.
  unfold dict_has. induction d as [|[k' v'] d IH]; [reflexivity|].
  cbn [dict_get dict_set app].
  destruct (string_dec k k'); [discriminate|].
  intros H. rewrite (IH H). reflexivity.
Qed.

Lemma dict_has_app {V} (d e : dict V) k :
  dict_has (d ++ e) k = dict_has d k || dict_has e k.
Proof.
  unfold dict_has. rewrite dict_get_app.
  destruct (dict_get d k); reflexivity.
Qed.

Lemma dict_has_single {V} (k0 : string) (v0 : V) k :
  dict_has [(k0, v0)] k = if string_dec k k0 then true else false.
Proof.
  unfold dict_has. cbn [dict_get]. destruct (string_dec k k0); reflexivity.
Qed.

Lemma safe_update_all_new {V} (other : dict V) :
  forall d : dict V,
    NoDup (map fst other) ->
    (forall k, In k (map fst other) -> dict_has d k = false) ->
    _safe_update d other = Updated (d ++ other).
Proof.
  induction other as [|[k0 v0] other IH]; intros d Hnd Hnew.
  - cbn [_safe_update]. rewrite app_nil_r. reflexivity.
  - cbn [_safe_update]. cbn [map fst] in Hnd, Hnew.
    rewrite (Hnew k0 (or_introl eq_refl)).
    rewrite (dict_set_new d k0 v0 (Hnew k0 (or_introl eq_refl))).
    inversion Hnd as [|? ? Hk0 Hnd']; subst.
    rewrite IH.
    + rewrite <- app_assoc. reflexivity.
    + exact Hnd'.
    + intros k Hk. rewrite dict_has_app, dict_has_single.
      rewrite (Hnew k (or_intror Hk)).
      destruct (string_dec k k0) as [->|_]; [contradiction | reflexivity].
Qed.

Lemma safe_update_clash {V} (pre : dict V) :
  forall (d : dict V) k v post,
    NoDup (map fst (pre ++ (k, v) :: post)) ->
    (forall k', In k' (map fst pre) -> dict_has d k' = false) ->
    dict_has d k = true ->
    _safe_update d (pre ++ (k, v) :: post) = Duplicate_regressor k (d ++ pre).
Proof.
  induction pre as [|[k0 v0] pre IH]; intros d k v post Hnd Hnew Hk.
  - cbn [app _safe_update]. rewrite Hk, app_nil_r. reflexivity.
  - cbn [app _safe_update]. cbn [app map fst] in Hnd, Hnew.
    rewrite (Hnew k0 (or_introl eq_refl)).
    rewrite (dict_set_new d k0 v0 (Hnew k0 (or_introl eq_refl))).
    inversion Hnd as [|? ? Hk0 Hnd']; subst.
    rewrite (IH (d ++ [(k0, v0)]) k v post Hnd').
    + rewrite <- app_assoc. reflexivity.
    + intros k' Hk'. rewrite dict_has_app, dict_has_single.
      rewrite (Hnew k' (or_intror Hk')).
      destruct (string_dec k' k0) as [->|_]; [|reflexivity].
      exfalso. apply Hk0. rewrite map_app. apply in_or_app. left. exact Hk'.
    + rewrite dict_has_app, Hk. reflexivity.
Qed.

(** X13.  [_safe_update] with a dict [other] none of whose keys is in [d]:
    every item enters [d] after the old ones, so old keys keep their values
    and new keys get those of [other]. *)
Theorem safe_update_adds_new_keys :
  forall (V : Type) (d other : dict V),
    NoDup (map fst other) ->
    (forall k, In k (map fst other) -> dict_has d k = false) ->
    exists d',
      _safe_update d other = Updated d'
      /\ d' = d ++ other
      /\ forall k, dict_get d' k
                   = match dict_get d k with
                     | Some v => Some v
                     | None => dict_get other k
                     end.
Proof.
  intros V d other Hnd Hnew. exists (d ++ other).
  split; [exact (safe_update_all_new other d Hnd Hnew)|].
  split; [reflexivity|]. intros k. apply dict_get_app.
Qed.

Lemma safe_update_adds_new_keys_witness :
  exists d',
    _safe_update [("x"%string, 1%Z)] [("y"%string, 2%Z); ("z"%string, 3%Z)]
    = Updated d'
    /\ d' = [("x"%string, 1%Z)] ++ [("y"%string, 2%Z); ("z"%string, 3%Z)]
    /\ forall k, dict_get d' k
                 = match dict_get [("x"%string, 1%Z)] k with
                   | Some v => Some v
                   | None => dict_get [("y"%string, 2%Z); ("z"%string, 3%Z)] k
                   end.
Proof.
  apply (safe_update_adds_new_keys Z [("x"%string, 1%Z)]
           [("y"%string, 2%Z); ("z"%string, 3%Z)]).
  - repeat constructor; simpl; intuition discriminate.
  - simpl. intros k [<-|[<-|[]]]; reflexivity.
Defined.

(** X14.  [_safe_update] stops at the first key of [other] that is in [d]
    already: it raises for that key, and [d] has by then taken the items
    that came before it. *)
Theorem safe_update_stops_at_clash :
  forall (V : Type) (d pre post : dict V) (k : string) (v : V),
    NoDup (map fst (pre ++ (k, v) :: post)) ->
    (forall k', In k' (map fst pre) -> dict_has d k' = false) ->
    dict_has d k = true ->
    _safe_update d (pre ++ (k, v) :: post) = Duplicate_regressor k (d ++ pre).
Proof.
  intros V d pre post k v Hnd Hnew Hk.
  exact (safe_update_clash pre d k v post Hnd Hnew Hk).
Qed.

Lemma safe_update_stops_at_clash_witness :
  _safe_update [("x"%string, 1%Z)]
    ([("y"%string, 2%Z)] ++ ("x"%string, 3%Z) :: [("z"%string, 4%Z)])
  = Duplicate_regressor "x"%string ([("x"%string, 1%Z)] ++ [("y"%string, 2%Z)]).
Proof.
  apply (safe_update_stops_at_clash Z [("x"%string, 1%Z)]
           [("y"%string, 2%Z)] [("z"%string, 4%Z)] "x"%string 3%Z).
  - repeat constructor; simpl; intuition discriminate.
  - simpl. intros k [<-|[]]. reflexivity.
  - reflexivity.
Defined.

(** *** Returns of a strategy, position by position *)

Lemma as_matrix_runs signal returns k h s r :
  nth_error h signal = Some s -> nth_error h returns = Some r ->
  nrows s = nrows r -> ncols s = ncols r ->
  calculate_signal_returns_as_matrix signal returns k h
  = Return (mkFrame (index r) (columns r)
              (map (fun j =>
                      map (fun t => cell_mul (cell_at (df_shift k s) j t)
                                             (cell_at r j t))
                          (seq 0 (nrows r)))
                   (seq 0 (ncols r)))) h.
Proof.
  intros Hs Hr Hn Hm. unfold calculate_signal_returns_as_matrix.
  rewrite (bind_load _ Hs), (bind_load _ Hr).
  unfold values_mul_as, fits.
  change (nrows (df_shift k s)) with (nrows s).
  change (ncols (df_shift k s)) with (ncols s).
  rewrite Hn, Hm, !Nat.eqb_refl. reflexivity.
Qed.

(** X15.  [calculate_signal_returns_as_matrix] multiplies position by
    position and labels the result as the returns table: on two well-formed
    tables of one shape, whatever their labels, row [t] of column [j] is NaN
    for [t < period_shift] and [signal[t - period_shift] * returns[t]]
    afterwards. *)
Theorem signal_returns_as_matrix_by_position :
  forall (h : heap) (signal returns : ref) (period_shift : Z)
         (s r : DataFrame),
    nth_error h signal = Some s ->
    nth_error h returns = Some r ->
    well_formed s = true ->
    nrows s = nrows r -> ncols s = ncols r ->
    (0 <= period_shift)%Z ->
    exists out,
      calculate_signal_returns_as_matrix signal returns period_shift h
      = Return out h
      /\ index out = index r /\ columns out = columns r
      /\ forall j t,
           j < ncols r -> t < nrows r ->
           cell_at out j t
           = if t <? Z.to_nat period_shift then NaN
             else cell_mul (cell_at s j (t - Z.to_nat period_shift))
                           (cell_at r j t).
Proof.
  intros h signal returns k s r Hs Hr Ws Hn Hm Hk.
  eexists. split; [apply (as_matrix_runs _ _ _ _ _ _ Hs Hr Hn Hm)|].
  split; [reflexivity|]. split; [reflexivity|].
  intros j t Hj Ht. unfold cell_at at 1. cbn [data].
  rewrite (nth_map_seq _ _ j []) by exact Hj.
  rewrite (nth_map_seq _ _ t NaN) by exact Ht.
  rewrite (cell_at_shift k s j t Hk).
  rewrite (well_formed_col s j Ws).
  assert (Hj' : (j <? ncols s) = true)
    by (apply Nat.ltb_lt; rewrite Hm; exact Hj).
  rewrite Hj'.
  assert (Ht' : (nrows s <=? t) = false)
    by (apply Nat.leb_gt; rewrite Hn; exact Ht).
  rewrite Ht', orb_false_r.
  destruct (t <? Z.to_nat k); reflexivity.
Qed.

Lemma signal_returns_as_matrix_by_position_witness :
  exists out,
    calculate_signal_returns_as_matrix 0 1 1 MatrixExample.objects
    = Return out MatrixExample.objects
    /\ index out = index MatrixExample.returns
    /\ columns out = columns MatrixExample.returns
    /\ forall j t,
         j < ncols MatrixExample.returns -> t < nrows MatrixExample.returns ->
         cell_at out j t
         = if t <? Z.to_nat 1 then NaN
           else cell_mul (cell_at MatrixExample.signal j (t - Z.to_nat 1))
                         (cell_at MatrixExample.returns j t).
Proof.
  apply (signal_returns_as_matrix_by_position MatrixExample.objects 0 1 1
           MatrixExample.signal MatrixExample.returns);
    try reflexivity.
  lia.
Defined.

(** X16.  [calculate_signal_returns_as_matrix] raises ValueError when the
    signal has neither as many rows as the returns nor a single row, or
    neither as many columns nor a single column; the caller's tables are as
    they were. *)
Theorem signal_returns_as_matrix_shape_error :
  forall (h : heap) (signal returns : ref) (period_shift : Z)
         (s r : DataFrame),
    nth_error h signal = Some s ->
    nth_error h returns = Some r ->
    (nrows s <> nrows r /\ nrows s <> 1)
    \/ (ncols s <> ncols r /\ ncols s <> 1) ->
    calculate_signal_returns_as_matrix signal returns period_shift h
    = Raise ValueError h.
Proof.
  intros h signal returns k s r Hs Hr Hshape.
  unfold calculate_signal_returns_as_matrix.
  rewrite (bind_load _ Hs), (bind_load _ Hr).
  unfold values_mul_as, fits.
  change (nrows (df_shift k s)) with (nrows s).
  change (ncols (df_shift k s)) with (ncols s).
  destruct Hshape as [[H1 H2]|[H1 H2]].
  - apply Nat.eqb_neq in H1, H2. rewrite H1, H2. reflexivity.
  - apply Nat.eqb_neq in H1, H2. rewrite H1, H2.
    rewrite andb_false_r. reflexivity.
Qed.

Lemma signal_returns_as_matrix_shape_error_witness :
  calculate_signal_returns_as_matrix 0 2 1 MatrixExample.objects
  = Raise ValueError MatrixExample.objects.
Proof.
  apply (signal_returns_as_matrix_shape_error MatrixExample.objects 0 2 1
           MatrixExample.signal MatrixExample.short_returns);
    try reflexivity.
  left. split; discriminate.
Defined.

(** X17.  On two well-formed tables with identical labels the positional
    [calculate_signal_returns_as_matrix] and the label-based
    [calculate_signal_returns] return the same table. *)
Theorem as_matrix_agrees_on_same_labels :
  forall (h : heap) (signal returns : ref) (period_shift : Z)
         (s r : DataFrame),
    nth_error h signal = Some s ->
    nth_error h returns = Some r ->
    well_formed s = true -> well_formed r = true ->
    same_labels s r = true ->
    calculate_signal_returns_as_matrix signal returns period_shift h
    = calculate_signal_returns signal returns period_shift h.
Proof.
  intros h signal returns k s r Hs Hr Ws Wr Hl.
  pose proof (proj1 (same_labels_true s r) Hl) as [Hi Hc].
  assert (Hn : nrows s = nrows r) by (unfold nrows; rewrite Hi; reflexivity).
  assert (Hm : ncols s = ncols r) by (unfold ncols; rewrite Hc; reflexivity).
  assert (Hm' : List.length (columns s) = ncols r) by exact Hm.
  rewrite (as_matrix_runs _ _ _ _ _ _ Hs Hr Hn Hm).
  rewrite (signal_returns_runs _ _ k _ _ _ Hs Hr Hl).
  apply f_equal2; [|reflexivity].
  unfold frame_zip. change (index (df_shift k s)) with (index s).
  change (columns (df_shift k s)) with (columns s).
  rewrite Hi, Hc. apply f_equal.
  destruct (well_formed_parts s Ws) as [Ls Cs].
  destruct (well_formed_parts r Wr) as [Lr Cr].
  rewrite forallb_forall in Cs, Cr.
  assert (Ld : List.length (data (df_shift k s)) = ncols r).
  { unfold df_shift, frame_cols. cbn [data]. rewrite length_map, Ls.
    exact Hm. }
  apply (nth_ext _ _ [] []).
  - rewrite length_map, length_seq, length_map2, Ld, Lr.
    symmetry. apply Nat.min_id.
  - intros j Hj. rewrite length_map, length_seq in Hj.
    rewrite (nth_map_seq _ _ j []) by exact Hj.
    rewrite nth_map2_cols.
    assert (Lrj : List.length (nth j (data r) []) = nrows r).
    { apply Nat.eqb_eq, Cr, nth_In. rewrite Lr. exact Hj. }
    assert (Lsj : List.length (nth j (data (df_shift k s)) []) = nrows r).
    { unfold df_shift, frame_cols. cbn [data].
      rewrite (nth_map_within _ _ j []) by (rewrite Ls, Hm'; exact Hj).
      rewrite length_shift_col, <- Hn.
      apply Nat.eqb_eq, Cs, nth_In. rewrite Ls, Hm'. exact Hj. }
    apply (nth_ext _ _ NaN NaN).
    + rewrite length_map, length_seq, length_map2, Lsj, Lrj.
      symmetry. apply Nat.min_id.
    + intros t Ht. rewrite length_map, length_seq in Ht.
      rewrite (nth_map_seq _ _ t NaN) by exact Ht.
      unfold cell_mul. rewrite nth_map2_lift2. reflexivity.
Qed.

Lemma as_matrix_agrees_on_same_labels_witness :
  calculate_signal_returns_as_matrix 0 1 1 Scenario.objects
  = calculate_signal_returns 0 1 1 Scenario.objects.
Proof.
  apply (as_matrix_agrees_on_same_labels Scenario.objects 0 1 1
           Scenario.signal Scenario.returns); reflexivity.
Defined.

(** *** An override beside every column of the signal *)

Lemma flat_map_single {A B} (g : A -> B) l :
  flat_map (fun x => [g x]) l = map g l.
Proof.
  induction l as [|a l IH]; [reflexivity|].
  cbn [flat_map map app]. rewrite IH. reflexivity.
Qed.

Lemma flatten_one_column (o : DataFrame) :
  well_formed o = true -> ncols o = 1 -> flatten o = col o 0.
Proof.
  intros Wo Hc. destruct (well_formed_parts o Wo) as [L W].
  unfold ncols in Hc. rewrite Hc in L.
  unfold flatten, col, nrows.
  destruct (data o) as [|c [|c' rest]]; try discriminate L.
  cbn [forallb] in W. apply andb_true_iff in W. destruct W as [Lc _].
  apply Nat.eqb_eq in Lc. cbn [map nth].
  rewrite (flat_map_single (fun t => nth t c NaN)).
  rewrite <- Lc. apply (take_all_rows NaN c).
Qed.

(** X18.  [calculate_column_matrix_signal_override] with an override of one
    column and as many rows as the signal: every column of the signal is
    multiplied by the override position by position, under the labels of the
    signal. *)
Theorem override_scales_every_column :
  forall (h : heap) (override_df signal_df : ref) (o s : DataFrame),
    nth_error h override_df = Some o ->
    nth_error h signal_df = Some s ->
    well_formed o = true ->
    ncols o = 1 -> nrows o = nrows s ->
    exists out,
      calculate_column_matrix_signal_override override_df signal_df h
      = Return out h
      /\ index out = index s /\ columns out = columns s
      /\ forall j t,
           j < ncols s -> t < nrows s ->
           cell_at out j t = cell_mul (cell_at o 0 t) (cell_at s j t).
Proof.
  intros h override_df signal_df o s Ho Hs Wo Hc Hn.
  assert (Lv : List.length (flatten o) = nrows s).
  { rewrite (flatten_one_column o Wo Hc), (well_formed_col o 0 Wo), Hc.
    exact Hn. }
  eexists. split.
  - unfold calculate_column_matrix_signal_override.
    rewrite (bind_load _ Hs). cbv zeta.
    rewrite (bind_load _ Ho), (bind_load _ Hs).
    unfold column_mul_as, fits. rewrite Lv, !Nat.eqb_refl. reflexivity.
  - split; [reflexivity|]. split; [reflexivity|].
    intros j t Hj Ht. unfold cell_at at 1. cbn [data].
    rewrite (nth_map_seq _ _ j []) by exact Hj.
    rewrite (nth_map_seq _ _ t NaN) by exact Ht.
    rewrite (flatten_one_column o Wo Hc). reflexivity.
Qed.

Lemma override_scales_every_column_witness :
  exists out,
    calculate_column_matrix_signal_override 1 0 OverlayExample.objects'
    = Return out OverlayExample.objects'
    /\ index out = index OverlayExample.signal
    /\ columns out = columns OverlayExample.signal
    /\ forall j t,
         j < ncols OverlayExample.signal -> t < nrows OverlayExample.signal ->
         cell_at out j t
         = cell_mul (cell_at OverlayExample.stops 0 t)
                    (cell_at OverlayExample.signal j t).
Proof.
  apply (override_scales_every_column OverlayExample.objects' 1 0
           OverlayExample.stops OverlayExample.signal); reflexivity.
Defined.

(** X19.  [calculate_column_matrix_signal_override] raises ValueError,
    leaving the caller's tables as they were, when the override has one
    column and neither as many rows as the signal nor a single row. *)
Theorem override_shape_error :
  forall (h : heap) (override_df signal_df : ref) (o s : DataFrame),
    nth_error h override_df = Some o ->
    nth_error h signal_df = Some s ->
    well_formed o = true ->
    ncols o = 1 -> nrows o <> nrows s -> nrows o <> 1 ->
    calculate_column_matrix_signal_override override_df signal_df h
    = Raise ValueError h.
Proof.
  intros h override_df signal_df o s Ho Hs Wo Hc Hn H1.
  unfold calculate_column_matrix_signal_override.
  rewrite (bind_load _ Hs). cbv zeta.
  rewrite (bind_load _ Ho), (bind_load _ Hs).
  unfold column_mul_as, fits.
  rewrite (flatten_one_column o Wo Hc), (well_formed_col o 0 Wo), Hc.
  change (0 <? 1) with true. cbv iota.
  apply Nat.eqb_neq in Hn, H1. rewrite Hn, H1. reflexivity.
Qed.

Lemma override_shape_error_witness :
  calculate_column_matrix_signal_override 2 0 MatrixExample.objects
  = Raise ValueError MatrixExample.objects.
Proof.
  apply (override_shape_error MatrixExample.objects 2 0
           MatrixExample.short_returns MatrixExample.signal);
    try reflexivity; discriminate.
Defined.

(** *** Effects of the further methods *)

(** X20.  The positional strategy returns, the differences, the running
    sum, the removal of incomplete rows, the override and the left join with
    fill write to no table, whether they return or raise; the overlay with
    defined stops writes to no table but the caller's signal table. *)
Theorem further_methods_effects :
  (forall signal returns k,
      read_only (calculate_signal_returns_as_matrix signal returns k))
  /\ (forall data_frame k, read_only (calculate_diff_returns data_frame k))
  /\ (forall data_frame, read_only (cum_sum data_frame))
  /\ (forall data_frame, read_only (remove_NaN_rows data_frame))
  /\ (forall override_df signal_df,
        read_only (calculate_column_matrix_signal_override override_df
                     signal_df))
  /\ (forall df_left df_right,
        read_only (join_left_fill_right df_left df_right))
  /\ (forall signal stops,
        writes_only signal (calculate_risk_stop_defined_signals signal stops)).
Proof.
  refine (conj _ (conj _ (conj _ (conj _ (conj _ (conj _ _)))))); intros.
  - unfold calculate_signal_returns_as_matrix. repeat frame_step.
  - unfold calculate_diff_returns. repeat frame_step.
  - unfold cum_sum. repeat frame_step.
  - unfold remove_NaN_rows. repeat frame_step.
  - unfold calculate_column_matrix_signal_override. cbv zeta.
    repeat frame_step.
  - unfold join_left_fill_right. cbv zeta. repeat frame_step.
  - unfold calculate_risk_stop_defined_signals. cbv zeta.
    repeat first
      [ apply writes_only_store
      | apply read_only_writes_only;
        first [ apply read_only_ret | apply read_only_lift
              | apply read_only_load ]
      | apply writes_only_bind; [| intro ] ].
Qed.

(** *** A right table read as of the timestamps of a left table *)

Lemma increasing_NoDup l : increasing l = true -> NoDup l.
Proof.
  induction l as [|x l IH]; intros H; [constructor|].
  apply increasing_cons in H. destruct H as [Hall Hl].
  constructor; [|exact (IH Hl)].
  intros Hin. rewrite Forall_forall in Hall.
  pose proof (Hall x Hin) as Hlt. apply Z.lt_irrefl in Hlt. exact Hlt.
Qed.

Lemma increasing_no_dup l :
  increasing l = true -> has_dup Z.eq_dec l = false.
Proof. intros H. apply has_dup_NoDup, increasing_NoDup, H. Qed.

Lemma find_pos_nth l :
  forall i, NoDup l -> i < List.length l ->
            find_pos Z.eq_dec (nth i l 0%Z) l = Some i.
Proof.
  induction l as [|x l IH]; intros i Hnd Hi; [inversion Hi|].
  inversion Hnd as [|? ? Hx Hnd']; subst.
  destruct i as [|i]; cbn [nth find_pos].
  - destruct (Z.eq_dec x x); [reflexivity | contradiction].
  - cbn [List.length] in Hi. apply Nat.succ_lt_mono in Hi.
    destruct (Z.eq_dec (nth i l 0%Z) x) as [E|_].
    + exfalso. apply Hx. rewrite <- E. apply nth_In. exact Hi.
    + rewrite (IH i Hnd' Hi). reflexivity.
Qed.

Lemma reindex_col_id idx c :
  NoDup idx -> List.length c = List.length idx -> reindex_col idx c idx = c.
Proof.
  intros Hnd Hlen. apply (nth_ext _ _ NaN NaN).
  - rewrite length_reindex_col. symmetry. exact Hlen.
  - intros i Hi. rewrite length_reindex_col in Hi.
    rewrite (nth_reindex_col idx c idx (nth i idx 0%Z) i)
      by (apply find_pos_nth; assumption).
    rewrite (find_pos_nth idx i Hnd Hi). reflexivity.
Qed.

Lemma reindex_col_past_head u ir' x c' U :
  ~ In u U ->
  reindex_col (u :: ir') (x :: c') U = reindex_col ir' c' U.
Proof.
  intros Hn. unfold reindex_col. apply map_ext_in. intros ts Hts.
  cbn [find_pos]. destruct (Z.eq_dec ts u) as [->|_]; [contradiction|].
  destruct (find_pos Z.eq_dec ts ir'); reflexivity.
Qed.

Lemma as_of_before idx :
  forall c ts last,
    Forall (fun y => (ts < y)%Z) idx -> as_of idx c ts last = last.
Proof.
  destruct idx as [|t idx]; intros c ts last H; [reflexivity|].
  destruct c as [|x c]; [reflexivity|]. cbn [as_of].
  inversion H as [|? ? Ht _]; subst.
  apply Z.leb_gt in Ht. rewrite Ht. reflexivity.
Qed.

Lemma incl_tail_after (u : Z) ir U :
  incl ir (u :: U) -> Forall (fun y => (u < y)%Z) ir -> incl ir U.
Proof.
  intros Hincl Hall y Hy. rewrite Forall_forall in Hall.
  destruct (Hincl y Hy) as [E|H]; [|exact H].
  pose proof (Hall y Hy) as Hlt. rewrite E in Hlt.
  apply Z.lt_irrefl in Hlt. destruct Hlt.
Qed.

Lemma ffill_reindex_as_of U :
  forall ir c last p ts,
    increasing U = true -> increasing ir = true ->
    incl ir U -> List.length c = List.length ir ->
    nth_error U p = Some ts ->
    nth p (ffill_from last (reindex_col ir c U)) NaN = as_of ir c ts last.
Proof.
  induction U as [|u U IH]; intros ir c last p ts HU Hir Hincl Hlen Hp.
  - destruct p; discriminate Hp.
  - apply increasing_cons in HU. destruct HU as [HallU HU].
    assert (HuU : ~ In u U).
    { intros Hin. rewrite Forall_forall in HallU.
      pose proof (HallU u Hin) as Hlt. apply Z.lt_irrefl in Hlt. exact Hlt. }
    assert (Hlater : forall p' ts', nth_error U p' = Some ts' -> (u < ts')%Z).
    { intros p' ts' E. rewrite Forall_forall in HallU.
      apply HallU. apply (nth_error_In _ _ E). }
    destruct ir as [|t ir'].
    + destruct c as [|x c]; [|discriminate Hlen].
      change (reindex_col [] [] (u :: U)) with (NaN :: reindex_col [] [] U).
      cbn [ffill_from as_of]. destruct p as [|p]; [reflexivity|].
      cbn [nth nth_error] in *.
      exact (IH [] [] last p ts HU eq_refl (incl_nil_l _) eq_refl Hp).
    + destruct c as [|x c']; [discriminate Hlen|].
      cbn [List.length] in Hlen. injection Hlen as Hlen.
      pose proof Hir as Hir0.
      apply increasing_cons in Hir. destruct Hir as [Hallir Hir'].
      destruct (Z.eq_dec t u) as [->|Htu].
      * (* the head of the right index is the timestamp at hand *)
        assert (Hhead : reindex_col (u :: ir') (x :: c') (u :: U)
                        = x :: reindex_col ir' c' U).
        { unfold reindex_col at 1. cbn [map find_pos].
          destruct (Z.eq_dec u u); [|contradiction]. cbn [nth].
          apply f_equal.
          exact (reindex_col_past_head u ir' x c' U HuU). }
        rewrite Hhead.
        assert (Hincl' : incl ir' U).
        { apply (incl_tail_after u); [|exact Hallir].
          intros y Hy. apply Hincl. right. exact Hy. }
        set (last' := match x with Some _ => x | None => last end).
        assert (Hff : ffill_from last (x :: reindex_col ir' c' U)
                      = last' :: ffill_from last' (reindex_col ir' c' U)).
        { unfold last'. destruct x; reflexivity. }
        rewrite Hff. cbn [as_of]. fold last'.
        destruct p as [|p]; cbn [nth nth_error] in *.
        -- injection Hp as <-. rewrite Z.leb_refl.
           symmetry. apply as_of_before. exact Hallir.
        -- pose proof (Hlater p ts Hp) as Hlt.
           assert (Hle : (u <=? ts)%Z = true) by (apply Z.leb_le; lia).
           rewrite Hle.
           exact (IH ir' c' last' p ts HU Hir' Hincl' Hlen Hp).
      * (* the timestamp at hand is not in the right index *)
        assert (Hut : (u < t)%Z).
        { destruct (Hincl t (or_introl eq_refl)) as [E|Hin];
            [exfalso; apply Htu; symmetry; exact E|].
          rewrite Forall_forall in HallU. apply HallU, Hin. }
        assert (Hall : Forall (fun y => (u < y)%Z) (t :: ir')).
        { constructor; [exact Hut|].
          eapply Forall_impl; [|exact Hallir]. intros z Hz. cbv beta in *.
          lia. }
        assert (Hnone : find_pos Z.eq_dec u (t :: ir') = None).
        { apply find_pos_in. intros Hin. rewrite Forall_forall in Hall.
          pose proof (Hall u Hin) as Hlt. apply Z.lt_irrefl in Hlt.
          exact Hlt. }
        assert (Hhead : reindex_col (t :: ir') (x :: c') (u :: U)
                        = NaN :: reindex_col (t :: ir') (x :: c') U).
        { unfold reindex_col at 1. cbn [map]. rewrite Hnone. reflexivity. }
        rewrite Hhead. cbn [ffill_from].
        destruct p as [|p]; cbn [nth nth_error] in *.
        -- injection Hp as <-. cbn [as_of].
           apply Z.leb_gt in Hut. rewrite Hut. reflexivity.
        -- apply (IH (t :: ir') (x :: c') last p ts HU Hir0);
             [| cbn [List.length]; rewrite Hlen; reflexivity | exact Hp].
           exact (incl_tail_after u _ U Hincl Hall).
Qed.

Lemma ffill_reindex_at U ir c ts p :
  increasing U = true -> increasing ir = true ->
  incl ir U -> List.length c = List.length ir ->
  find_pos Z.eq_dec ts U = Some p ->
  nth p (ffill_col (reindex_col ir c U)) NaN = as_of ir c ts NaN.
Proof.
  intros HU Hir Hincl Hlen Hp.
  destruct (find_pos_some Z.eq_dec ts U p 0%Z Hp) as [Hlt Hnth].
  apply (ffill_reindex_as_of U ir c NaN p ts HU Hir Hincl Hlen).
  rewrite <- Hnth. apply nth_error_nth'. exact Hlt.
Qed.

Lemma filled_column (r : DataFrame) (U : list Z) j :
  j < List.length (data r) ->
  nth j (data (df_ffill (reindex_rows r U))) []
  = ffill_col (reindex_col (index r) (nth j (data r) []) U).
Proof.
  intros Hj. unfold df_ffill, frame_cols, reindex_rows. cbn [data].
  rewrite (nth_map_within ffill_col _ j []) by (rewrite length_map; exact Hj).
  rewrite (nth_map_within _ _ j []) by exact Hj. reflexivity.
Qed.

(** X21.  [join_left_fill_right] on two tables with increasing timestamps
    returns the left table as it is, and the right table on the timestamps
    of the left one: under each of them every column of the right table
    holds its last value present at that timestamp or earlier, NaN when
    there is none. *)
Theorem join_left_fill_right_as_of :
  forall (h : heap) (df_left df_right : ref) (l r : DataFrame),
    nth_error h df_left = Some l ->
    nth_error h df_right = Some r ->
    well_formed r = true ->
    increasing (index l) = true -> increasing (index r) = true ->
    exists r',
      join_left_fill_right df_left df_right h = Return (l, r') h
      /\ index r' = index l /\ columns r' = columns r
      /\ forall j i,
           j < ncols r -> i < nrows l ->
           cell_at r' j i
           = as_of (index r) (col r j) (nth i (index l) 0%Z) NaN.
Proof.
  intros h df_left df_right l r Hl Hr Wr Il Ir.
  destruct (well_formed_parts r Wr) as [Lr Cr].
  rewrite forallb_forall in Cr.
  assert (Lc : forall j, j < ncols r ->
                         List.length (nth j (data r) [])
                         = List.length (index r)).
  { intros j Hj. apply Nat.eqb_eq, Cr, nth_In. rewrite Lr. exact Hj. }
  unfold join_left_fill_right.
  rewrite (bind_load _ Hl), (bind_load _ Hr).
  unfold align_rows_outer.
  destruct (list_eq_dec Z.eq_dec (index l) (index r)) as [E|N].
  - rewrite bind_lift_ok. cbv zeta. cbn [snd]. rewrite (bind_load _ Hl).
    unfold align_rows_left.
    change (index (df_ffill r)) with (index r).
    destruct (list_eq_dec Z.eq_dec (index l) (index r)) as [_|N'];
      [|contradiction].
    exists (df_ffill r). split; [reflexivity|].
    split; [symmetry; exact E|]. split; [reflexivity|].
    intros j i Hj Hi. unfold cell_at, col, df_ffill, frame_cols. cbn [data].
    rewrite (nth_map_within ffill_col _ j []) by (rewrite Lr; exact Hj).
    rewrite <- (reindex_col_id (index r) (nth j (data r) []))
      at 1 by (try apply increasing_NoDup; auto).
    apply ffill_reindex_at; auto.
    + apply incl_refl.
    + rewrite E. apply find_pos_nth; [apply increasing_NoDup, Ir|].
      unfold nrows in Hi. rewrite E in Hi. exact Hi.
  - rewrite (increasing_no_dup _ Il), (increasing_no_dup _ Ir).
    cbn [orb]. rewrite bind_lift_ok. cbv zeta. cbn [snd].
    rewrite (bind_load _ Hl). unfold align_rows_left.
    set (U := usort Z.eq_dec Z.ltb (index l ++ index r)).
    change (index (df_ffill (reindex_rows r U))) with U.
    assert (IU : increasing U = true) by apply usort_increasing.
    assert (Hincl : incl (index r) U).
    { intros y Hy. apply usort_in, in_or_app. right. exact Hy. }
    destruct (list_eq_dec Z.eq_dec (index l) U) as [E1|N1].
    + exists (df_ffill (reindex_rows r U)). split; [reflexivity|].
      split; [symmetry; exact E1|]. split; [reflexivity|].
      intros j i Hj Hi. unfold cell_at, col.
      rewrite filled_column by (rewrite Lr; exact Hj).
      apply ffill_reindex_at; auto.
      rewrite E1. apply find_pos_nth; [apply increasing_NoDup, IU|].
      unfold nrows in Hi. rewrite E1 in Hi. exact Hi.
    + rewrite (increasing_no_dup _ IU).
      exists (reindex_rows (df_ffill (reindex_rows r U)) (index l)).
      split; [reflexivity|]. split; [reflexivity|]. split; [reflexivity|].
      intros j i Hj Hi. unfold cell_at, col.
      unfold reindex_rows at 1. cbn [data].
      rewrite (nth_map_within _ _ j [])
        by (unfold df_ffill, frame_cols, reindex_rows; cbn [data];
            rewrite !length_map, Lr; exact Hj).
      rewrite filled_column by (rewrite Lr; exact Hj).
      change (index (df_ffill (reindex_rows r U))) with U.
      rewrite (nth_reindex_col _ _ _ (nth i (index l) 0%Z) i)
        by (apply find_pos_nth; [apply increasing_NoDup, Il | exact Hi]).
      assert (HinU : In (nth i (index l) 0%Z) U).
      { apply usort_in, in_or_app. left. apply nth_In. exact Hi. }
      destruct (find_pos_present Z.eq_dec _ _ HinU) as [p Hp].
      rewrite Hp. apply ffill_reindex_at; auto.
Qed.

Lemma join_left_fill_right_as_of_witness :
  exists r',
    join_left_fill_right 0 1 [JoinExample.t1; JoinExample.t2]
    = Return (JoinExample.t1, r') [JoinExample.t1; JoinExample.t2]
    /\ index r' = index JoinExample.t1
    /\ columns r' = columns JoinExample.t2
    /\ forall j i,
         j < ncols JoinExample.t2 -> i < nrows JoinExample.t1 ->
         cell_at r' j i
         = as_of (index JoinExample.t2) (col JoinExample.t2 j)
             (nth i (index JoinExample.t1) 0%Z) NaN.
Proof.
  apply (join_left_fill_right_as_of [JoinExample.t1; JoinExample.t2] 0 1
           JoinExample.t1 JoinExample.t2); reflexivity.
Defined.

(** *** The number of turns of the divide-and-conquer loop *)

Lemma join_rounds_S fuel l :
  join_rounds (S fuel) l
  = if List.length l =? 1 then Some (getitem_list l 0)
    else match join_round l with
         | Err e => Some (Err e)
         | Ok df_list_out => join_rounds fuel df_list_out
         end.
Proof. reflexivity. Qed.

Lemma half_up_le n m : n <= 2 * m -> Nat.div2 (n + 1) <= m.
Proof.
  intros H. rewrite Nat.div2_div.
  apply (Nat.le_trans _ ((1 + m * 2) / 2)).
  - apply Nat.Div0.div_le_mono. lia.
  - rewrite Nat.div_add by discriminate. reflexivity.
Qed.

Lemma half_up_gt n m : 2 * m < n -> m < Nat.div2 (n + 1).
Proof.
  intros H. rewrite Nat.div2_div.
  apply (Nat.lt_le_trans _ ((2 * m + 2) / 2)).
  - replace (2 * m + 2) with ((m + 1) * 2) by lia.
    rewrite Nat.div_mul by discriminate. lia.
  - apply Nat.Div0.div_le_mono. lia.
Qed.

Lemma join_rounds_halving f :
  forall l,
    l <> [] -> all_increasing l -> List.length l <= 2 ^ f ->
    join_rounds (S f) l = Some (join_all l).
Proof.
  induction f as [|f IH]; intros l Hne Hinc Hlen.
  - destruct l as [|x [|y l]]; [contradiction | reflexivity |].
    cbn in Hlen. lia.
  - rewrite join_rounds_S.
    destruct (Nat.eqb_spec (List.length l) 1) as [E1|N1].
    + destruct l as [|x [|y l]]; try discriminate. reflexivity.
    + rewrite join_round_pair_up.
      pose proof (pair_up_fold (List.length l) l (Nat.le_refl _) Hne Hinc)
        as Hp.
      destruct (pair_up l) as [out|e].
      * destruct Hp as [Hone [Hoinc [Holen Hofold]]].
        rewrite <- Hofold. apply IH; try assumption.
        rewrite Holen. apply half_up_le.
        rewrite Nat.pow_succ_r' in Hlen. exact Hlen.
      * rewrite Hp. reflexivity.
Qed.

Lemma join_rounds_short f :
  forall l d,
    all_increasing l -> join_all l = Ok d -> 2 ^ f < List.length l ->
    join_rounds (S f) l = None.
Proof.
  induction f as [|f IH]; intros l d Hinc Hok Hlen.
  - rewrite join_rounds_S.
    destruct (Nat.eqb_spec (List.length l) 1) as [E1|_].
    { rewrite E1 in Hlen. cbn in Hlen. lia. }
    rewrite join_round_pair_up.
    assert (Hne : l <> []) by (intros ->; discriminate Hok).
    pose proof (pair_up_fold (List.length l) l (Nat.le_refl _) Hne Hinc)
      as Hp.
    destruct (pair_up l) as [out|e]; [reflexivity|].
    rewrite Hp in Hok. discriminate Hok.
  - rewrite join_rounds_S.
    assert (H1 : 1 <= 2 ^ S f) by (apply Nat.neq_0_lt_0, Nat.pow_nonzero; lia).
    destruct (Nat.eqb_spec (List.length l) 1) as [E1|_]; [lia|].
    rewrite join_round_pair_up.
    assert (Hne : l <> []) by (intros ->; discriminate Hok).
    pose proof (pair_up_fold (List.length l) l (Nat.le_refl _) Hne Hinc)
      as Hp.
    destruct (pair_up l) as [out|e].
    + destruct Hp as [Hone [Hoinc [Holen Hofold]]].
      apply (IH out d Hoinc).
      * rewrite Hofold. exact Hok.
      * rewrite Holen. apply half_up_gt.
        rewrite Nat.pow_succ_r' in Hlen. exact Hlen.
    + rewrite Hp in Hok. discriminate Hok.
Qed.

(** X22.  The loop of [iterative_outer_join_second] halves the list at each
    turn: on [n] present tables with increasing timestamps, [n <= 2 ^ f],
    it has left after [f] turns and the closing test, with the result of the
    sequential fold. *)
Theorem iterative_rounds_halve :
  forall (tables : list DataFrame) (f : nat),
    tables <> [] ->
    all_increasing tables ->
    List.length tables <= 2 ^ f ->
    iterative_outer_join_second (S f) (Some (map Some tables))
    = Some (functional_outer_join (Some (map Some tables))).
Proof.
  intros tables f Hne Hinc Hlen.
  rewrite functional_outer_join_present.
  unfold iterative_outer_join_second. rewrite remove_none_present. cbv zeta.
  destruct (Nat.eqb_spec (List.length tables) 0) as [E0|_].
  { destruct tables; [contradiction | discriminate]. }
  destruct (Nat.eqb_spec (List.length tables) 1) as [E1|_].
  { destruct tables as [|x [|y l]]; try discriminate. reflexivity. }
  rewrite (join_rounds_halving f tables Hne Hinc Hlen). reflexivity.
Qed.

Lemma iterative_rounds_halve_witness :
  iterative_outer_join_second 3
    (Some (map Some [JoinExample.t1; JoinExample.t2; JoinExample.t3]))
  = Some (functional_outer_join
            (Some (map Some [JoinExample.t1; JoinExample.t2;
                             JoinExample.t3]))).
Proof.
  apply (iterative_rounds_halve
           [JoinExample.t1; JoinExample.t2; JoinExample.t3] 2).
  - discriminate.
  - repeat constructor.
  - simpl. lia.
Defined.

(** X23.  Fewer turns do not end the loop: on more than [2 ^ f] present
    tables with increasing timestamps whose merge succeeds, the loop of
    [iterative_outer_join_second] is still running after [f] turns and one
    more test. *)
Theorem iterative_rounds_needed :
  forall (tables : list DataFrame) (f : nat) (d : DataFrame),
    all_increasing tables ->
    functional_outer_join (Some (map Some tables)) = Ok (Some d) ->
    2 ^ f < List.length tables ->
    iterative_outer_join_second (S f) (Some (map Some tables)) = None.
Proof.
  intros tables f d Hinc Hok Hlen.
  rewrite functional_outer_join_present in Hok.
  assert (Hall : join_all tables = Ok d).
  { destruct (join_all tables) as [d'|e]; [|discriminate Hok].
    cbn [rbind] in Hok. injection Hok as ->. reflexivity. }
  assert (H1 : 1 <= 2 ^ f) by (apply Nat.neq_0_lt_0, Nat.pow_nonzero; lia).
  unfold iterative_outer_join_second. rewrite remove_none_present. cbv zeta.
  destruct (Nat.eqb_spec (List.length tables) 0) as [E0|_]; [lia|].
  destruct (Nat.eqb_spec (List.length tables) 1) as [E1|_]; [lia|].
  rewrite (join_rounds_short f tables d Hinc Hall Hlen). reflexivity.
Qed.

Lemma iterative_rounds_needed_witness :
  exists d,
    functional_outer_join
      (Some (map Some [JoinExample.t1; JoinExample.t2; JoinExample.t3]))
    = Ok (Some d)
    /\ iterative_outer_join_second 2
         (Some (map Some [JoinExample.t1; JoinExample.t2; JoinExample.t3]))
       = None.
Proof.
  eexists. split; [vm_compute; reflexivity|].
  eapply (iterative_rounds_needed
            [JoinExample.t1; JoinExample.t2; JoinExample.t3] 1).
  - repeat constructor.
  - vm_compute. reflexivity.
  - simpl. lia.
Defined.
